(** * gatsp.cpp: chromosome encoding, repair, decoding and evaluation for CVRP

    A shallow embedding of the functions of [gatsp.cpp] that build, repair,
    decode and evaluate a candidate solution, and the properties of them
    that the specification states.

    Conventions of the embedding.
    - [int] values are integers of [Z]. Overflow of a signed [int] is
      undefined in C++; for a sum of demands, in the packing loop of the
      generator and in [routeDemand], the model takes what the compiled code
      leaves: the sum modulo [2^32], in two's complement ([to_int]). Where a
      theorem speaks of a demand as the code sees it, it says [to_int d],
      which is [d] for an [int]. Counters, indices, [n] and [vehicle] are
      taken far from [INT_MIN] and [INT_MAX], and the arithmetic on them is
      exact.
    - [size_t] values are written with their wrap-around modulo [2^64] where
      it can happen: [v.size() - 1] on an empty vector, and the conversion of
      a negative [int] that is compared with a size.
    - [std::vector<T>] is [list T]; [v[i]] outside the vector is undefined
      behaviour in C++ and is the fault [OutOfRange] here, so that a theorem
      saying a call returns [Ok] also says that every index was in range.
    - [double] is the kernel's binary64 [float].
    - [std::shuffle] is a parameter: any function returning a permutation of
      its argument.
    - The [while] loop of [repairZero] need not terminate; it takes fuel and
      returns [None] when the fuel is used up. So does the padding loop of
      [initsolution].
    - [generatePopulation], [findBestIndividual] and [runCMT1] print what
      they compute; the model returns what is printed. They start from the
      instance that [readCVRP] has read; [readCVRP] itself, which reads a
      stream, is not part of the embedding. *)

From Stdlib Require Import ZArith Lia Floats.
From stdpp Require Import numbers list.

#[local] Open Scope Z_scope.

(** ** Faults and the result monad *)

(** The vectors the source indexes with [operator[]]. *)
Inductive vec : Set :=
  VSeq | VDemand | VCount | VMissing | VRoute | VVisited | VDist.

Inductive fault : Set :=
| OutOfRange (v : vec)   (* v[i] with i outside v: undefined behaviour *)
| LengthError.           (* vector(n) with a negative n: no such vector *)

Inductive res (A : Type) : Type :=
| Ok (a : A)
| Err (e : fault).
Arguments Ok {A} a.
Arguments Err {A} e.

#[global] Instance res_ret : MRet res := λ A a, Ok a.
#[global] Instance res_bind : MBind res :=
  λ A B f m, match m with Ok a => f a | Err e => Err e end.
#[global] Instance res_fmap : FMap res :=
  λ A B f m, match m with Ok a => Ok (f a) | Err e => Err e end.

(** [v[i]] for an [int] or [size_t] index [i]: a negative [int] converts to a
    [size_t] beyond every vector. *)
Definition at_ {A} (w : vec) (v : list A) (i : Z) : res A :=
  if i <? 0 then Err (OutOfRange w)
  else match v !! Z.to_nat i with
       | Some x => Ok x
       | None => Err (OutOfRange w)
       end.

(** [v.size()], [v.size() - 1] (which wraps around on an empty vector) and
    the conversion of an [int] to [size_t]. *)
Definition size {A} (v : list A) : Z := Z.of_nat (length v).
Definition sizeMinus1 {A} (v : list A) : Z :=
  match v with [] => 2 ^ 64 - 1 | _ => size v - 1 end.
Definition to_size (i : Z) : Z := if i <? 0 then i + 2 ^ 64 else i.
#[global] Arguments size : simpl never.
#[global] Arguments sizeMinus1 : simpl never.
#[global] Arguments to_size : simpl never.

(** The range of [int], and the [int] that a sum of two of them leaves:
    the sum modulo [2^32]. An [int] is left as it is. *)
Definition INT_MIN : Z := - 2 ^ 31.
Definition INT_MAX : Z := 2 ^ 31 - 1.
Definition to_int (z : Z) : Z := (z + 2 ^ 31) mod 2 ^ 32 - 2 ^ 31.
#[global] Arguments to_int : simpl never.

(** [std::count(v.begin(), v.end(), x)]. *)
Definition count (x : Z) (v : list Z) : nat := count_occ Z.eq_dec v x.

(** The customer tokens of a chromosome: what is left without the
    separators. *)
Definition tokens (v : list Z) : list Z := filter (λ x, x ≠ 0) v.
#[global] Arguments count : simpl never.
#[global] Arguments tokens : simpl never.

(** ** SequenceGenerator: the body of the loop of [initPopulationSeq] *)

(** [for (int i = 2; i <= n; ++i) customers.push_back(i)]. *)
Definition customers (n : Z) : list Z := seqZ 2 (n - 1).

(** The greedy packing loop over the shuffled customers; the state is
    [(groups, currentGroup, currentLoad)]. *)
Fixpoint pack (custs demand : list Z) (capacity : Z)
    (groups : list (list Z)) (currentGroup : list Z) (currentLoad : Z)
    : res (list (list Z) * list Z) :=
  match custs with
  | [] => Ok (groups, currentGroup)
  | cust :: rest =>
      d ← at_ VDemand demand cust;
      if to_int (currentLoad + d) <=? capacity
      then pack rest demand capacity groups (currentGroup ++ [cust])
                (to_int (currentLoad + d))
      else pack rest demand capacity (groups ++ [currentGroup]) [cust] d
  end.

(** [while ((int)groups.size() < vehicle) groups.push_back({})]. *)
Definition padGroups (groups : list (list Z)) (vehicle : Z) : list (list Z) :=
  groups ++ replicate (Z.to_nat (vehicle - size groups)) [].

(** The concatenation loop: the customers of each group, and a [0] after
    every group but the last. *)
Fixpoint joinGroups (groups : list (list Z)) : list Z :=
  match groups with
  | [] => []
  | [g] => g
  | g :: rest => g ++ 0 :: joinGroups rest
  end.

(** The groups of one individual, after packing and padding. *)
Definition initGroups (shuffled : list Z) (vehicle capacity : Z) (demand : list Z)
    : res (list (list Z)) :=
  '(groups, currentGroup) ← pack shuffled demand capacity [] [] 0;
  let groups :=
    match currentGroup with [] => groups | _ => groups ++ [currentGroup] end in
  Ok (padGroups groups vehicle).

(** One individual, from the shuffled list of customers. *)
Definition initSeq (shuffled : list Z) (vehicle capacity : Z) (demand : list Z)
    : res (list Z) :=
  joinGroups <$> initGroups shuffled vehicle capacity demand.

(** [initPopulationSeq]: 50 individuals; [shuffle p] is the outcome of the
    [p]-th call of [std::shuffle]. *)
Definition population : nat := 50.

Definition initPopulationSeq (shuffle : nat → list Z → list Z)
    (vehicle n capacity : Z) (demand : list Z) : res (list (list Z)) :=
  mapM (λ p, initSeq (shuffle p (customers n)) vehicle capacity demand)
       (seq 0 population).

(** ** ZeroRepair: [repairZero] *)

(** [seq.erase(seq.begin() + i)]. *)
Definition erase (i : nat) (v : list Z) : list Z := delete i v.

(** [find(seq.begin(), seq.end(), 0)]: the position of the first [0]. *)
Definition find0 (v : list Z) : option nat := fst <$> list_find (λ x, x = 0) v.

(** How one iteration of the [for] loop ends. *)
Inductive flow (A : Type) : Type :=
| Continue (a : A)
| Break (a : A).
Arguments Continue {A} a.
Arguments Break {A} a.

(** The second [if] of the body: above the target, the leftmost [0] goes. *)
Definition eraseLeftmost (need : Z) (st : list Z * Z) : flow (list Z * Z) :=
  let '(v, zeroCount) := st in
  if need <? zeroCount then
    let '(v, zeroCount) :=
      match find0 v with
      | Some j => (erase j v, zeroCount - 1)
      | None => (v, zeroCount)
      end in
    if zeroCount =? need then Break (v, zeroCount) else Continue (v, zeroCount)
  else Continue (v, zeroCount).

(** The body of the [for] loop at index [i]. The first [if] tests
    [seq[i] == 0 && (i == 0 || i == seq.size() - 1 ||
                     (i + 1 < seq.size() && seq[i + 1] == 0))],
    erases [seq[i]] and stops the loop at the target; the second [if] follows
    in every iteration that goes on. *)
Definition forBody (need i : Z) (st : list Z * Z) : res (flow (list Z * Z)) :=
  let '(v, zeroCount) := st in
  x ← at_ VSeq v i;
  adjacent ←
    (if x =? 0 then
       if (i =? 0) || (to_size i =? sizeMinus1 v) then Ok true
       else if to_size (i + 1) <? size v
            then y ← at_ VSeq v (i + 1); Ok (y =? 0)
            else Ok false
     else Ok false);
  if adjacent : bool then
    let v := erase (Z.to_nat i) v in
    let zeroCount := zeroCount - 1 in
    if zeroCount =? need then Ok (Break (v, zeroCount))
    else Ok (eraseLeftmost need (v, zeroCount))
  else Ok (eraseLeftmost need (v, zeroCount)).

#[global] Arguments eraseLeftmost : simpl never.
#[global] Arguments forBody : simpl never.

(** [for (int i = ...; i < seq.size() - 1; i++)] from index [i] on. Every
    iteration moves [i] one step towards a bound that does not grow, so the
    loop ends; [k] bounds the number of iterations and is never what stops
    the loop of [forPass] (lemma [forPass_bound]). *)
Fixpoint forLoop (k : nat) (need i : Z) (st : list Z * Z) : res (list Z * Z) :=
  match k with
  | O => Ok st
  | S k =>
      if to_size i <? sizeMinus1 st.1 then
        f ← forBody need i st;
        match f with
        | Break st => Ok st
        | Continue st => forLoop k need (i + 1) st
        end
      else Ok st
  end.

(** One pass of the [while] body: the [for] loop from index 1. *)
Definition forPass (need : Z) (st : list Z * Z) : res (list Z * Z) :=
  forLoop (S (length st.1)) need 1 st.

(** [while (zeroCount > needZero) { for ... }]. *)
Fixpoint whileLoop (fuel : nat) (need : Z) (st : list Z * Z) : option (res (list Z)) :=
  match fuel with
  | O => None
  | S fuel =>
      if need <? st.2 then
        match forPass need st with
        | Ok st => whileLoop fuel need st
        | Err e => Some (Err e)
        end
      else Some (Ok st.1)
  end.

(** [repairZero(seq, vehicle)]: the chromosome it leaves in [seq]. *)
Definition repairZero (fuel : nat) (v : list Z) (vehicle : Z) : option (res (list Z)) :=
  let zeroCount := Z.of_nat (count 0 v) in
  let needZero := vehicle - 1 in
  whileLoop fuel needZero (v, zeroCount).

(** ** CustomerRepair: [repairCustomer] *)

(** [for (int v : seq) if (v != 0) count[v]++]. *)
Fixpoint countLoop (v : list Z) (cnt : list Z) : res (list Z) :=
  match v with
  | [] => Ok cnt
  | x :: rest =>
      if x =? 0 then countLoop rest cnt
      else c ← at_ VCount cnt x;
           countLoop rest (<[Z.to_nat x := c + 1]> cnt)
  end.

(** The inner loop [for (int& v : seq)], which writes into [seq] in place:
    the result is the new contents of the part scanned and the counts. On
    [break] the rest of [seq] stays as it is. *)
Fixpoint replaceLoop (v cnt missing : list Z) (idx : Z) : res (list Z * list Z) :=
  match v with
  | [] => Ok ([], cnt)
  | x :: rest =>
      dup ← (if x =? 0 then Ok false
             else c ← at_ VCount cnt x; Ok (1 <? c));
      if dup : bool then
        m ← at_ VMissing missing idx;
        c ← at_ VCount cnt m;
        let cnt := <[Z.to_nat m := c - 1]> cnt in
        let idx := idx + 1 in
        if size missing <=? to_size idx then Ok (m :: rest, cnt)
        else '(rest, cnt) ← replaceLoop rest cnt missing idx; Ok (m :: rest, cnt)
      else '(rest, cnt) ← replaceLoop rest cnt missing idx; Ok (x :: rest, cnt)
  end.

(** The outer loop [for (int i = 2; i <= n; ++i)], over the ids still to
    come; [missing] grows and the inner loop runs once for every id. *)
Fixpoint missingLoop (ids v cnt missing : list Z) : res (list Z) :=
  match ids with
  | [] => Ok v
  | i :: ids =>
      c ← at_ VCount cnt i;
      let missing := if c =? 0 then missing ++ [i] else missing in
      '(v, cnt) ← replaceLoop v cnt missing 0;
      missingLoop ids v cnt missing
  end.

(** [repairCustomer(seq, n)]: the chromosome it leaves in [seq]. *)
Definition repairCustomer (v : list Z) (n : Z) : res (list Z) :=
  if n + 1 <? 0 then Err LengthError
  else
    cnt ← countLoop v (replicate (Z.to_nat (n + 1)) 0);
    missingLoop (seqZ 2 (n - 1)) v cnt [].

(** ** The pipeline of [generatePopulation] for one individual *)

(** [repairZero(seq, vehicle); repairCustomer(seq, n);]. *)
Definition repairSeq (fuel : nat) (v : list Z) (vehicle n : Z) : option (res (list Z)) :=
  match repairZero fuel v vehicle with
  | Some (Ok v) => Some (repairCustomer v n)
  | Some (Err e) => Some (Err e)
  | None => None
  end.

(** A generated individual, repaired. *)
Definition generateSeq (fuel : nat) (shuffled : list Z) (vehicle n capacity : Z)
    (demand : list Z) : option (res (list Z)) :=
  match initSeq shuffled vehicle capacity demand with
  | Ok v => repairSeq fuel v vehicle n
  | Err e => Some (Err e)
  end.

(** ** Decoder: [decodeSeq] *)

(** The loop over the tokens; the state is [(routes, currentRoute)]. *)
Fixpoint decodeLoop (v : list Z) (depot : Z) (routes : list (list Z))
    (currentRoute : list Z) : list (list Z) * list Z :=
  match v with
  | [] => (routes, currentRoute)
  | x :: rest =>
      if x =? 0
      then decodeLoop rest depot (routes ++ [currentRoute ++ [depot]]) [depot]
      else decodeLoop rest depot routes (currentRoute ++ [x])
  end.

(** After the loop the current route is closed and emitted if it holds more
    than the depot. *)
Definition decodeSeq (v : list Z) (depot : Z) : list (list Z) :=
  let '(routes, currentRoute) := decodeLoop v depot [] [depot] in
  if 1 <? size currentRoute then routes ++ [currentRoute ++ [depot]] else routes.

(** ** Evaluator *)

(** C's [round] on a [double]: the nearest integer, a tie going away from
    zero. A finite [x] is [±m·2^e]; with [0 <= e] it is an integer already. *)
Definition c_round (x : float) : float :=
  match Prim2SF x with
  | S754_finite s m e =>
      if 0 <=? e then x
      else
        let d := 2 ^ (- e) in
        let q := Z.pos m / d in
        let q := if d <=? 2 * (Z.pos m mod d) then q + 1 else q in
        SF2Prim match q with
                | Z.pos p => S754_finite s p 0
                | _ => S754_zero s
                end
  | _ => x
  end.

(** [round(x * 100.0) / 100.0]. *)
Definition round2 (x : float) : float := (c_round (x * 100) / 100)%float.

(** [round(sqrt((x1-x2)*(x1-x2) + (y1-y2)*(y1-y2)) * 100.0) / 100.0]. *)
Definition euclidDist (x1 y1 x2 y2 : float) : float :=
  round2 (PrimFloat.sqrt ((x1 - x2) * (x1 - x2) + (y1 - y2) * (y1 - y2)))%float.

(** The matrix of [buildDist] for a distance function: row and column 0 stay
    0; [i] and [j] run to [coords.size() - 1], so [coords[i]] is always in
    range. *)
Definition distMatrix (metric : float → float → float → float → float)
    (coords : list (float * float)) : list (list float) :=
  let n := size coords - 1 in
  let at_coords i := nth (Z.to_nat i) coords (0, 0)%float in
  let entry i j :=
    if (1 <=? i) && (1 <=? j)
    then metric (at_coords i).1 (at_coords i).2 (at_coords j).1 (at_coords j).2
    else 0%float in
  (λ i, entry i <$> seqZ 0 (n + 1)) <$> seqZ 0 (n + 1).

Definition buildDist (coords : list (float * float)) : list (list float) :=
  distMatrix euclidDist coords.

(** [for (size_t i = 1; i < route.size() - 1; ++i) sum += demand[route[i]]],
    from index [i] on; [route] does not change, so [length route] iterations
    are enough. *)
Fixpoint routeDemandLoop (k : nat) (route demand : list Z) (i sum : Z) : res Z :=
  match k with
  | O => Ok sum
  | S k =>
      if i <? sizeMinus1 route then
        c ← at_ VRoute route i;
        d ← at_ VDemand demand c;
        routeDemandLoop k route demand (i + 1) (to_int (sum + d))
      else Ok sum
  end.

Definition routeDemand (route demand : list Z) : res Z :=
  routeDemandLoop (S (length route)) route demand 1 0.

(** [for (size_t i = 0; i < route.size() - 1; ++i)
      cost += dist[route[i]][route[i+1]]]. *)
Fixpoint routeCostLoop (k : nat) (route : list Z) (dist : list (list float))
    (i : Z) (cost : float) : res float :=
  match k with
  | O => Ok cost
  | S k =>
      if i <? sizeMinus1 route then
        a ← at_ VRoute route i;
        b ← at_ VRoute route (i + 1);
        row ← at_ VDist dist a;
        d ← at_ VDist row b;
        routeCostLoop k route dist (i + 1) (cost + d)%float
      else Ok cost
  end.

(** The sum of the distances along the route, rounded. *)
Definition routeCost (route : list Z) (dist : list (list float)) : res float :=
  round2 <$> routeCostLoop (S (length route)) route dist 0 0%float.

(** [for (const auto& r : routes) sum += routeCost(r, dist)], then the sum
    is rounded. *)
Fixpoint totalCostLoop (routes : list (list Z)) (dist : list (list float))
    (sum : float) : res float :=
  match routes with
  | [] => Ok sum
  | r :: routes =>
      c ← routeCost r dist;
      totalCostLoop routes dist (sum + c)%float
  end.

Definition totalCost (routes : list (list Z)) (dist : list (list float)) : res float :=
  round2 <$> totalCostLoop routes dist 0%float.

(** The inner loop of [checkSolution] over the interior of one route; [None]
    stands for [return false]. *)
Fixpoint visitLoop (k : nat) (route : list Z) (i : Z) (visited : list bool)
    : res (option (list bool)) :=
  match k with
  | O => Ok (Some visited)
  | S k =>
      if i <? sizeMinus1 route then
        c ← at_ VRoute route i;
        b ← at_ VVisited visited c;
        if b : bool then Ok None
        else visitLoop k route (i + 1) (<[Z.to_nat c := true]> visited)
      else Ok (Some visited)
  end.

(** The loop of [checkSolution] over the routes. *)
Fixpoint routesLoop (routes : list (list Z)) (demand : list Z) (capacity : Z)
    (visited : list bool) : res (option (list bool)) :=
  match routes with
  | [] => Ok (Some visited)
  | route :: routes =>
      d ← routeDemand route demand;
      if capacity <? d then Ok None
      else
        r ← visitLoop (S (length route)) route 1 visited;
        match r with
        | None => Ok None
        | Some visited => routesLoop routes demand capacity visited
        end
  end.

(** [for (int i = 2; i <= n; ++i) if (!visited[i]) return false;
    return true]. *)
Fixpoint allVisited (ids : list Z) (visited : list bool) : res bool :=
  match ids with
  | [] => Ok true
  | i :: ids =>
      b ← at_ VVisited visited i;
      if b : bool then allVisited ids visited else Ok false
  end.

(** [checkSolution]: [visited] has [n + 1] entries, all [false] at first. A
    negative [n + 1] is the size of no vector: what the library makes of it
    is left open, and it is a fault here. *)
Definition checkSolution (routes : list (list Z)) (demand : list Z)
    (capacity n : Z) : res bool :=
  if n + 1 <? 0 then Err LengthError
  else
    r ← routesLoop routes demand capacity (replicate (Z.to_nat (n + 1)) false);
    match r with
    | None => Ok false
    | Some visited => allVisited (seqZ 2 (n - 1)) visited
    end.

(** ** The bins alone: [initsolution] *)

(** [while (nhom.size() < vehicle) nhom.push_back({})]: the comparison is
    one of [size_t], to which [vehicle] is converted. A negative [vehicle]
    asks for more bins than a vector can hold, so the loop takes fuel and
    returns [None] when the fuel is used up. *)
Fixpoint padLoop (fuel : nat) (nhom : list (list Z)) (vehicle : Z)
    : option (list (list Z)) :=
  match fuel with
  | O => None
  | S fuel =>
      if size nhom <? to_size vehicle then padLoop fuel (nhom ++ [[]]) vehicle
      else Some nhom
  end.

(** [initsolution]: the packing loop is that of [initPopulationSeq]; what is
    returned are the bins [nhom], and the sequence built from them is
    dropped. *)
Definition initsolution (fuel : nat) (shuffled : list Z) (vehicle capacity : Z)
    (demand : list Z) : option (res (list (list Z))) :=
  match pack shuffled demand capacity [] [] 0 with
  | Ok (nhom, xe) =>
      let nhom := match xe with [] => nhom | _ => nhom ++ [xe] end in
      Ok <$> padLoop fuel nhom vehicle
  | Err e => Some (Err e)
  end.

(** ** The best individual: [findBestIndividual] *)

(** [numeric_limits<double>::max()]. *)
Definition DBL_MAX : float := 0x1.fffffffffffffp1023%float.

(** The loop over the population from individual [i] on. What the function
    prints at the end, and the model returns, are [bestCost] and [bestIdx]
    (printed as [bestIdx + 1]). *)
Fixpoint bestLoop (populationSeq : list (list Z)) (depot : Z) (dist : list (list float))
    (i : Z) (bestCost : float) (bestIdx : Z) : res (float * Z) :=
  match populationSeq with
  | [] => Ok (bestCost, bestIdx)
  | v :: rest =>
      cost ← totalCost (decodeSeq v depot) dist;
      if (cost <? bestCost)%float
      then bestLoop rest depot dist (i + 1) cost i
      else bestLoop rest depot dist (i + 1) bestCost bestIdx
  end.

Definition findBestIndividual (populationSeq : list (list Z)) (depot : Z)
    (coords : list (float * float)) : res (float * Z) :=
  bestLoop populationSeq depot (buildDist coords) 0 DBL_MAX (-1).

(** ** The program: [generatePopulation] and [runCMT1], after [readCVRP] *)

(** [for (auto& seq : populationSeq) { repairZero(seq, vehicle);
    repairCustomer(seq, n); }]: the population it leaves. *)
Fixpoint repairAll (fuel : nat) (populationSeq : list (list Z)) (vehicle n : Z)
    : option (res (list (list Z))) :=
  match populationSeq with
  | [] => Some (Ok [])
  | v :: rest =>
      match repairSeq fuel v vehicle n with
      | Some (Ok r) =>
          match repairAll fuel rest vehicle n with
          | Some (Ok rs) => Some (Ok (r :: rs))
          | other => other
          end
      | Some (Err e) => Some (Err e)
      | None => None
      end
  end.

(** [generatePopulation], from the instance that [readCVRP] has read: the
    population it prints. *)
Definition generatePopulation (fuel : nat) (shuffle : nat → list Z → list Z)
    (vehicle n capacity : Z) (demand : list Z) : option (res (list (list Z))) :=
  match initPopulationSeq shuffle vehicle n capacity demand with
  | Ok populationSeq => repairAll fuel populationSeq vehicle n
  | Err e => Some (Err e)
  end.

(** [runCMT1], from the instance that [readCVRP] has read: five vehicles,
    the repaired population, and the best individual of it. *)
Definition runCMT1 (fuel : nat) (shuffle : nat → list Z → list Z)
    (n capacity : Z) (coords : list (float * float)) (demand : list Z) (depot : Z)
    : option (res (float * Z)) :=
  match generatePopulation fuel shuffle 5 n capacity demand with
  | Some (Ok populationSeq) => Some (findBestIndividual populationSeq depot coords)
  | Some (Err e) => Some (Err e)
  | None => None
  end.

(** * Notions used to state the properties *)

(** What a shuffle of the customers is. *)
Definition shuffleOf (n : Z) (shuffled : list Z) : Prop := shuffled ≡ₚ customers n.

(** The demand vector has an entry for every customer. *)
Definition covers (demand : list Z) (n : Z) : Prop := 2 ≤ n → n < size demand.

(** The invariant of the loops of [repairZero]: [zeroCount] is the number of
    separators of the chromosome. *)
Definition counted (st : list Z * Z) : Prop := st.2 = Z.of_nat (count 0 st.1).

(** What the loops do to the chromosome: they erase separators only. *)
Definition erased (st st' : list Z * Z) : Prop :=
  tokens st'.1 = tokens st.1 ∧ st'.1 `sublist_of` st.1 ∧ st'.2 ≤ st.2.

(** What one iteration of the [for] loop achieves, started above the target. *)
Definition stepped (need : Z) (st : list Z * Z) (f : flow (list Z * Z)) : Prop :=
  match f with
  | Break st' => counted st' ∧ erased st st' ∧ st'.2 = need
  | Continue st' =>
      counted st' ∧ erased st st' ∧ need < st'.2 ∧ (0 ≤ need → st'.2 < st.2)
  end.

(** The separator positions of a chromosome. *)
Definition separators (v : list Z) : list bool := (λ x, x =? 0) <$> v.

(** The one instance on which [repairZero] is called and cannot return: a
    single customer whose demand exceeds the capacity, and a single vehicle.
    The generated chromosome is then [[0; 2]]. The demand is the [int] that
    the packing loop compares with the capacity. *)
Definition stuck (n V cap : Z) (demand : list Z) : Prop :=
  n = 2 ∧ V = 1 ∧ ∃ d, demand !! 2%nat = Some d ∧ cap < to_int d.

(** The tokens [repairCustomer] has to overwrite: every occurrence of an id
    after its first one. *)
Definition duplicateSlots (v : list Z) : nat :=
  (length (tokens v) - length (remove_dups (tokens v)))%nat.

(** The ids of [2..n] that a chromosome lacks, in ascending order. *)
Definition missingIds (v : list Z) (n : Z) : list Z :=
  filter (λ i, i ∉ v) (customers n).

(** Two separators next to each other. *)
Fixpoint adjacentZeros (v : list Z) : bool :=
  match v with
  | x :: (y :: _) as rest => (x =? 0) && (y =? 0) || adjacentZeros rest
  | _ => false
  end.

(** The order of removals as the specification words it. Phase (a): as long
    as the count is above the target, remove the leftmost separator that is
    followed by a separator. Phase (b): then remove leftmost separators until
    the target is reached. *)
Fixpoint removeLeftmost (v : list Z) : list Z :=
  match v with
  | [] => []
  | x :: rest => if x =? 0 then rest else x :: removeLeftmost rest
  end.

Fixpoint removeAdjacent (v : list Z) : option (list Z) :=
  match v with
  | x :: (y :: _) as rest =>
      if (x =? 0) && (y =? 0) then Some rest else (x ::.) <$> removeAdjacent rest
  | _ => None
  end.

Fixpoint phaseA (surplus : nat) (v : list Z) : list Z * nat :=
  match surplus with
  | O => (v, O)
  | S k =>
      match removeAdjacent v with
      | Some v' => phaseA k v'
      | None => (v, surplus)
      end
  end.

Definition zeroRepairSpec (v : list Z) (vehicle : Z) : list Z :=
  let '(v', surplus) := phaseA (Z.to_nat (Z.of_nat (count 0 v) - (vehicle - 1))) v in
  Nat.iter surplus removeLeftmost v'.

(** The interior of a route: the route without its first and last node. *)
Definition interior (route : list Z) : list Z :=
  drop 1 (take (length route - 1) route).

(** The part of a chromosome after its last separator is empty. *)
Definition trailingEmpty (v : list Z) : bool :=
  match last v with Some x => x =? 0 | None => true end.
#[global] Arguments interior : simpl never.
#[global] Arguments trailingEmpty : simpl never.

(** A [double] that is a number: not an infinity, not a NaN. *)
Definition finite (x : float) : bool :=
  match Prim2SF x with
  | S754_zero _ | S754_finite _ _ _ => true
  | _ => false
  end.

(** The loops of [routeDemand] and [checkSolution] over the indices
    [1 .. size - 2] of a route, as loops over the list of its interior ids. *)
Fixpoint demandIds (ids demand : list Z) (sum : Z) : res Z :=
  match ids with
  | [] => Ok sum
  | c :: ids => d ← at_ VDemand demand c; demandIds ids demand (to_int (sum + d))
  end.

Fixpoint visitIds (ids : list Z) (visited : list bool) : res (option (list bool)) :=
  match ids with
  | [] => Ok (Some visited)
  | c :: ids =>
      b ← at_ VVisited visited c;
      if b : bool then Ok None
      else visitIds ids (<[Z.to_nat c := true]> visited)
  end.

(** The demand of a list of customers, the customers not yet visited, and
    the marking of customers as visited. *)
Definition load (demand ids : list Z) : Z :=
  foldr (λ c s, default 0 (demand !! Z.to_nat c) + s) 0 ids.

Definition fresh (visited : list bool) (ids : list Z) : Prop :=
  NoDup ids ∧ Forall (λ c, visited !! Z.to_nat c = Some false) ids.

Definition mark (ids : list Z) (visited : list bool) : list bool :=
  foldl (λ v c, <[Z.to_nat c := true]> v) visited ids.

(** A route as the decoder builds it for an instance of [n] nodes: it is not
    empty and its interior holds customer ids of [2..n]. *)
Definition wellFormed (n : Z) (route : list Z) : Prop :=
  route ≠ [] ∧ Forall (λ c, 2 ≤ c ≤ n) (interior route).

(** The cost with one rounding only, at the end: the distances, the sums
    over a route and the sum over the routes are left as they are. *)
Definition rawDist (x1 y1 x2 y2 : float) : float :=
  PrimFloat.sqrt ((x1 - x2) * (x1 - x2) + (y1 - y2) * (y1 - y2))%float.

Definition rawRouteCost (route : list Z) (dist : list (list float)) : res float :=
  routeCostLoop (S (length route)) route dist 0 0%float.

Fixpoint rawTotalLoop (routes : list (list Z)) (dist : list (list float))
    (sum : float) : res float :=
  match routes with
  | [] => Ok sum
  | r :: routes =>
      c ← rawRouteCost r dist;
      rawTotalLoop routes dist (sum + c)%float
  end.

Definition totalCostOnce (routes : list (list Z)) (coords : list (float * float))
    : res float :=
  round2 <$> rawTotalLoop routes (distMatrix rawDist coords) 0%float.

(** Two results are different when their binary representations are. *)
Definition bits (r : res float) : spec_float :=
  match r with Ok x => Prim2SF x | Err _ => S754_nan end.

Ltac bits_differ :=
  let H := fresh in
  intros H; apply (f_equal bits) in H; vm_compute in H; discriminate H.

(** The state an iteration of the [for] loop of [repairZero] leaves. *)
Definition flowState {A} (f : flow A) : A :=
  match f with Continue a | Break a => a end.

(** The route of a bin, and the bins of which the decoder makes a route: all
    but an empty last one. *)
Definition routeOf (depot : Z) (g : list Z) : list Z := depot :: g ++ [depot].

Definition emitted (gs : list (list Z)) : list (list Z) :=
  match last gs with Some [] => take (length gs - 1) gs | _ => gs end.

(** A bin as the packing loop builds it: its demand, summed as an [int], is
    within the capacity, or it holds one customer at most. *)
Definition fits (demand : list Z) (capacity : Z) (g : list Z) : Prop :=
  to_int (load demand g) ≤ capacity ∨ (length g ≤ 1)%nat.

(** The packing loop is ahead of a division of the same customers into
    segments: it has closed fewer bins, or as many with no more load in the
    open one. *)
Definition ahead (b : nat) (L : Z) (b' : nat) (L' : Z) : Prop :=
  (b < b')%nat ∨ (b = b' ∧ L ≤ L').

(** A route for an instance of [n] nodes whose interior may hold any node
    id, the depot's too. *)
Definition inRange (n : Z) (route : list Z) : Prop :=
  route ≠ [] ∧ Forall (λ c, 0 ≤ c ≤ n) (interior route).

(** A slot that [repairCustomer] takes for a duplicate: it holds an id whose
    count is above one. *)
Definition hasDup (v cnt : list Z) : Prop :=
  ∃ x c, x ∈ v ∧ x ≠ 0 ∧ cnt !! Z.to_nat x = Some c ∧ 1 < c.

(** The count that [repairCustomer] keeps for customer 2 is not above one. *)
Definition low2 (cnt : list Z) : Prop := ∀ c, cnt !! 2%nat = Some c → c ≤ 1.

(** A chromosome with every customer once and [vehicle - 1] separators. *)
Definition valid (n vehicle : Z) (r : list Z) : Prop :=
  tokens r ≡ₚ customers n ∧ Z.of_nat (count 0 r) = vehicle - 1.

(** Every call of [std::shuffle] returns a permutation. *)
Definition shuffles (n : Z) (shuffle : nat → list Z → list Z) : Prop :=
  ∀ p, shuffleOf n (shuffle p (customers n)).

(** [dist[i][j]], and a square matrix of [s] rows. *)
Definition entry (dist : list (list float)) (i j : Z) : res float :=
  row ← at_ VDist dist i; at_ VDist row j.

Definition square (s : Z) (dist : list (list float)) : Prop :=
  size dist = s ∧ Forall (λ row, size row = s) dist.

(** The loop of [routeCost] as a sum over the legs of the route. *)
Fixpoint costLegs (route : list Z) (dist : list (list float)) (cost : float) : res float :=
  match route with
  | a :: (b :: _) as rest => d ← entry dist a b; costLegs rest dist (cost + d)%float
  | _ => Ok cost
  end.

(** Two values of [double] of the same magnitude. *)
Definition sameMagnitude (a b : spec_float) : Prop := a = b ∨ a = SFopp b.

(** [costs] are the costs of the individuals of a population. *)
Definition costsOf (populationSeq : list (list Z)) (depot : Z) (dist : list (list float))
    (costs : list float) : Prop :=
  Forall2 (λ v c, totalCost (decodeSeq v depot) dist = Ok c) populationSeq costs.

(** [best], at index [k], is the first of the least costs, and it is below
    [bound]. *)
Definition firstLeast (costs : list float) (bound : float) (k : nat) (best : float) : Prop :=
  costs !! k = Some best ∧ (best <? bound)%float = true ∧
  Forall (λ c, (c <? best)%float = false) costs ∧
  ∀ j c, (j < k)%nat → costs !! j = Some c → (c <=? best)%float = false.

(** * Properties *)

(** ** Sums of [int] *)

Lemma to_int_range z : INT_MIN ≤ to_int z ≤ INT_MAX.
Proof.
  unfold to_int, INT_MIN, INT_MAX.
  pose proof (Z.mod_pos_bound (z + 2 ^ 31) (2 ^ 32)). lia.
Qed.

Lemma to_int_id z : INT_MIN ≤ z ≤ INT_MAX → to_int z = z.
Proof. unfold to_int, INT_MIN, INT_MAX. intros H. rewrite Z.mod_small; lia. Qed.

Lemma to_int_idemp z : to_int (to_int z) = to_int z.
Proof. apply to_int_id, to_int_range. Qed.

Lemma to_int_add_l a b : to_int (to_int a + b) = to_int (a + b).
Proof.
  unfold to_int. f_equal.
  replace ((a + 2 ^ 31) mod 2 ^ 32 - 2 ^ 31 + b + 2 ^ 31)
    with ((a + 2 ^ 31) mod 2 ^ 32 + b) by lia.
  rewrite Zplus_mod_idemp_l. f_equal. lia.
Qed.

Lemma to_int_congr a a' b : to_int a = to_int a' → to_int (a + b) = to_int (a' + b).
Proof. intros H. by rewrite <- to_int_add_l, H, to_int_add_l. Qed.

(** A sum that is not below [INT_MIN] and within a bound leaves an [int]
    within the bound, whether it wraps around or not. *)
Lemma to_int_le z bound : INT_MIN ≤ z → z ≤ bound → to_int z ≤ bound.
Proof.
  intros Hz Hb. destruct (decide (z ≤ INT_MAX)) as [Hle|Hgt].
  - by rewrite to_int_id.
  - pose proof (to_int_range z). lia.
Qed.

(** ** Vectors, counts and tokens *)

Lemma at_Ok {A} w (v : list A) i x :
  at_ w v i = Ok x ↔ 0 ≤ i ∧ v !! Z.to_nat i = Some x.
Proof.
  unfold at_. destruct (Z.ltb_spec i 0).
  - split; [discriminate | lia].
  - destruct (v !! Z.to_nat i); split;
      [intros [= ->]; done | intros [_ [= ->]]; done | done | intros [_ ?]; done].
Qed.

Lemma at_in_range {A} w (v : list A) i :
  0 ≤ i < size v → ∃ x, at_ w v i = Ok x.
Proof.
  intros [H0 Hi]. unfold size in Hi.
  destruct (lookup_lt_is_Some_2 v (Z.to_nat i)) as [x Hx]; [lia|].
  exists x. apply at_Ok. done.
Qed.

Lemma to_size_nonneg i : 0 ≤ i → to_size i = i.
Proof. unfold to_size. intros. destruct (Z.ltb_spec i 0); lia. Qed.

Lemma sizeMinus1_cons {A} (x : A) v : sizeMinus1 (x :: v) = size v.
Proof. unfold sizeMinus1, size. simpl. lia. Qed.

Lemma sizeMinus1_nonempty {A} (v : list A) : v ≠ [] → sizeMinus1 v = size v - 1.
Proof. by destruct v. Qed.

Lemma count_nil x : count x [] = O.
Proof. done. Qed.

Lemma count_cons x y v :
  count x (y :: v) = ((if decide (y = x) then 1 else 0) + count x v)%nat.
Proof. unfold count. simpl. destruct (Z.eq_dec y x); by case_decide. Qed.

Lemma count_app x v w : count x (v ++ w) = (count x v + count x w)%nat.
Proof. apply count_occ_app. Qed.

Lemma count_zero_iff x v : count x v = O ↔ x ∉ v.
Proof. unfold count. rewrite <- count_occ_not_In, list_elem_of_In. done. Qed.

Lemma count_NoDup x v : NoDup v → x ∈ v → count x v = 1%nat.
Proof.
  intros Hnd Hx. apply NoDup_ListNoDup in Hnd.
  unfold count. apply NoDup_count_occ'; [done|]. by apply list_elem_of_In.
Qed.

Lemma tokens_app v w : tokens (v ++ w) = tokens v ++ tokens w.
Proof. apply filter_app. Qed.

Lemma tokens_cons x v :
  tokens (x :: v) = if decide (x = 0) then tokens v else x :: tokens v.
Proof.
  unfold tokens. case_decide.
  - by rewrite filter_cons_False by tauto.
  - by rewrite filter_cons_True.
Qed.

Lemma tokens_id v : Forall (λ x, x ≠ 0) v → tokens v = v.
Proof.
  induction 1 as [|x v Hx _ IH]; [done|].
  rewrite tokens_cons, IH. by case_decide.
Qed.

Lemma count_tokens x v : x ≠ 0 → count x (tokens v) = count x v.
Proof.
  intros Hx. induction v as [|y v IH]; [done|].
  rewrite tokens_cons, count_cons. repeat case_decide; subst; try done.
  - by rewrite count_cons, IH, decide_True.
  - by rewrite count_cons, IH, decide_False.
Qed.

Lemma length_tokens v : length v = (length (tokens v) + count 0 v)%nat.
Proof.
  induction v as [|y v IH]; [done|].
  rewrite tokens_cons, count_cons. case_decide; simpl; lia.
Qed.

(** Erasing a separator. *)
Lemma erase_split i v x :
  v !! i = Some x → v = take i v ++ x :: drop (S i) v ∧ erase i v = take i v ++ drop (S i) v.
Proof.
  intros H. split; [by rewrite take_drop_middle | apply delete_take_drop].
Qed.

Lemma tokens_erase i v : v !! i = Some 0 → tokens (erase i v) = tokens v.
Proof.
  intros H. destruct (erase_split _ _ _ H) as [Hv ->].
  rewrite Hv at 3. rewrite !tokens_app, tokens_cons. by case_decide.
Qed.

Lemma count_erase i v : v !! i = Some 0 → count 0 v = S (count 0 (erase i v)).
Proof.
  intros H. destruct (erase_split _ _ _ H) as [Hv ->].
  rewrite Hv at 1. rewrite !count_app, count_cons, decide_True by done. lia.
Qed.

Lemma length_erase i v : (length v - 1 ≤ length (erase i v) ≤ length v)%nat.
Proof.
  unfold erase. rewrite delete_take_drop, length_app, length_take, length_drop. lia.
Qed.

Lemma erase_sublist i v : erase i v `sublist_of` v.
Proof. apply sublist_delete. Qed.

Lemma find0_Some v j : find0 v = Some j → v !! j = Some 0.
Proof.
  unfold find0. destruct (list_find _ v) as [[i x]|] eqn:H; [|done].
  intros [= <-]. apply list_find_Some in H as (? & -> & _). done.
Qed.

Lemma find0_None v : find0 v = None → count 0 v = O.
Proof.
  unfold find0. destruct (list_find _ v) as [[i x]|] eqn:H; [done|]. intros _.
  apply list_find_None in H. apply count_zero_iff. intros Hin.
  by eapply Forall_forall in H.
Qed.

(** ** SequenceGenerator *)

Lemma elem_of_customers n c : c ∈ customers n ↔ 2 ≤ c ≤ n.
Proof. unfold customers. rewrite elem_of_seqZ. lia. Qed.

Lemma NoDup_customers n : NoDup (customers n).
Proof. apply NoDup_seqZ. Qed.

Lemma length_customers n : length (customers n) = Z.to_nat (n - 1).
Proof. apply length_seqZ. Qed.

Lemma shuffleOf_elem n shuffled c : shuffleOf n shuffled → c ∈ shuffled ↔ 2 ≤ c ≤ n.
Proof. intros H. unfold shuffleOf in H. rewrite H. apply elem_of_customers. Qed.

Lemma shuffleOf_nonzero n shuffled : shuffleOf n shuffled → Forall (λ x, x ≠ 0) shuffled.
Proof.
  intros H. apply Forall_forall. intros x Hx. eapply shuffleOf_elem in Hx; [|done]. lia.
Qed.

Lemma shuffleOf_NoDup n shuffled : shuffleOf n shuffled → NoDup shuffled.
Proof. intros H. unfold shuffleOf in H. rewrite H. apply NoDup_customers. Qed.

Lemma shuffleOf_length n shuffled : shuffleOf n shuffled → length shuffled = Z.to_nat (n - 1).
Proof. intros H. unfold shuffleOf in H. rewrite H. apply length_customers. Qed.

Lemma pack_concat custs demand cap groups cur load groups' cur' :
  pack custs demand cap groups cur load = Ok (groups', cur') →
  concat groups' ++ cur' = concat groups ++ cur ++ custs.
Proof.
  revert groups cur load. induction custs as [|c custs IH]; intros groups cur load; simpl.
  - intros [= <- <-]. by rewrite app_nil_r.
  - destruct (at_ VDemand demand c) as [d|e]; simpl; [|done].
    destruct (to_int (load + d) <=? cap); intros H%IH; rewrite H.
    + by rewrite <- !app_assoc.
    + rewrite concat_app. simpl. by rewrite app_nil_r, <- !app_assoc.
Qed.

Lemma pack_Ok custs demand cap groups cur load :
  Forall (λ c, 0 ≤ c < size demand) custs →
  ∃ r, pack custs demand cap groups cur load = Ok r.
Proof.
  intros H. revert groups cur load.
  induction H as [|c custs Hc _ IH]; intros groups cur load; simpl; [by eexists|].
  destruct (at_in_range VDemand demand c Hc) as [d ->]. simpl.
  destruct (to_int (load + d) <=? cap); apply IH.
Qed.

(** Every individual of the population is a chromosome of [initSeq] for one
    of the shuffles. *)
Lemma initPopulationSeq_individuals shuffle V n cap demand pop :
  initPopulationSeq shuffle V n cap demand = Ok pop →
  length pop = population ∧
  ∀ v, v ∈ pop →
    ∃ p, (p < population)%nat ∧ initSeq (shuffle p (customers n)) V cap demand = Ok v.
Proof.
  unfold initPopulationSeq.
  enough (∀ ps pop, mapM (λ p, initSeq (shuffle p (customers n)) V cap demand) ps = Ok pop →
            length pop = length ps ∧
            ∀ v, v ∈ pop → ∃ p, p ∈ ps ∧
                 initSeq (shuffle p (customers n)) V cap demand = Ok v) as H.
  { intros Hp. apply H in Hp as [Hlen Hin]. split; [by rewrite Hlen, length_seq|].
    intros v Hv. destruct (Hin v Hv) as (p & Hp%elem_of_seq & Hpv). exists p. split; [lia|done]. }
  clear pop. induction ps as [|p ps IH]; intros pop; simpl.
  { intros [= <-]. split; [done|]. by intros v ?%elem_of_nil. }
  destruct (initSeq _ V cap demand) as [v|] eqn:Hv; simpl; [|done].
  destruct (mapM _ ps) as [vs|] eqn:Hvs; simpl; [|done].
  intros [= <-]. destruct (IH vs eq_refl) as [Hlen Hin]. split; [by rewrite <- Hlen|].
  intros w [->|Hw]%elem_of_cons.
  - exists p. split; [by left|done].
  - destruct (Hin w Hw) as (q & Hq & Hqw). exists q. split; [by right|done].
Qed.

Lemma joinGroups_cons g g' gs : joinGroups (g :: g' :: gs) = g ++ 0 :: joinGroups (g' :: gs).
Proof. done. Qed.

Lemma count_joinGroups x gs :
  count x (joinGroups gs) =
  ((if decide (x = 0%Z) then pred (length gs) else 0) + count x (concat gs))%nat.
Proof.
  induction gs as [|g [|g' gs] IH].
  - by case_decide.
  - simpl. rewrite app_nil_r. by case_decide.
  - rewrite joinGroups_cons, count_app, count_cons, IH.
    change (concat (g :: g' :: gs)) with (g ++ concat (g' :: gs)).
    rewrite count_app. simpl. repeat case_decide; try congruence; lia.
Qed.

Lemma tokens_joinGroups gs : tokens (joinGroups gs) = tokens (concat gs).
Proof.
  induction gs as [|g [|g' gs] IH]; [done | by simpl; rewrite app_nil_r |].
  rewrite joinGroups_cons, tokens_app, tokens_cons, IH, decide_True by done.
  change (concat (g :: g' :: gs)) with (g ++ concat (g' :: gs)).
  by rewrite tokens_app.
Qed.

Lemma length_padGroups gs V : size (padGroups gs V) = Z.max (size gs) V.
Proof. unfold padGroups, size. rewrite length_app, length_replicate. lia. Qed.

Lemma concat_padGroups gs V : concat (padGroups gs V) = concat gs.
Proof.
  unfold padGroups. rewrite concat_app.
  induction (Z.to_nat _) as [|k IH]; simpl; [by rewrite app_nil_r | done].
Qed.

(** The groups of an individual hold the shuffled customers in their order,
    and there are at least [vehicle] of them. *)
Lemma initGroups_spec shuffled V cap demand gs :
  initGroups shuffled V cap demand = Ok gs →
  concat gs = shuffled ∧ V ≤ size gs.
Proof.
  unfold initGroups.
  destruct (pack shuffled demand cap [] [] 0) as [[groups cur]|e] eqn:Hp; simpl; [|done].
  intros [= <-]. apply pack_concat in Hp. simpl in Hp.
  rewrite concat_padGroups, length_padGroups. split; [|lia].
  destruct cur; [by rewrite app_nil_r in Hp|].
  rewrite concat_app. simpl. by rewrite app_nil_r.
Qed.

Lemma pack_in_range custs demand cap groups cur load r :
  pack custs demand cap groups cur load = Ok r →
  Forall (λ c, 0 ≤ c < size demand) custs.
Proof.
  revert groups cur load. induction custs as [|c custs IH]; intros groups cur load; simpl.
  { by constructor. }
  destruct (at_ VDemand demand c) as [d|] eqn:Hd; simpl; [|done].
  apply at_Ok in Hd as [Hc Hd%lookup_lt_Some]. intros H. constructor.
  - unfold size. lia.
  - destruct (to_int (load + d) <=? cap); by eapply IH.
Qed.

Lemma initGroups_Ok shuffled V cap demand n :
  shuffleOf n shuffled → covers demand n →
  ∃ gs, initGroups shuffled V cap demand = Ok gs.
Proof.
  intros Hs Hd. unfold initGroups.
  destruct (pack_Ok shuffled demand cap [] [] 0) as [[groups cur] ->]; simpl; [|by eexists].
  apply Forall_forall. intros c Hc. eapply shuffleOf_elem in Hc; [|done].
  unfold covers in Hd. lia.
Qed.

Lemma initGroups_covers shuffled V cap demand n gs :
  shuffleOf n shuffled → initGroups shuffled V cap demand = Ok gs → covers demand n.
Proof.
  intros Hs. unfold initGroups.
  destruct (pack shuffled demand cap [] [] 0) as [r|] eqn:Hp; simpl; [|done].
  intros _ Hn. apply pack_in_range in Hp.
  assert (n ∈ shuffled) as Hin by (eapply shuffleOf_elem; [done|lia]).
  eapply Forall_forall in Hp; [|done]. lia.
Qed.

(** A generated chromosome: its tokens are the shuffled customers, and it has
    at least [vehicle - 1] separators when there is a vehicle at all. *)
Lemma initSeq_spec shuffled V cap demand n v :
  shuffleOf n shuffled →
  initSeq shuffled V cap demand = Ok v →
  tokens v = shuffled ∧ (1 ≤ V → V - 1 ≤ Z.of_nat (count 0 v)).
Proof.
  intros Hs. unfold initSeq.
  destruct (initGroups shuffled V cap demand) as [gs|e] eqn:Hg; simpl; [|done].
  intros [= <-]. apply initGroups_spec in Hg as [Hc HV].
  pose proof (shuffleOf_nonzero _ _ Hs) as Hnz.
  split.
  - rewrite tokens_joinGroups, Hc. by apply tokens_id.
  - intros H1. rewrite count_joinGroups, decide_True by done. unfold size in HV. lia.
Qed.

(** ** ZeroRepair *)

Lemma erased_refl st : erased st st.
Proof. by repeat split. Qed.

Lemma erased_trans st1 st2 st3 : erased st1 st2 → erased st2 st3 → erased st1 st3.
Proof.
  intros (Ht & Hs & Hz) (Ht' & Hs' & Hz'). repeat split.
  - congruence.
  - by etrans.
  - lia.
Qed.

Lemma stepped_trans need st st1 f :
  erased st st1 → stepped need st1 f → stepped need st f.
Proof.
  intros He. pose proof He as (_ & _ & Hz).
  destruct f as [st'|st']; simpl.
  - intros (Hc & He' & Hlt & Hdec).
    split; [done|]. split; [by eapply erased_trans|]. split; [done|lia].
  - intros (Hc & He' & Heq).
    split; [done|]. split; [by eapply erased_trans|done].
Qed.

Lemma erase_step v zc i :
  counted (v, zc) → v !! i = Some 0 →
  counted (erase i v, zc - 1) ∧ erased (v, zc) (erase i v, zc - 1).
Proof.
  unfold counted, erased. simpl. intros -> Hi. repeat split.
  - rewrite (count_erase i v Hi). lia.
  - by apply tokens_erase.
  - apply erase_sublist.
  - lia.
Qed.

Lemma eraseLeftmost_stepped need st :
  counted st → need < st.2 → stepped need st (eraseLeftmost need st).
Proof.
  destruct st as [v zc]. simpl. intros Hc Hlt. unfold eraseLeftmost.
  destruct (Z.ltb_spec need zc); [|lia].
  destruct (find0 v) as [j|] eqn:Hf.
  - apply find0_Some in Hf. destruct (erase_step v zc j Hc Hf) as [Hc' He].
    destruct (Z.eqb_spec (zc - 1) need); simpl; split_and!; try done; try apply erased_refl; simpl; lia.
  - apply find0_None in Hf. unfold counted in Hc. simpl in Hc.
    destruct (Z.eqb_spec zc need); [lia|]. simpl.
    split_and!; try done; try apply erased_refl; simpl; lia.
Qed.

Lemma forBody_stepped need i st :
  counted st → need < st.2 →
  match forBody need i st with
  | Ok f => stepped need st f
  | Err _ => ¬ (0 ≤ i < size st.1)
  end.
Proof.
  destruct st as [v zc]. simpl. intros Hc Hlt. unfold forBody.
  destruct (at_ VSeq v i) as [x|e] eqn:Hx; simpl.
  2:{ intros Hi. destruct (at_in_range VSeq v i Hi) as [x Hx']. congruence. }
  apply at_Ok in Hx as [Hi Hx].
  assert (Herase : x = 0 →
    match (if zc - 1 =? need then Ok (Break (erase (Z.to_nat i) v, zc - 1))
           else Ok (eraseLeftmost need (erase (Z.to_nat i) v, zc - 1)))
    with Ok f => stepped need (v, zc) f | Err _ => ¬ (0 ≤ i < size v) end).
  { intros ->. destruct (erase_step v zc _ Hc Hx) as [Hc' He].
    destruct (Z.eqb_spec (zc - 1) need); [by split_and!|].
    eapply stepped_trans; [done|]. apply eraseLeftmost_stepped; [done|simpl; lia]. }
  pose proof (eraseLeftmost_stepped need (v, zc) Hc Hlt) as Hleft.
  destruct (Z.eqb_spec x 0) as [Hx0|Hx0]; simpl; [|done].
  destruct ((i =? 0) || (to_size i =? sizeMinus1 v)); simpl; [by apply Herase|].
  destruct (Z.ltb_spec (to_size (i + 1)) (size v)) as [Hi1|Hi1]; simpl; [|done].
  rewrite to_size_nonneg in Hi1 by lia.
  destruct (at_in_range VSeq v (i + 1)) as [y ->]; [lia|]. simpl.
  destruct (y =? 0); [by apply Herase | done].
Qed.

Lemma forLoop_sound k need i st :
  counted st → need < st.2 → 0 ≤ i →
  match forLoop k need i st with
  | Ok st' => counted st' ∧ erased st st' ∧ need ≤ st'.2
  | Err _ => need < 0
  end.
Proof.
  revert i st. induction k as [|k IH]; intros i st Hc Hlt Hi; simpl.
  { split_and!; [done|apply erased_refl|lia]. }
  destruct (Z.ltb_spec (to_size i) (sizeMinus1 st.1)) as [Hlt'|_].
  2:{ split_and!; [done|apply erased_refl|lia]. }
  rewrite to_size_nonneg in Hlt' by done.
  pose proof (forBody_stepped need i st Hc Hlt) as Hb.
  destruct (forBody need i st) as [[st'|st']|e]; simpl in *.
  - destruct Hb as (Hc' & He & Hlt1 & _).
    specialize (IH (i + 1) st' Hc' Hlt1 ltac:(lia)).
    destruct (forLoop k need (i + 1) st'); [|done].
    destruct IH as (? & ? & ?). eauto using erased_trans.
  - destruct Hb as (Hc' & He & ->). split_and!; [done..|lia].
  - destruct st as [[|x v] zc]; cbn [fst snd] in *.
    + unfold counted in Hc. cbn [fst snd] in Hc. rewrite count_nil in Hc. lia.
    + rewrite sizeMinus1_cons in Hlt'. unfold size in *. simpl in Hb. lia.
Qed.

(** A pass that enters the loop erases at least one separator. *)
Lemma forLoop_progress k need i st :
  counted st → need < st.2 → 0 ≤ need → 0 ≤ i → i < sizeMinus1 st.1 →
  ∃ st', forLoop (S k) need i st = Ok st' ∧
         counted st' ∧ erased st st' ∧ need ≤ st'.2 < st.2.
Proof.
  intros Hc Hlt Hn Hi Hlt'. simpl.
  rewrite to_size_nonneg by done.
  destruct (Z.ltb_spec i (sizeMinus1 st.1)); [|lia].
  pose proof (forBody_stepped need i st Hc Hlt) as Hb.
  destruct (forBody need i st) as [[st'|st']|e]; simpl in *.
  - destruct Hb as (Hc' & He & Hlt1 & Hdec).
    pose proof (forLoop_sound k need (i + 1) st' Hc' Hlt1 ltac:(lia)) as Hs.
    destruct (forLoop k need (i + 1) st') as [st''|]; [|lia].
    destruct Hs as (? & He' & ?). exists st''. pose proof He' as (_ & _ & ?).
    split_and!; eauto using erased_trans; lia.
  - destruct Hb as (Hc' & He & Heq). exists st'. split_and!; try done; lia.
  - destruct st as [[|x v] zc]; cbn [fst snd] in *.
    + unfold counted in Hc. cbn [fst snd] in Hc. rewrite count_nil in Hc. lia.
    + rewrite sizeMinus1_cons in Hlt'. unfold size in *. simpl in Hb. lia.
Qed.

(** The bound [k] of [forLoop] is never what stops the loop of [forPass]. *)
Lemma forLoop_bound k j need i st :
  1 ≤ i → size st.1 < Z.of_nat k + i → (st.1 = [] → (1 ≤ k)%nat) →
  forLoop (k + j) need i st = forLoop k need i st.
Proof.
  revert i st. induction k as [|k IH]; intros i [v zc] Hi Hk Hnil; cbn [fst snd] in *.
  - destruct v as [|x v]; [by specialize (Hnil eq_refl); lia|].
    destruct j as [|j]; [done|]. simpl.
    rewrite to_size_nonneg, sizeMinus1_cons by lia. unfold size in *. simpl in Hk.
    destruct (Z.ltb_spec i (Z.of_nat (length v))); [lia|done].
  - simpl. destruct (to_size i <? sizeMinus1 v) eqn:Hlt; [|done].
    destruct (forBody need i (v, zc)) as [[[v' zc']|st']|e] eqn:Hb; simpl; [|done..].
    assert (length v - 2 ≤ length v' ≤ length v)%nat as Hlen.
    { unfold forBody in Hb. destruct (at_ VSeq v i); simpl in Hb; [|done].
      assert (Hleft : ∀ w c, eraseLeftmost need (w, c) = Continue (v', zc') →
                             (length w - 1 ≤ length v' ≤ length w)%nat).
      { intros w c. unfold eraseLeftmost.
        destruct (need <? c); [|intros [= <- <-]; lia].
        destruct (find0 w) as [j'|];
          [destruct (c - 1 =? need)|destruct (c =? need)]; intros [= <- <-];
          try pose proof (length_erase j' w); lia. }
      destruct (_ : res bool) as [[]|]; simpl in Hb; [| |done].
      - destruct (zc - 1 =? need); [done|]. injection Hb as Hb.
        apply Hleft in Hb. pose proof (length_erase (Z.to_nat i) v). lia.
      - injection Hb as Hb. apply Hleft in Hb. lia. }
    apply Z.ltb_lt in Hlt. rewrite to_size_nonneg in Hlt by lia.
    destruct v as [|x v].
    { unfold forBody, at_ in Hb. by destruct (i <? 0). }
    rewrite sizeMinus1_cons in Hlt. unfold size in *. simpl in *.
    apply IH; cbn [fst snd]; unfold size; [lia|lia|].
    intros ->. simpl in Hlen. lia.
Qed.

Lemma forPass_bound j need st :
  forLoop (S (length st.1) + j) need 1 st = forPass need st.
Proof. apply forLoop_bound; [lia|unfold size; lia|lia]. Qed.

Lemma whileLoop_mono fuel fuel' need st r :
  whileLoop fuel need st = Some r → (fuel ≤ fuel')%nat →
  whileLoop fuel' need st = Some r.
Proof.
  revert fuel' st. induction fuel as [|fuel IH]; intros [|fuel'] st; simpl;
    try done; try lia.
  intros H Hle. destruct (need <? st.2); [|done].
  destruct (forPass need st); [|done]. apply IH; [done|lia].
Qed.

(** Whatever the loop returns has the tokens of the input, in their order,
    and exactly [need] separators. *)
Lemma whileLoop_sound fuel need st r :
  counted st → need ≤ st.2 →
  whileLoop fuel need st = Some (Ok r) →
  tokens r = tokens st.1 ∧ r `sublist_of` st.1 ∧ Z.of_nat (count 0 r) = need.
Proof.
  revert st. induction fuel as [|fuel IH]; intros st Hc Hle; simpl; [done|].
  destruct (Z.ltb_spec need st.2) as [Hlt|Hge].
  - pose proof (forLoop_sound (S (length st.1)) need 1 st Hc Hlt ltac:(lia)) as Hs.
    unfold forPass. destruct (forLoop _ _ _ _) as [st'|e]; [|done].
    destruct Hs as (Hc' & (Ht & Hsub & _) & Hle').
    intros H. apply IH in H as (? & ? & ?); [|done..].
    split_and!; [congruence | by etrans | done].
  - intros [= <-]. split_and!; [done..|]. unfold counted in Hc. lia.
Qed.

(** The loop returns when the repaired chromosome has at least two tokens. *)
Lemma whileLoop_terminates need st :
  counted st → 0 ≤ need ≤ st.2 → 2 ≤ size (tokens st.1) + need →
  ∃ r, whileLoop (S (Z.to_nat (st.2 - need))) need st = Some (Ok r).
Proof.
  intros Hc Hn Hlen.
  enough (∀ m st, counted st → need ≤ st.2 → 2 ≤ size (tokens st.1) + need →
                  (Z.to_nat (st.2 - need) ≤ m)%nat →
                  ∃ r, whileLoop (S m) need st = Some (Ok r)) as H.
  { apply H; [done|lia|done|lia]. }
  assert (0 ≤ need) as Hn0 by lia. clear st Hc Hn Hlen.
  induction m as [|m IH]; intros [v zc] Hc Hle Hlen Hm; cbn [fst snd] in *.
  - simpl. destruct (Z.ltb_spec need zc); [lia|]. by eexists.
  - cbn [whileLoop fst snd]. destruct (Z.ltb_spec need zc) as [Hlt|]; [|by eexists].
    assert (3 ≤ size v) as Hv.
    { unfold counted in Hc. simpl in Hc. unfold size in *. rewrite (length_tokens v). lia. }
    unfold forPass. cbn [fst snd].
    destruct (forLoop_progress (length v) need 1 (v, zc)) as (st' & -> & Hc' & He & Hz);
      [done | done | lia | lia | |].
    { cbn [fst]. destruct v; [unfold size in Hv; simpl in Hv; lia|].
      rewrite sizeMinus1_cons. unfold size in *. simpl in Hv. lia. }
    destruct He as (Ht & _ & _). simpl in Ht, Hz.
    apply IH; [done | lia | by rewrite Ht | lia].
Qed.

(** A pass over a chromosome of one or two tokens changes nothing: the [for]
    loop starts at index 1 and stops before the last index. *)
Lemma forPass_short need v zc :
  v ≠ [] → (length v ≤ 2)%nat → forPass need (v, zc) = Ok (v, zc).
Proof.
  intros Hv Hlen. unfold forPass. simpl.
  rewrite sizeMinus1_nonempty by done. unfold size, to_size. simpl.
  destruct (Z.ltb_spec 1 (Z.of_nat (length v) - 1)); [lia|done].
Qed.

(** ... so the [while] loop around it never ends when it has to erase. *)
Lemma whileLoop_short fuel need v zc :
  v ≠ [] → (length v ≤ 2)%nat → need < zc → whileLoop fuel need (v, zc) = None.
Proof.
  intros Hv Hlen Hlt. induction fuel as [|fuel IH]; [done|].
  cbn [whileLoop fst snd]. destruct (Z.ltb_spec need zc); [|lia].
  by rewrite forPass_short.
Qed.

(** [repairZero]: what it returns, and when it returns. *)
Lemma repairZero_sound fuel v V r :
  V - 1 ≤ Z.of_nat (count 0 v) →
  repairZero fuel v V = Some (Ok r) →
  tokens r = tokens v ∧ r `sublist_of` v ∧ Z.of_nat (count 0 r) = V - 1.
Proof. intros Hle H. by apply whileLoop_sound in H. Qed.

Lemma repairZero_terminates v V :
  1 ≤ V → V - 1 ≤ Z.of_nat (count 0 v) → 2 ≤ size (tokens v) + (V - 1) →
  ∃ fuel r, repairZero fuel v V = Some (Ok r).
Proof.
  intros HV Hle Hlen. eexists. apply whileLoop_terminates; [done|simpl; lia|done].
Qed.

Lemma repairZero_done fuel v V :
  Z.of_nat (count 0 v) = V - 1 → repairZero (S fuel) v V = Some (Ok v).
Proof.
  intros H. unfold repairZero. simpl. rewrite H.
  destruct (Z.ltb_spec (V - 1) (V - 1)); [lia|done].
Qed.

(** ** CustomerRepair *)

Lemma size_insert {A} i (x : A) v : size (<[i:=x]> v) = size v.
Proof. unfold size. by rewrite length_insert. Qed.

(** The counting loop adds to [cnt] the occurrences of every token. *)
Lemma countLoop_spec v cnt :
  Forall (λ x, x ≠ 0 → 0 ≤ x < size cnt) v →
  ∃ cnt', countLoop v cnt = Ok cnt' ∧ size cnt' = size cnt ∧
    ∀ x, 0 < x →
      cnt' !! Z.to_nat x = (λ c, c + Z.of_nat (count x v)) <$> cnt !! Z.to_nat x.
Proof.
  intros H. revert cnt H. induction v as [|y v IH]; intros cnt H; simpl.
  { exists cnt. split_and!; [done..|]. intros x _. rewrite count_nil.
    destruct (cnt !! Z.to_nat x); simpl; [f_equal; lia|done]. }
  apply Forall_cons in H as [Hy Hv].
  destruct (Z.eqb_spec y 0) as [->|Hy0].
  { destruct (IH cnt Hv) as (cnt' & -> & Hs & Hc). exists cnt'. split_and!; [done..|].
    intros x Hx. rewrite Hc, count_cons, decide_False by lia. done. }
  specialize (Hy Hy0).
  destruct (at_in_range VCount cnt y Hy) as [c Hc]. rewrite Hc. simpl.
  apply at_Ok in Hc as [_ Hc].
  destruct (IH (<[Z.to_nat y:=c + 1]> cnt)) as (cnt' & -> & Hs & Hc').
  { by rewrite size_insert. }
  exists cnt'. rewrite size_insert in Hs. split_and!; [done..|].
  intros x Hx. rewrite Hc', count_cons by done. case_decide as Hxy.
  - subst x. rewrite list_lookup_insert_eq, Hc by (by eapply lookup_lt_Some).
    simpl. f_equal. lia.
  - rewrite list_lookup_insert_ne by lia. done.
Qed.

(** With no id counted twice the replacement loop has nothing to replace,
    whatever [missing] holds, and reads nothing from it. *)
Lemma replaceLoop_id v cnt missing idx :
  (∀ x, x ∈ v → x ≠ 0 → ∃ c, at_ VCount cnt x = Ok c ∧ c ≤ 1) →
  replaceLoop v cnt missing idx = Ok (v, cnt).
Proof.
  induction v as [|x v IH]; intros H; simpl; [done|].
  rewrite IH by (intros; apply H; [by right|done]).
  destruct (Z.eqb_spec x 0) as [->|Hx]; simpl; [done|].
  destruct (H x) as (c & -> & Hc); [by left|done|]. simpl.
  destruct (Z.ltb_spec 1 c); [lia|done].
Qed.

Lemma missingLoop_id ids v cnt missing :
  Forall (λ i, 0 ≤ i < size cnt) ids →
  (∀ x, x ∈ v → x ≠ 0 → ∃ c, at_ VCount cnt x = Ok c ∧ c ≤ 1) →
  missingLoop ids v cnt missing = Ok v.
Proof.
  intros Hids Hv. revert missing.
  induction Hids as [|i ids Hi _ IH]; intros missing; simpl; [done|].
  destruct (at_in_range VCount cnt i Hi) as [c ->]. simpl.
  rewrite replaceLoop_id by done. simpl. apply IH.
Qed.

(** A chromosome whose tokens are ids of [1..n], none of them twice, is left
    as it is, and no vector is read out of range. *)
Lemma repairCustomer_id v n :
  -1 ≤ n → Forall (λ x, 0 < x ≤ n) (tokens v) → NoDup (tokens v) →
  repairCustomer v n = Ok v.
Proof.
  intros Hn Hv Hnd. unfold repairCustomer.
  destruct (Z.ltb_spec (n + 1) 0); [lia|].
  set (cnt0 := replicate (Z.to_nat (n + 1)) 0).
  assert (size cnt0 = n + 1) as Hs0.
  { unfold size, cnt0. rewrite length_replicate. lia. }
  assert (∀ x, x ∈ v → x ≠ 0 → 0 < x ≤ n) as Hv'.
  { intros x Hx Hx0. eapply Forall_forall in Hv; [done|]. by apply list_elem_of_filter. }
  destruct (countLoop_spec v cnt0) as (cnt & -> & Hs & Hc).
  { apply Forall_forall. intros x Hx Hx0. specialize (Hv' x Hx Hx0). lia. }
  simpl. apply missingLoop_id.
  - apply Forall_forall. intros i Hi%elem_of_seqZ. lia.
  - intros x Hx Hx0. specialize (Hv' x Hx Hx0).
    assert (0 < x) as Hpos by lia. specialize (Hc x Hpos).
    unfold cnt0 in Hc. rewrite lookup_replicate_2 in Hc by lia. simpl in Hc.
    exists (Z.of_nat (count x v)). split; [apply at_Ok; split; [lia|done]|].
    rewrite <- count_tokens by done. rewrite count_NoDup; [lia|done|].
    apply list_elem_of_filter. done.
Qed.

Lemma separators_count v w : separators v = separators w → count 0 v = count 0 w.
Proof.
  revert w. induction v as [|x v IH]; intros [|y w]; try done.
  intros [= Hxy Hvw]. rewrite !count_cons, (IH w Hvw).
  destruct (Z.eqb_spec x 0), (Z.eqb_spec y 0); repeat case_decide; done.
Qed.

(** A replaced token is never a separator and its replacement, an id of
    [missing], is not one either. *)
Lemma replaceLoop_separators v cnt missing idx v' cnt' :
  Forall (λ x, x ≠ 0) missing →
  replaceLoop v cnt missing idx = Ok (v', cnt') →
  separators v' = separators v.
Proof.
  intros Hm. revert cnt idx v' cnt'.
  induction v as [|x v IH]; intros cnt idx v' cnt'; simpl; [by intros [= <- <-]|].
  destruct (_ : res bool) as [dup|e] eqn:Hdup; simpl; [|done].
  assert (dup = true → x ≠ 0) as Hx.
  { intros ->. destruct (Z.eqb_spec x 0); [done|lia]. }
  destruct dup.
  - destruct (at_ VMissing missing idx) as [m|] eqn:Hmi; simpl; [|done].
    destruct (at_ VCount cnt m) as [c|]; simpl; [|done].
    assert (m ≠ 0) as Hm0.
    { apply at_Ok in Hmi as [_ Hmi]. eapply Forall_forall in Hm; [done|].
      by eapply list_elem_of_lookup_2. }
    assert ((m =? 0) = (x =? 0)) as Hmx.
    { destruct (Z.eqb_spec m 0), (Z.eqb_spec x 0); try done; by destruct Hx. }
    destruct (size missing <=? to_size (idx + 1)).
    + intros [= <- <-]. simpl. by rewrite Hmx.
    + destruct (replaceLoop v _ missing (idx + 1)) as [[rest cnt1]|] eqn:Hr; simpl; [|done].
      intros [= <- <-]. simpl. rewrite Hmx. f_equal. by eapply IH.
  - destruct (replaceLoop v cnt missing idx) as [[rest cnt1]|] eqn:Hr; simpl; [|done].
    intros [= <- <-]. simpl. f_equal. by eapply IH.
Qed.

Lemma missingLoop_separators ids v cnt missing r :
  Forall (λ x, x ≠ 0) ids → Forall (λ x, x ≠ 0) missing →
  missingLoop ids v cnt missing = Ok r →
  separators r = separators v.
Proof.
  intros Hids. revert v cnt missing.
  induction Hids as [|i ids Hi _ IH]; intros v cnt missing Hm; simpl; [by intros [= <-]|].
  destruct (at_ VCount cnt i) as [c|]; simpl; [|done].
  set (missing' := if c =? 0 then missing ++ [i] else missing).
  assert (Forall (λ x, x ≠ 0) missing') as Hm'.
  { unfold missing'. destruct (c =? 0); [|done]. apply Forall_app. by repeat constructor. }
  destruct (replaceLoop v cnt missing' 0) as [[v1 cnt1]|] eqn:Hr; simpl; [|done].
  intros H. apply IH in H; [|done]. rewrite H. by eapply replaceLoop_separators.
Qed.

(** [repairCustomer] never turns a separator into a customer or a customer
    into a separator. *)
Lemma repairCustomer_separators v n r :
  repairCustomer v n = Ok r → separators r = separators v.
Proof.
  unfold repairCustomer. destruct (n + 1 <? 0); [done|].
  destruct (countLoop v _) as [cnt|]; simpl; [|done].
  apply missingLoop_separators; [|done].
  apply Forall_forall. intros i Hi%elem_of_seqZ. lia.
Qed.

(** ** The pipeline: generate, [repairZero], [repairCustomer] *)

Lemma initSeq_Ok shuffled V cap demand n :
  shuffleOf n shuffled → covers demand n →
  ∃ v, initSeq shuffled V cap demand = Ok v.
Proof.
  intros Hs Hd. unfold initSeq.
  destruct (initGroups_Ok shuffled V cap demand n Hs Hd) as [gs ->]. by eexists.
Qed.

(** A generated chromosome is at the target already, or is long enough for
    [repairZero] to reach it, unless the instance is [stuck]. *)
Lemma initSeq_target shuffled V n cap demand v :
  shuffleOf n shuffled → 1 ≤ V → ¬ stuck n V cap demand →
  initSeq shuffled V cap demand = Ok v →
  Z.of_nat (count 0 v) = V - 1 ∨ 2 ≤ size (tokens v) + (V - 1).
Proof.
  intros Hs HV Hstuck Hv.
  destruct (initSeq_spec _ _ _ _ _ _ Hs Hv) as [Ht _].
  pose proof (shuffleOf_length _ _ Hs) as Hlen.
  destruct (decide (n ≤ 1)) as [Hn|Hn].
  { left. destruct shuffled; [|simpl in Hlen; lia].
    revert Hv. unfold initSeq, initGroups. simpl.
    intros [= <-]. rewrite count_joinGroups, decide_True, concat_padGroups by done.
    pose proof (length_padGroups [] V) as Hp. unfold size in Hp. simpl in *.
    rewrite count_nil. lia. }
  destruct (decide (4 ≤ n + V)) as [|Hsmall].
  { right. rewrite Ht. unfold size. lia. }
  left. assert (n = 2 ∧ V = 1) as [-> ->] by lia.
  unfold shuffleOf in Hs. change (customers 2) with [2] in Hs.
  apply Permutation_singleton_r in Hs as ->.
  revert Hv. unfold initSeq, initGroups. simpl.
  destruct (at_ VDemand demand 2) as [d|] eqn:Hd; simpl; [|done].
  apply at_Ok in Hd as [_ Hd].
  rewrite Z.add_0_l. destruct (Z.leb_spec (to_int d) cap) as [|Hcap]; simpl.
  - by intros [= <-].
  - destruct Hstuck. split_and!; [done..|]. exists d. split; [done|lia].
Qed.

Lemma generateSeq_sound fuel shuffled V n cap demand r :
  shuffleOf n shuffled →
  generateSeq fuel shuffled V n cap demand = Some (Ok r) →
  ∃ v, initSeq shuffled V cap demand = Ok v ∧
       repairZero fuel v V = Some (Ok r) ∧ repairCustomer r n = Ok r ∧
       tokens r = shuffled ∧ Z.of_nat (count 0 r) = V - 1.
Proof.
  intros Hs. unfold generateSeq, repairSeq.
  destruct (initSeq shuffled V cap demand) as [v|] eqn:Hv; [|done].
  destruct (repairZero fuel v V) as [[v1|]|] eqn:Hz; [|done..].
  intros [= Hr]. exists v.
  destruct (initSeq_spec _ _ _ _ _ _ Hs Hv) as [Ht Hc].
  apply repairZero_sound in Hz as Hz'; [|lia].
  destruct Hz' as (Ht1 & _ & Hc1).
  assert (repairCustomer v1 n = Ok v1) as Hid.
  { assert (-1 ≤ n).
    { unfold repairCustomer in Hr. destruct (Z.ltb_spec (n + 1) 0); [done|lia]. }
    apply repairCustomer_id; [done| |]; rewrite Ht1, Ht.
    - apply Forall_forall. intros x Hx. eapply shuffleOf_elem in Hx; [|done]. lia.
    - by eapply shuffleOf_NoDup. }
  assert (r = v1) as -> by congruence.
  split_and!; try done. congruence.
Qed.

Lemma generateSeq_terminates shuffled V n cap demand :
  shuffleOf n shuffled → covers demand n →
  0 ≤ n + 1 → 1 ≤ V → ¬ stuck n V cap demand →
  ∃ fuel r, generateSeq fuel shuffled V n cap demand = Some (Ok r).
Proof.
  intros Hs Hd Hn HV Hstuck.
  destruct (initSeq_Ok shuffled V cap demand n Hs Hd) as [v Hv].
  destruct (initSeq_spec _ _ _ _ _ _ Hs Hv) as [Ht Hc].
  assert (∃ fuel v1, repairZero fuel v V = Some (Ok v1)) as (fuel & v1 & Hz).
  { destruct (initSeq_target _ _ _ _ _ _ Hs HV Hstuck Hv) as [Heq|Hlong].
    - exists 1%nat, v. by apply repairZero_done.
    - apply repairZero_terminates; [done|lia|done]. }
  exists fuel, v1. unfold generateSeq, repairSeq. rewrite Hv, Hz. f_equal.
  apply repairZero_sound in Hz as (Ht1 & _ & _); [|lia].
  apply repairCustomer_id; [lia| |]; rewrite Ht1, Ht.
  - apply Forall_forall. intros x Hx. eapply shuffleOf_elem in Hx; [|done]. lia.
  - by eapply shuffleOf_NoDup.
Qed.

(** On a [stuck] instance the pipeline does not return. *)
Lemma generateSeq_stuck fuel V n cap demand :
  stuck n V cap demand → generateSeq fuel [2] V n cap demand = None.
Proof.
  intros (-> & -> & d & Hd & Hcap). unfold generateSeq, initSeq, initGroups. simpl.
  assert (at_ VDemand demand 2 = Ok d) as -> by (by apply at_Ok).
  simpl. rewrite Z.add_0_l. destruct (Z.leb_spec (to_int d) cap); [lia|]. simpl.
  unfold repairSeq, repairZero. by rewrite whileLoop_short.
Qed.

(** The pipeline returns a chromosome on exactly these instances. *)
Lemma generateSeq_returns_iff shuffled V n cap demand :
  shuffleOf n shuffled →
  (∃ fuel r, generateSeq fuel shuffled V n cap demand = Some (Ok r)) ↔
  covers demand n ∧ 0 ≤ n + 1 ∧ 1 ≤ V ∧ ¬ stuck n V cap demand.
Proof.
  intros Hs. split.
  - intros (fuel & r & Hr).
    destruct (generateSeq_sound _ _ _ _ _ _ _ Hs Hr) as (v & Hv & _ & Hc & _ & Hz).
    split_and!.
    + unfold initSeq in Hv.
      destruct (initGroups shuffled V cap demand) as [gs|] eqn:Hg; [|done].
      by eapply initGroups_covers.
    + unfold repairCustomer in Hc. destruct (Z.ltb_spec (n + 1) 0); [done|lia].
    + lia.
    + intros Hstuck. pose proof Hstuck as (-> & _).
      unfold shuffleOf in Hs. change (customers 2) with [2] in Hs.
      apply Permutation_singleton_r in Hs as ->.
      by rewrite generateSeq_stuck in Hr.
  - intros (Hd & Hn & HV & Hstuck). by apply generateSeq_terminates.
Qed.

Lemma remove_dups_NoDup (l : list Z) : NoDup l → remove_dups l = l.
Proof.
  induction 1 as [|x l Hx _ IH]; simpl; [done|].
  destruct (decide_rel elem_of x l); [done|by rewrite IH].
Qed.

Lemma duplicateSlots_NoDup v : NoDup (tokens v) → duplicateSlots v = O.
Proof. intros H. unfold duplicateSlots. rewrite remove_dups_NoDup by done. lia. Qed.

Lemma missingIds_nil v n : (∀ c, 2 ≤ c ≤ n → c ∈ v) → missingIds v n = [].
Proof.
  intros H. unfold missingIds.
  assert (Forall (λ c, c ∈ v) (customers n)) as Hall.
  { apply Forall_forall. intros c Hc%elem_of_customers. by apply H. }
  induction Hall as [|c l Hc _ IH]; [done|].
  rewrite filter_cons_False by tauto. done.
Qed.

(** ** ZeroRepair: the order of the removals *)

Lemma find0_cons x v :
  find0 (x :: v) = if decide (x = 0) then Some O else S <$> find0 v.
Proof.
  unfold find0. simpl. case_decide; [done|].
  by destruct (list_find _ v) as [[i y]|].
Qed.

(** The leftmost erasure of the code is [removeLeftmost]. *)
Lemma removeLeftmost_find0 v :
  removeLeftmost v = match find0 v with Some j => erase j v | None => v end.
Proof.
  induction v as [|x v IH]; [done|]. simpl. rewrite find0_cons.
  destruct (Z.eqb_spec x 0); case_decide; try done.
  rewrite IH. by destruct (find0 v).
Qed.

Lemma adjacentZeros_cons x v : adjacentZeros (x :: v) = false → adjacentZeros v = false.
Proof. destruct v as [|y v]; [done|]. simpl. by intros [_ ?]%orb_false_iff. Qed.

Lemma adjacentZeros_lookup v i :
  adjacentZeros v = false → v !! i = Some 0 → v !! S i = Some 0 → False.
Proof.
  revert i. induction v as [|x v IH]; intros i Hv; [done|].
  destruct i as [|i]; simpl.
  - destruct v as [|y v]; [done|]. simpl in *. intros [= ->] [= ->]. done.
  - apply IH. by eapply adjacentZeros_cons.
Qed.

Lemma adjacentZeros_removeLeftmost v :
  adjacentZeros v = false → adjacentZeros (removeLeftmost v) = false.
Proof.
  induction v as [|x v IH]; [done|]. intros Hv. simpl.
  pose proof (adjacentZeros_cons _ _ Hv) as Hv'.
  destruct (Z.eqb_spec x 0) as [|Hx]; [done|].
  specialize (IH Hv'). destruct (removeLeftmost v) as [|y w] eqn:Hw; [done|].
  change ((x =? 0) && (y =? 0) || adjacentZeros (y :: w) = false).
  rewrite IH. by destruct (Z.eqb_spec x 0).
Qed.

Lemma removeAdjacent_None v : adjacentZeros v = false → removeAdjacent v = None.
Proof.
  induction v as [|x v IH]; [done|]. intros Hv.
  pose proof (adjacentZeros_cons _ _ Hv) as Hv'.
  destruct v as [|y v]; [done|]. simpl in *.
  apply orb_false_iff in Hv as [-> _]. by rewrite IH.
Qed.

Lemma zeroRepairSpec_leftmost v V :
  adjacentZeros v = false →
  zeroRepairSpec v V =
  Nat.iter (Z.to_nat (Z.of_nat (count 0 v) - (V - 1))) removeLeftmost v.
Proof.
  intros Hv. unfold zeroRepairSpec.
  destruct (Z.to_nat _) as [|k]; [done|]. simpl. by rewrite removeAdjacent_None.
Qed.

(** Where no two separators are adjacent, an iteration of the [for] loop is
    the leftmost erasure alone. *)
Lemma forBody_noadj need i v zc :
  adjacentZeros v = false → 1 ≤ i → i < sizeMinus1 v → v ≠ [] →
  forBody need i (v, zc) = Ok (eraseLeftmost need (v, zc)).
Proof.
  intros Hv Hi Hlt Hne. unfold forBody.
  rewrite sizeMinus1_nonempty in Hlt by done.
  destruct (at_in_range VSeq v i) as [x Hx]; [lia|]. rewrite Hx. simpl.
  destruct (Z.eqb_spec x 0) as [->|]; simpl; [|done].
  destruct (Z.eqb_spec i 0); [lia|]. rewrite to_size_nonneg by lia.
  rewrite sizeMinus1_nonempty by done.
  destruct (Z.eqb_spec i (size v - 1)); [lia|]. simpl.
  rewrite to_size_nonneg by lia. destruct (Z.ltb_spec (i + 1) (size v)); [|lia].
  destruct (at_in_range VSeq v (i + 1)) as [y Hy]; [lia|]. rewrite Hy. simpl.
  destruct (Z.eqb_spec y 0) as [->|]; [|done]. exfalso.
  apply at_Ok in Hx as [_ Hx]. apply at_Ok in Hy as [_ Hy].
  replace (Z.to_nat (i + 1)) with (S (Z.to_nat i)) in Hy by lia.
  exact (adjacentZeros_lookup v _ Hv Hx Hy).
Qed.

Lemma eraseLeftmost_removeLeftmost need v zc :
  counted (v, zc) → 0 ≤ need < zc →
  eraseLeftmost need (v, zc) =
  (if zc - 1 =? need then Break else Continue) (removeLeftmost v, zc - 1).
Proof.
  intros Hc Hn. unfold eraseLeftmost. destruct (Z.ltb_spec need zc); [|lia].
  rewrite removeLeftmost_find0. destruct (find0 v) eqn:Hf.
  - by destruct (zc - 1 =? need).
  - apply find0_None in Hf. unfold counted in Hc. simpl in Hc. lia.
Qed.

Lemma counted_removeLeftmost v zc :
  counted (v, zc) → 0 < zc → counted (removeLeftmost v, zc - 1).
Proof.
  intros Hc Hz. rewrite removeLeftmost_find0. destruct (find0 v) eqn:Hf.
  - apply find0_Some in Hf. by apply erase_step.
  - apply find0_None in Hf. unfold counted in Hc. simpl in Hc. lia.
Qed.

Lemma adjacentZeros_iter m v :
  adjacentZeros v = false → adjacentZeros (Nat.iter m removeLeftmost v) = false.
Proof. intros Hv. induction m; [done|]. simpl. by apply adjacentZeros_removeLeftmost. Qed.

Lemma forLoop_noadj k need i v zc :
  adjacentZeros v = false → counted (v, zc) → 0 ≤ need < zc → 1 ≤ i →
  ∃ m : nat, Z.of_nat m ≤ zc - need ∧
    forLoop k need i (v, zc) = Ok (Nat.iter m removeLeftmost v, zc - Z.of_nat m).
Proof.
  revert i v zc. induction k as [|k IH]; intros i v zc Hv Hc Hn Hi.
  { exists O. split; [lia|]. simpl. do 2 f_equal. lia. }
  cbn [forLoop fst]. destruct (Z.ltb_spec (to_size i) (sizeMinus1 v)) as [Hlt|].
  2:{ exists O. split; [lia|]. simpl. do 2 f_equal. lia. }
  rewrite to_size_nonneg in Hlt by lia.
  assert (v ≠ []) as Hne.
  { intros ->. unfold counted in Hc. simpl in Hc. rewrite count_nil in Hc. lia. }
  rewrite forBody_noadj, eraseLeftmost_removeLeftmost by done. simpl.
  destruct (Z.eqb_spec (zc - 1) need) as [Heq|Hneq]; simpl.
  { exists 1%nat. split; [lia|]. simpl. do 2 f_equal. }
  destruct (IH (i + 1) (removeLeftmost v) (zc - 1)) as (m & Hm & ->);
    [by apply adjacentZeros_removeLeftmost | apply counted_removeLeftmost; [done|lia]
    | lia | lia |].
  exists (S m). split; [lia|]. rewrite Nat.iter_succ_r. do 2 f_equal. lia.
Qed.

(** Without adjacent separators [repairZero] erases the leftmost surplus
    separators. *)
Lemma whileLoop_noadj fuel need v zc r :
  adjacentZeros v = false → counted (v, zc) → 0 ≤ need ≤ zc →
  whileLoop fuel need (v, zc) = Some (Ok r) →
  r = Nat.iter (Z.to_nat (zc - need)) removeLeftmost v.
Proof.
  revert v zc. induction fuel as [|fuel IH]; intros v zc Hv Hc Hn; [done|].
  cbn [whileLoop fst snd]. destruct (Z.ltb_spec need zc) as [Hlt|].
  - unfold forPass. cbn [fst].
    destruct (forLoop_noadj (S (length v)) need 1 v zc) as (m & Hm & Hl);
      [done | done | lia | lia |].
    pose proof (forLoop_sound (S (length v)) need 1 (v, zc) Hc Hlt ltac:(lia)) as Hs.
    rewrite Hl in *. destruct Hs as (Hc' & _ & _).
    intros H. apply IH in H; [|by apply adjacentZeros_iter|done|lia].
    rewrite H, <- Nat.iter_add. f_equal. lia.
  - intros [= <-]. by replace (Z.to_nat (zc - need)) with O by lia.
Qed.

Lemma repairZero_noadj fuel v V r :
  adjacentZeros v = false → 1 ≤ V → V - 1 ≤ Z.of_nat (count 0 v) →
  repairZero fuel v V = Some (Ok r) → r = zeroRepairSpec v V.
Proof.
  intros Hv HV Hle H. rewrite zeroRepairSpec_leftmost by done.
  by apply whileLoop_noadj in H; [|done|done|lia].
Qed.

(** With one separator too many and a customer at index 1, the first
    iteration of the [for] loop erases the leftmost separator and both loops
    end there, whether separators are adjacent or not. *)
Lemma repairZero_one_surplus fuel x y v V :
  y ≠ 0 → v ≠ [] → 1 ≤ V → Z.of_nat (count 0 (x :: y :: v)) = V →
  repairZero (S (S fuel)) (x :: y :: v) V = Some (Ok (removeLeftmost (x :: y :: v))).
Proof.
  intros Hy Hv HV Hc. unfold repairZero. rewrite Hc.
  cbn [whileLoop fst snd]. destruct (Z.ltb_spec (V - 1) V); [|lia].
  unfold forPass. cbn [fst length forLoop].
  rewrite sizeMinus1_nonempty, to_size_nonneg by (done || lia).
  assert (2 ≤ size (x :: y :: v) - 1) as Hsize.
  { unfold size. destruct v; [done|]. simpl length. lia. }
  destruct (Z.ltb_spec 1 (size (x :: y :: v) - 1)); [|lia].
  assert (forBody (V - 1) 1 (x :: y :: v, V)
          = Ok (Break (removeLeftmost (x :: y :: v), V - 1))) as ->.
  { unfold forBody. change (at_ VSeq (x :: y :: v) 1) with (Ok y). cbn [mbind res_bind].
    destruct (Z.eqb_spec y 0); [done|]. cbn [mbind res_bind].
    rewrite eraseLeftmost_removeLeftmost; [|done|lia].
    by rewrite Z.eqb_refl. }
  cbn [mbind res_bind fst snd]. destruct (Z.ltb_spec (V - 1) (V - 1)); [lia|done].
Qed.

(** ** SequenceGenerator: where the separators are *)

Lemma head_joinGroups gs :
  Forall (Forall (λ x, x ≠ 0)) gs →
  head (joinGroups gs) = Some 0 ↔ (2 ≤ length gs)%nat ∧ head gs = Some [].
Proof.
  intros Hgs. destruct gs as [|g [|g' gs]].
  - simpl. split; [done|]. intros [? _]. lia.
  - apply Forall_cons in Hgs as [Hg _]. simpl. split; [|intros [? _]; lia].
    destruct Hg as [|x g Hx _]; [done|]. simpl. by intros [= ->].
  - apply Forall_cons in Hgs as [Hg _]. rewrite joinGroups_cons.
    destruct Hg as [|x g Hx _]; simpl.
    + split; [intros _; split; [lia|done] | done].
    + split; [by intros [= ->] | by intros [_ [=]]].
Qed.

Lemma last_joinGroups gs :
  Forall (Forall (λ x, x ≠ 0)) gs →
  last (joinGroups gs) = Some 0 ↔ (2 ≤ length gs)%nat ∧ last gs = Some [].
Proof.
  intros Hgs. induction gs as [|g [|g' gs] IH].
  - simpl. split; [done|]. intros [? _]. lia.
  - apply Forall_cons in Hgs as [Hg _]. simpl. split; [|intros [? _]; lia].
    intros H. apply last_Some_elem_of in H. by eapply Forall_forall in Hg.
  - apply Forall_cons in Hgs as [_ Hgs]. specialize (IH Hgs).
    rewrite joinGroups_cons, last_app_cons, last_cons_cons.
    destruct gs as [|g'' gs].
    + apply Forall_cons in Hgs as [Hg' _].
      change (joinGroups [g']) with g'. rewrite last_cons, last_singleton.
      destruct (last g') as [z|] eqn:Hl.
      * split.
        -- intros [= ->]. apply last_Some_elem_of in Hl. by eapply Forall_forall in Hg'.
        -- intros [_ [= ->]]. done.
      * apply last_None in Hl as ->. split; [intros _; split; [simpl; lia|done] | done].
    + rewrite last_cons. destruct (last (joinGroups (g' :: g'' :: gs))) as [z|] eqn:Hl.
      * rewrite IH. simpl. split; intros [? ?]; (split; [lia|done]).
      * apply last_None in Hl. rewrite joinGroups_cons in Hl. by destruct g'.
Qed.

(** ** Decoder *)

Lemma decodeLoop_routes v depot routes cur :
  decodeLoop v depot routes cur =
  (routes ++ (decodeLoop v depot [] cur).1, (decodeLoop v depot [] cur).2).
Proof.
  revert routes cur. induction v as [|x v IH]; intros routes cur; simpl.
  { by rewrite app_nil_r. }
  destruct (x =? 0); [|apply IH].
  rewrite IH, (IH [_]). simpl. by rewrite <- app_assoc.
Qed.

Lemma decodeLoop_app a b depot routes cur :
  decodeLoop (a ++ b) depot routes cur =
  decodeLoop b depot (decodeLoop a depot routes cur).1 (decodeLoop a depot routes cur).2.
Proof.
  revert routes cur. induction a as [|x a IH]; intros routes cur; simpl; [done|].
  destruct (x =? 0); apply IH.
Qed.

Lemma decodeLoop_customers g depot routes cur :
  Forall (λ x, x ≠ 0) g → decodeLoop g depot routes cur = (routes, cur ++ g).
Proof.
  intros Hg. revert cur. induction Hg as [|x g Hx _ IH]; intros cur; simpl.
  { by rewrite app_nil_r. }
  destruct (Z.eqb_spec x 0); [done|]. by rewrite IH, <- app_assoc.
Qed.

(** The two equations of the decoder: a part closed by a separator is a
    route, even when it is empty; the part after the last separator is a
    route unless it is empty. *)
Lemma decodeSeq_separator g rest depot :
  Forall (λ x, x ≠ 0) g →
  decodeSeq (g ++ 0 :: rest) depot = (depot :: g ++ [depot]) :: decodeSeq rest depot.
Proof.
  intros Hg. unfold decodeSeq.
  rewrite decodeLoop_app, (decodeLoop_customers g) by done. simpl.
  rewrite decodeLoop_routes. destruct (decodeLoop rest depot [] [depot]) as [r c].
  simpl. by destruct (1 <? size c).
Qed.

Lemma decodeSeq_customers g depot :
  Forall (λ x, x ≠ 0) g →
  decodeSeq g depot = match g with [] => [] | _ => [depot :: g ++ [depot]] end.
Proof.
  intros Hg. unfold decodeSeq. rewrite decodeLoop_customers by done.
  destruct g as [|x g]; [done|]. unfold size. rewrite length_app. simpl.
  destruct (Z.ltb_spec 1 (Z.of_nat (S (S (length g))))); [done|lia].
Qed.

Lemma interior_route depot depot' g : interior (depot :: g ++ [depot']) = g.
Proof.
  unfold interior. simpl. rewrite length_app. simpl.
  replace (length g + 1 - 0)%nat with (S (length g)) by lia. simpl.
  by rewrite take_app_length.
Qed.

Lemma trailingEmpty_customers g :
  Forall (λ x, x ≠ 0) g →
  trailingEmpty g = match g with [] => true | _ => false end.
Proof.
  intros Hg. unfold trailingEmpty. destruct (last g) as [x|] eqn:Hl.
  - destruct g; [done|]. apply last_Some_elem_of in Hl.
    eapply Forall_forall in Hg; [|done]. by destruct (Z.eqb_spec x 0).
  - by apply last_None in Hl as ->.
Qed.

Lemma trailingEmpty_separator g rest :
  trailingEmpty (g ++ 0 :: rest) = trailingEmpty rest.
Proof.
  unfold trailingEmpty. rewrite last_app_cons, last_cons. by destruct (last rest).
Qed.

Lemma count0_customers g : Forall (λ x, x ≠ 0) g → count 0 g = O.
Proof. intros Hg. apply count_zero_iff. intros H. by eapply Forall_forall in Hg. Qed.

(** The routes of a chromosome are as many as its separators, and one more
    unless the part after the last separator is empty; their interiors,
    with the empty trailing part put back, joined by separators, are the
    chromosome. *)
Lemma decodeSeq_inverse depot v :
  length (decodeSeq v depot) =
    (count 0 v + (if trailingEmpty v then 0 else 1))%nat ∧
  joinGroups ((interior <$> decodeSeq v depot)
              ++ (if trailingEmpty v then [[]] else [])) = v.
Proof.
  enough (∀ g, Forall (λ x, x ≠ 0) g →
            length (decodeSeq (g ++ v) depot) =
              (count 0 (g ++ v) + (if trailingEmpty (g ++ v) then 0 else 1))%nat ∧
            joinGroups ((interior <$> decodeSeq (g ++ v) depot)
                        ++ (if trailingEmpty (g ++ v) then [[]] else [])) = g ++ v)
    as H by apply (H [] (Forall_nil_2 _)).
  induction v as [|x v IH]; intros g Hg.
  - rewrite app_nil_r, decodeSeq_customers, trailingEmpty_customers, count0_customers by done.
    destruct g as [|y g]; [done|]. split; [simpl; lia|].
    rewrite app_nil_r. simpl. f_equal. apply (interior_route depot depot (y :: g)).
  - destruct (decide (x = 0)) as [->|Hx].
    + rewrite decodeSeq_separator, trailingEmpty_separator by done.
      destruct (IH [] (Forall_nil_2 _)) as [Hlen Hjoin]. simpl in Hlen, Hjoin.
      rewrite count_app, count_cons, count0_customers, decide_True by done.
      split; [simpl; lia|].
      rewrite fmap_cons, interior_route. simpl.
      destruct (_ ++ _) as [|g' gs] eqn:Hgs.
      * apply (f_equal length) in Hgs. rewrite length_app, length_fmap, Hlen in Hgs.
        destruct (trailingEmpty v); simpl in Hgs; lia.
      * by rewrite Hjoin.
    + replace (g ++ x :: v) with ((g ++ [x]) ++ v) by (by rewrite <- app_assoc).
      apply IH. apply Forall_app. by repeat constructor.
Qed.

(** ** Evaluator: degenerate routes *)

Lemma sub_diag x : finite x = true → (x - x)%float = 0%float.
Proof.
  intros Hx. apply Prim2SF_inj. rewrite sub_spec. unfold finite in Hx.
  destruct (Prim2SF x) as [s|s| |s m e]; try done.
  - by destruct s.
  - unfold SF64sub, SFsub. rewrite Z.min_id. unfold shl_align.
    rewrite !Z.sub_diag. reflexivity.
Qed.

Lemma euclidDist_diag x y :
  finite x = true → finite y = true → euclidDist x y x y = 0%float.
Proof. intros Hx Hy. unfold euclidDist. by rewrite !sub_diag. Qed.

Lemma buildDist_lookup coords i j :
  0 ≤ i < size coords → 0 ≤ j < size coords →
  ∃ row, buildDist coords !! Z.to_nat i = Some row ∧
    row !! Z.to_nat j =
    Some (if (1 <=? i) && (1 <=? j)
          then euclidDist (nth (Z.to_nat i) coords (0, 0)%float).1
                          (nth (Z.to_nat i) coords (0, 0)%float).2
                          (nth (Z.to_nat j) coords (0, 0)%float).1
                          (nth (Z.to_nat j) coords (0, 0)%float).2
          else 0%float).
Proof.
  intros Hi Hj. unfold buildDist, distMatrix. eexists. split.
  - rewrite list_lookup_fmap, lookup_seqZ_lt by lia. simpl. reflexivity.
  - rewrite list_lookup_fmap, lookup_seqZ_lt by lia. simpl.
    by replace (0 + Z.of_nat (Z.to_nat i)) with i by lia;
       replace (0 + Z.of_nat (Z.to_nat j)) with j by lia.
Qed.

Lemma routeCost_degenerate depot dist row :
  0 ≤ depot → dist !! Z.to_nat depot = Some row →
  row !! Z.to_nat depot = Some 0%float →
  routeCost [depot; depot] dist = Ok 0%float.
Proof.
  intros Hd Hrow Hz. unfold routeCost. simpl.
  assert (at_ VDist dist depot = Ok row) as -> by (by apply at_Ok).
  simpl. assert (at_ VDist row depot = Ok 0%float) as -> by (by apply at_Ok).
  reflexivity.
Qed.

(** ** Evaluator: [checkSolution] *)

Lemma lookup_body {A} (route : list A) (i : nat) :
  (i < length route - 1)%nat →
  ∃ c, route !! i = Some c ∧
       drop i (take (length route - 1) route) =
       c :: drop (S i) (take (length route - 1) route).
Proof.
  intros Hi. destruct (lookup_lt_is_Some_2 route i) as [c Hc]; [lia|].
  exists c. split; [done|]. apply drop_S. by rewrite lookup_take_lt.
Qed.

Lemma drop_body_nil {A} (route : list A) (i : nat) :
  (length route - 1 ≤ i)%nat → drop i (take (length route - 1) route) = [].
Proof. intros Hi. apply drop_ge. rewrite length_take. lia. Qed.

Lemma routeDemandLoop_ids k route demand (i : nat) sum :
  route ≠ [] → (length route - 1 - i ≤ k)%nat →
  routeDemandLoop k route demand (Z.of_nat i) sum =
  demandIds (drop i (take (length route - 1) route)) demand sum.
Proof.
  intros Hne. revert i sum. induction k as [|k IH]; intros i sum Hk; simpl.
  { by rewrite drop_body_nil by lia. }
  rewrite sizeMinus1_nonempty by done. unfold size.
  destruct (Z.ltb_spec (Z.of_nat i) (Z.of_nat (length route) - 1)) as [Hlt|Hge].
  - destruct (lookup_body route i) as (c & Hc & ->); [lia|].
    assert (at_ VRoute route (Z.of_nat i) = Ok c) as ->.
    { apply at_Ok. rewrite Nat2Z.id. split; [lia|done]. }
    simpl. destruct (at_ VDemand demand c) as [d|]; simpl; [|done].
    replace (Z.of_nat i + 1) with (Z.of_nat (S i)) by lia. apply IH. lia.
  - by rewrite drop_body_nil by lia.
Qed.

(** On an empty route [route.size() - 1] wraps around and the first index
    read is outside the route. *)
Lemma routeDemand_empty demand : routeDemand [] demand = Err (OutOfRange VRoute).
Proof. reflexivity. Qed.

Lemma routeCost_empty dist : routeCost [] dist = Err (OutOfRange VRoute).
Proof. reflexivity. Qed.

(** The bound of [routeCostLoop] is never what stops the loop. *)
Lemma routeCostLoop_bound k j route dist (i : nat) cost :
  route ≠ [] → (length route ≤ k + i)%nat →
  routeCostLoop (k + j) route dist (Z.of_nat i) cost =
  routeCostLoop k route dist (Z.of_nat i) cost.
Proof.
  intros Hne. revert i cost. induction k as [|k IH]; intros i cost Hk; simpl.
  - destruct j as [|j]; [done|]. simpl.
    rewrite sizeMinus1_nonempty by done. unfold size.
    destruct (Z.ltb_spec (Z.of_nat i) (Z.of_nat (length route) - 1)); [lia|done].
  - destruct (Z.of_nat i <? sizeMinus1 route); [|done].
    destruct (at_ VRoute route (Z.of_nat i)) as [a|]; simpl; [|done].
    destruct (at_ VRoute route (Z.of_nat i + 1)) as [b|]; simpl; [|done].
    destruct (at_ VDist dist a) as [row|]; simpl; [|done].
    destruct (at_ VDist row b) as [d|]; simpl; [|done].
    replace (Z.of_nat i + 1) with (Z.of_nat (S i)) by lia. apply IH. lia.
Qed.

Lemma routeDemand_ids route demand :
  route ≠ [] → routeDemand route demand = demandIds (interior route) demand 0.
Proof. intros Hne. unfold routeDemand. apply (routeDemandLoop_ids _ _ _ 1); [done|lia]. Qed.

Lemma visitLoop_ids k route (i : nat) visited :
  route ≠ [] → (length route - 1 - i ≤ k)%nat →
  visitLoop k route (Z.of_nat i) visited =
  visitIds (drop i (take (length route - 1) route)) visited.
Proof.
  intros Hne. revert i visited. induction k as [|k IH]; intros i visited Hk; simpl.
  { by rewrite drop_body_nil by lia. }
  rewrite sizeMinus1_nonempty by done. unfold size.
  destruct (Z.ltb_spec (Z.of_nat i) (Z.of_nat (length route) - 1)) as [Hlt|Hge].
  - destruct (lookup_body route i) as (c & Hc & ->); [lia|].
    assert (at_ VRoute route (Z.of_nat i) = Ok c) as ->.
    { apply at_Ok. rewrite Nat2Z.id. split; [lia|done]. }
    simpl. destruct (at_ VVisited visited c) as [[]|]; simpl; [done| |done].
    replace (Z.of_nat i + 1) with (Z.of_nat (S i)) by lia. apply IH. lia.
  - by rewrite drop_body_nil by lia.
Qed.

Lemma visitLoop_interior route visited :
  route ≠ [] →
  visitLoop (S (length route)) route 1 visited = visitIds (interior route) visited.
Proof. intros Hne. apply (visitLoop_ids _ _ 1); [done|lia]. Qed.

Lemma demandIds_sum ids demand sum :
  Forall (λ c, 0 ≤ c < size demand) ids → to_int sum = sum →
  demandIds ids demand sum = Ok (to_int (sum + load demand ids)).
Proof.
  intros H. revert sum. induction H as [|c ids Hc _ IH]; intros sum Hsum; simpl.
  { by rewrite Z.add_0_r, Hsum. }
  destruct (at_in_range VDemand demand c Hc) as [d Hd]. rewrite Hd. simpl.
  apply at_Ok in Hd as [_ ->]. rewrite IH by apply to_int_idemp. simpl.
  by rewrite to_int_add_l, Z.add_assoc.
Qed.

(** What [routeDemand] returns: the demand of the interior, as an [int]. *)
Lemma demandIds_load ids demand :
  Forall (λ c, 0 ≤ c < size demand) ids →
  demandIds ids demand 0 = Ok (to_int (load demand ids)).
Proof. intros H. by rewrite demandIds_sum. Qed.

Lemma size_mark ids visited : size (mark ids visited) = size visited.
Proof.
  revert visited. induction ids as [|c ids IH]; intros visited; [done|].
  unfold mark in *. simpl. by rewrite IH, size_insert.
Qed.

Lemma mark_app a b visited : mark (a ++ b) visited = mark b (mark a visited).
Proof. apply foldl_app. Qed.

Lemma fresh_nil visited : fresh visited [].
Proof. split; constructor. Qed.

Lemma fresh_cons visited c ids :
  0 ≤ c → Forall (λ x, 0 ≤ x) ids →
  fresh visited (c :: ids) ↔
  visited !! Z.to_nat c = Some false ∧ fresh (<[Z.to_nat c:=true]> visited) ids.
Proof.
  intros Hc Hids. unfold fresh. rewrite NoDup_cons, Forall_cons. split.
  - intros [[Hnin Hnd] [Hcf Hall]]. split; [done|]. split; [done|].
    apply Forall_forall. intros x Hx.
    assert (0 ≤ x) by (by eapply Forall_forall in Hids).
    assert (x ≠ c) by (by intros ->).
    rewrite list_lookup_insert_ne by lia. by eapply Forall_forall in Hall.
  - intros [Hcf [Hnd Hall]]. split; [split; [|done] | split; [done|]].
    + intros Hin. eapply Forall_forall in Hall; [|done].
      rewrite list_lookup_insert_eq in Hall; [done|]. by eapply lookup_lt_Some.
    + apply Forall_forall. intros x Hx. eapply Forall_forall in Hall as Hx'; [|done].
      assert (0 ≤ x) by (by eapply Forall_forall in Hids).
      destruct (decide (x = c)) as [->|].
      * rewrite list_lookup_insert_eq in Hx'; [done|]. by eapply lookup_lt_Some.
      * by rewrite list_lookup_insert_ne in Hx' by lia.
Qed.

Lemma fresh_app visited a b :
  Forall (λ x, 0 ≤ x) (a ++ b) →
  fresh visited (a ++ b) ↔ fresh visited a ∧ fresh (mark a visited) b.
Proof.
  revert visited. induction a as [|c a IH]; intros visited H; simpl.
  - split; [intros ?; split; [apply fresh_nil|done] | by intros [_ ?]].
  - apply Forall_cons in H as [Hc H]. pose proof H as [Ha Hb]%Forall_app.
    rewrite !fresh_cons, IH by done. unfold mark. simpl. tauto.
Qed.

Lemma visitIds_spec ids visited :
  Forall (λ c, 0 ≤ c < size visited) ids →
  ∃ r, visitIds ids visited = Ok r ∧
    match r with
    | Some visited' => fresh visited ids ∧ visited' = mark ids visited
    | None => ¬ fresh visited ids
    end.
Proof.
  intros H. revert visited H. induction ids as [|c ids IH]; intros visited H; simpl.
  { exists (Some visited). split; [done|]. split; [apply fresh_nil|done]. }
  apply Forall_cons in H as [Hc Hids].
  destruct (at_in_range VVisited visited c Hc) as [b Hb]. rewrite Hb. simpl.
  apply at_Ok in Hb as [_ Hb].
  assert (Forall (λ x, 0 ≤ x) ids) as Hpos.
  { eapply Forall_impl; [done|]. simpl. lia. }
  destruct b.
  - exists None. split; [done|]. intros Hf%fresh_cons; [|lia|done].
    destruct Hf. congruence.
  - destruct (IH (<[Z.to_nat c:=true]> visited)) as (r & -> & Hr).
    { by rewrite size_insert. }
    exists r. split; [done|]. destruct r as [visited'|].
    + destruct Hr as [Hf ->]. split; [|done]. apply fresh_cons; [lia|done|done].
    + intros Hf%fresh_cons; [|lia|done]. by destruct Hf.
Qed.

Lemma mark_lookup ids visited x :
  0 ≤ x → Forall (λ c, 0 ≤ c < size visited) ids →
  mark ids visited !! Z.to_nat x = Some true ↔
  visited !! Z.to_nat x = Some true ∨ x ∈ ids.
Proof.
  intros Hx H. revert visited H. induction ids as [|c ids IH]; intros visited H.
  { simpl. split; [by left|]. intros [?|?%elem_of_nil]; done. }
  apply Forall_cons in H as [Hc Hids]. change (mark (c :: ids) visited)
    with (mark ids (<[Z.to_nat c:=true]> visited)).
  rewrite IH by (by rewrite size_insert). rewrite elem_of_cons.
  destruct (decide (x = c)) as [->|Hne].
  - rewrite list_lookup_insert_eq by (unfold size in Hc; lia). tauto.
  - rewrite list_lookup_insert_ne by lia. tauto.
Qed.

Lemma routesLoop_spec routes demand cap n visited :
  Forall (wellFormed n) routes → n < size demand → size visited = n + 1 →
  ∃ r, routesLoop routes demand cap visited = Ok r ∧
    match r with
    | Some visited' =>
        Forall (λ route, to_int (load demand (interior route)) ≤ cap) routes ∧
        fresh visited (concat (interior <$> routes)) ∧
        visited' = mark (concat (interior <$> routes)) visited
    | None =>
        ¬ (Forall (λ route, to_int (load demand (interior route)) ≤ cap) routes ∧
           fresh visited (concat (interior <$> routes)))
    end.
Proof.
  intros Hwf Hd. revert visited.
  induction Hwf as [|route routes [Hne Hids] Hwf IH]; intros visited Hv;
    cbn [routesLoop fmap list_fmap concat].
  { exists (Some visited). split; [done|]. split_and!; [done|apply fresh_nil|done]. }
  assert (Forall (λ x, 0 ≤ x) (interior route ++ concat (interior <$> routes))) as Hpos.
  { apply Forall_app. split; [eapply Forall_impl; [done|]; simpl; lia|].
    apply Forall_concat, Forall_fmap, Forall_forall. intros r Hr.
    eapply Forall_forall in Hwf as [_ Hr']; [|done].
    eapply Forall_impl; [done|]. simpl. lia. }
  rewrite routeDemand_ids, demandIds_load by
    (done || (eapply Forall_impl; [done|]; simpl; lia)).
  cbn [mbind res_bind].
  destruct (Z.ltb_spec cap (to_int (load demand (interior route)))) as [Hover|Hfit].
  { exists None. split; [done|]. intros [[Hl _]%Forall_cons _]. lia. }
  rewrite visitLoop_interior by done.
  destruct (visitIds_spec (interior route) visited) as (r & -> & Hr).
  { eapply Forall_impl; [done|]. simpl. lia. }
  simpl. destruct r as [visited'|].
  - destruct Hr as [Hf ->].
    destruct (IH (mark (interior route) visited)) as (r & -> & Hr).
    { by rewrite size_mark. }
    exists r. split; [done|]. destruct r as [visited'|].
    + destruct Hr as (Hl & Hf' & ->). split_and!.
      * by constructor.
      * by apply fresh_app.
      * by rewrite mark_app.
    + intros [[_ Hl]%Forall_cons Hf'%fresh_app]; [|done]. destruct Hf'. by destruct Hr.
  - exists None. split; [done|]. intros [_ Hf'%fresh_app]; [|done]. by destruct Hf'.
Qed.

Lemma allVisited_spec ids visited :
  Forall (λ i, 0 ≤ i < size visited) ids →
  ∃ b, allVisited ids visited = Ok b ∧
    (b = true ↔ Forall (λ i, visited !! Z.to_nat i = Some true) ids).
Proof.
  induction 1 as [|i ids Hi _ IH]; simpl.
  { exists true. split; [done|]. split; [by constructor|done]. }
  destruct (at_in_range VVisited visited i Hi) as [b Hb]. rewrite Hb. simpl.
  apply at_Ok in Hb as [_ Hb]. destruct b.
  - destruct IH as (b & -> & Hiff). exists b. split; [done|].
    rewrite Hiff, Forall_cons. tauto.
  - exists false. split; [done|]. split; [done|]. intros [? _]%Forall_cons. congruence.
Qed.

Lemma NoDup_count (l : list Z) : (∀ x, x ∈ l → count x l = 1%nat) → NoDup l.
Proof.
  intros H. apply NoDup_ListNoDup, (NoDup_count_occ Z.eq_dec). intros x.
  destruct (decide (x ∈ l)) as [Hx|Hx].
  - apply H in Hx. unfold count in Hx. lia.
  - apply count_zero_iff in Hx. unfold count in Hx. lia.
Qed.

Lemma lookup_unvisited n (x : Z) :
  0 ≤ x ≤ n → replicate (Z.to_nat (n + 1)) false !! Z.to_nat x = Some false.
Proof. intros Hx. apply lookup_replicate_2. lia. Qed.

(** ** ZeroRepair: no read outside the chromosome *)

(** An iteration erases two tokens at most. *)
Lemma eraseLeftmost_length need v zc :
  (length v - 1 ≤ length (flowState (eraseLeftmost need (v, zc))).1)%nat.
Proof.
  unfold eraseLeftmost. destruct (need <? zc); [|simpl; lia].
  destruct (find0 v) as [j|].
  - pose proof (length_erase j v). destruct (zc - 1 =? need); simpl; lia.
  - destruct (zc =? need); simpl; lia.
Qed.

Lemma forBody_length need i v zc f :
  forBody need i (v, zc) = Ok f → (length v - 2 ≤ length (flowState f).1)%nat.
Proof.
  unfold forBody. destruct (at_ VSeq v i); simpl; [|done].
  destruct (_ : res bool) as [[]|]; simpl; [| |done].
  - pose proof (length_erase (Z.to_nat i) v).
    pose proof (eraseLeftmost_length need (erase (Z.to_nat i) v) (zc - 1)).
    destruct (zc - 1 =? need); intros [= <-]; simpl; lia.
  - pose proof (eraseLeftmost_length need v zc). intros [= <-]. lia.
Qed.

(** On a chromosome that is not empty no iteration of the [for] loop reads
    outside it, and the loop does not empty it. *)
Lemma forLoop_safe k need i st :
  counted st → need < st.2 → 1 ≤ i → st.1 ≠ [] →
  ∃ st', forLoop k need i st = Ok st' ∧ st'.1 ≠ [].
Proof.
  revert i st. induction k as [|k IH]; intros i st Hc Hlt Hi Hne; simpl.
  { by eexists. }
  destruct (Z.ltb_spec (to_size i) (sizeMinus1 st.1)) as [Hlt'|_]; [|by eexists].
  rewrite to_size_nonneg, sizeMinus1_nonempty in Hlt' by (done || lia).
  pose proof (forBody_stepped need i st Hc Hlt) as Hb.
  destruct st as [v zc]. cbn [fst snd] in *.
  destruct (forBody need i (v, zc)) as [f|e] eqn:Hf; simpl in *.
  - apply forBody_length in Hf.
    assert ((flowState f).1 ≠ []) as Hne'.
    { intros H0. rewrite H0 in Hf. unfold size in Hlt'. simpl in Hf. lia. }
    destruct f as [st'|st']; simpl in *; [|by eexists].
    destruct Hb as (Hc' & He & Hlt1 & _). apply IH; [done|done|lia|done].
  - unfold size in *. lia.
Qed.

Lemma whileLoop_safe fuel need st e :
  counted st → st.1 ≠ [] → whileLoop fuel need st ≠ Some (Err e).
Proof.
  revert st. induction fuel as [|fuel IH]; intros st Hc Hne; simpl; [done|].
  destruct (Z.ltb_spec need st.2) as [Hlt|]; [|done].
  unfold forPass.
  destruct (forLoop_safe (S (length st.1)) need 1 st Hc Hlt ltac:(lia) Hne) as (st' & Hst & Hne').
  pose proof (forLoop_sound (S (length st.1)) need 1 st Hc Hlt ltac:(lia)) as Hs.
  rewrite Hst in *. destruct Hs as (Hc' & _). by apply IH.
Qed.

(** Below zero the count cannot go. *)
Lemma whileLoop_negative fuel need st :
  counted st → st.1 ≠ [] → need < 0 → whileLoop fuel need st = None.
Proof.
  revert st. induction fuel as [|fuel IH]; intros st Hc Hne Hn; simpl; [done|].
  assert (need < st.2) as Hlt.
  { unfold counted in Hc. lia. }
  destruct (Z.ltb_spec need st.2); [|lia]. unfold forPass.
  destruct (forLoop_safe (S (length st.1)) need 1 st Hc Hlt ltac:(lia) Hne) as (st' & Hst & Hne').
  pose proof (forLoop_sound (S (length st.1)) need 1 st Hc Hlt ltac:(lia)) as Hs.
  rewrite Hst in *. destruct Hs as (Hc' & _). by apply IH.
Qed.

(** ** CustomerRepair on a repeated customer *)

Lemma repeated_token (l : list Z) : ¬ NoDup l → ∃ x, x ∈ l ∧ (2 ≤ count x l)%nat.
Proof.
  intros Hnd. destruct (decide (Forall (λ x, count x l = 1%nat) l)) as [Hall|Hex].
  { destruct Hnd. apply NoDup_count. intros x Hx. by eapply Forall_forall in Hall. }
  apply not_Forall_Exists in Hex; [|solve_decision].
  apply Exists_exists in Hex as (x & Hx & Hc). exists x. split; [done|].
  simpl in Hc. assert (count x l ≠ O) by (by intros ?%count_zero_iff). lia.
Qed.

(** With nothing in [missing], the first duplicate slot is overwritten by
    [missing[0]], which does not exist. *)
Lemma replaceLoop_empty v cnt idx :
  Forall (λ x, x ≠ 0 → 0 ≤ x < size cnt) v → hasDup v cnt →
  replaceLoop v cnt [] idx = Err (OutOfRange VMissing).
Proof.
  induction v as [|x v IH]; intros Hr (y & c & Hy & Hy0 & Hc & Hlt).
  { by apply elem_of_nil in Hy. }
  apply Forall_cons in Hr as [Hx Hr]. cbn [replaceLoop].
  destruct (Z.eqb_spec x 0) as [->|Hx0]; cbn [mbind res_bind].
  - rewrite IH; [done|done|]. exists y, c. apply elem_of_cons in Hy as [->|Hy]; done.
  - destruct (at_in_range VCount cnt x (Hx Hx0)) as [cx Hcx]. rewrite Hcx.
    cbn [mbind res_bind]. destruct (Z.ltb_spec 1 cx) as [Hdup|Hno].
    + unfold at_. by destruct (idx <? 0).
    + rewrite IH; [done|done|]. exists y, c. apply elem_of_cons in Hy as [->|Hy]; [|done].
      apply at_Ok in Hcx as [_ Hcx]. rewrite Hcx in Hc. injection Hc as ->. lia.
Qed.

(** A slot holding customer 2 is no duplicate slot while the count of 2 is
    not above one: the scan never takes a 2 away. *)
Lemma replaceLoop_keeps2 v cnt missing idx v' cnt' :
  replaceLoop v cnt missing idx = Ok (v', cnt') → low2 cnt →
  (count 2 v ≤ count 2 v')%nat ∧ low2 cnt'.
Proof.
  revert cnt idx v' cnt'. induction v as [|x v IH]; intros cnt idx v' cnt' Hr Hlow.
  { by injection Hr as <- <-. }
  cbn [replaceLoop] in Hr.
  destruct (_ : res bool) as [dup|] eqn:Hdup; [|done]. cbn [mbind res_bind] in Hr.
  destruct dup.
  - assert (x ≠ 2) as Hx2.
    { intros ->. simpl in Hdup.
      destruct (at_ VCount cnt 2) as [c|] eqn:Hc; [|done]. simpl in Hdup.
      apply at_Ok in Hc as [_ Hc]. apply Hlow in Hc.
      destruct (Z.ltb_spec 1 c); [lia|done]. }
    destruct (at_ VMissing missing idx) as [m|] eqn:Hm; [|done]. cbn [mbind res_bind] in Hr.
    destruct (at_ VCount cnt m) as [c|] eqn:Hc; [|done]. cbn [mbind res_bind] in Hr.
    apply at_Ok in Hc as [Hm0 Hc].
    assert (low2 (<[Z.to_nat m:=c - 1]> cnt)) as Hlow'.
    { intros c'. destruct (decide (Z.to_nat m = 2%nat)) as [Heq|Hne].
      - rewrite Heq, list_lookup_insert_eq by (rewrite <- Heq; by eapply lookup_lt_Some).
        intros [= <-]. rewrite Heq in Hc. apply Hlow in Hc. lia.
      - rewrite list_lookup_insert_ne by done. apply Hlow. }
    destruct (size missing <=? to_size (idx + 1)).
    + injection Hr as <- <-. split; [|done].
      rewrite !count_cons, (decide_False (P := x = 2)) by done. lia.
    + destruct (replaceLoop v _ missing (idx + 1)) as [[rest cnt1]|] eqn:Hrest; [|done].
      injection Hr as <- <-. apply IH in Hrest as [Hle Hlow1]; [|done]. split; [|done].
      rewrite !count_cons, (decide_False (P := x = 2)) by done. lia.
  - destruct (replaceLoop v cnt missing idx) as [[rest cnt1]|] eqn:Hrest; [|done].
    injection Hr as <- <-. apply IH in Hrest as [Hle Hlow1]; [|done]. split; [|done].
    rewrite !count_cons. lia.
Qed.

(** With customer 2 first in [missing], a scan that meets a duplicate slot
    writes one more 2. *)
Lemma replaceLoop_writes2 v cnt ms v' cnt' :
  replaceLoop v cnt (2 :: ms) 0 = Ok (v', cnt') → low2 cnt → hasDup v cnt →
  (count 2 v < count 2 v')%nat.
Proof.
  revert v' cnt'. induction v as [|x v IH]; intros v' cnt' Hr Hlow (y & c & Hy & Hy0 & Hc & Hlt).
  { by apply elem_of_nil in Hy. }
  cbn [replaceLoop] in Hr.
  destruct (_ : res bool) as [dup|] eqn:Hdup; [|done]. cbn [mbind res_bind] in Hr.
  destruct dup.
  - assert (x ≠ 2) as Hx2.
    { intros ->. simpl in Hdup.
      destruct (at_ VCount cnt 2) as [c2|] eqn:Hc2; [|done]. simpl in Hdup.
      apply at_Ok in Hc2 as [_ Hc2]. apply Hlow in Hc2.
      destruct (Z.ltb_spec 1 c2); [lia|done]. }
    change (at_ VMissing (2 :: ms) 0) with (Ok (A:=Z) 2) in Hr. cbn [mbind res_bind] in Hr.
    destruct (at_ VCount cnt 2) as [c2|] eqn:Hc2; [|done]. cbn [mbind res_bind] in Hr.
    apply at_Ok in Hc2 as [_ Hc2].
    assert (low2 (<[Z.to_nat 2:=c2 - 1]> cnt)) as Hlow'.
    { intros c'. change (Z.to_nat 2) with 2%nat.
      rewrite list_lookup_insert_eq by (by eapply lookup_lt_Some).
      intros [= <-]. apply Hlow in Hc2. lia. }
    destruct (size (2 :: ms) <=? to_size (0 + 1)).
    + injection Hr as <- <-.
      rewrite !count_cons, (decide_False (P := x = 2)), decide_True by done. lia.
    + destruct (replaceLoop v _ (2 :: ms) (0 + 1)) as [[rest cnt1]|] eqn:Hrest; [|done].
      injection Hr as <- <-. apply replaceLoop_keeps2 in Hrest as [Hle _]; [|done].
      rewrite !count_cons, (decide_False (P := x = 2)), decide_True by done. lia.
  - destruct (replaceLoop v cnt (2 :: ms) 0) as [[rest cnt1]|] eqn:Hrest; [|done].
    injection Hr as <- <-.
    assert (hasDup v cnt) as Hd.
    { exists y, c. apply elem_of_cons in Hy as [->|Hy]; [|done]. exfalso.
      destruct (Z.eqb_spec x 0); [done|]. simpl in Hdup.
      destruct (at_ VCount cnt x) as [cy|] eqn:Hcy; [|done]. simpl in Hdup.
      apply at_Ok in Hcy as [_ Hcy]. rewrite Hcy in Hc. injection Hc as ->.
      destruct (Z.ltb_spec 1 c); [done|lia]. }
    specialize (IH _ _ eq_refl Hlow Hd). rewrite !count_cons. lia.
Qed.

(** With one id in [missing] a scan overwrites one slot at most, and changes
    the count of that id only. *)
Lemma replaceLoop_once v cnt m v' cnt' :
  replaceLoop v cnt [m] 0 = Ok (v', cnt') →
  (∀ x, (count x v ≤ count x v' + 1)%nat) ∧
  (∀ k, k ≠ Z.to_nat m → cnt' !! k = cnt !! k).
Proof.
  revert v' cnt'. induction v as [|x v IH]; intros v' cnt' Hr.
  { injection Hr as <- <-. split; [intros; lia|done]. }
  cbn [replaceLoop] in Hr.
  destruct (_ : res bool) as [dup|] eqn:Hdup; [|done]. cbn [mbind res_bind] in Hr.
  destruct dup.
  - change (at_ VMissing [m] 0) with (Ok (A:=Z) m) in Hr. cbn [mbind res_bind] in Hr.
    destruct (at_ VCount cnt m) as [c|] eqn:Hc; [|done]. cbn [mbind res_bind] in Hr.
    change (size [m] <=? to_size (0 + 1)) with true in Hr. injection Hr as <- <-. split.
    + intros y. rewrite !count_cons. repeat case_decide; lia.
    + intros k Hk. by rewrite list_lookup_insert_ne.
  - destruct (replaceLoop v cnt [m] 0) as [[rest cnt1]|] eqn:Hrest; [|done].
    injection Hr as <- <-. destruct (IH _ _ eq_refl) as [Hcount Hcnt]. split; [|done].
    intros y. rewrite !count_cons. specialize (Hcount y). lia.
Qed.

Lemma missingLoop_keeps2 ids v cnt missing r :
  missingLoop ids v cnt missing = Ok r → low2 cnt → (count 2 v ≤ count 2 r)%nat.
Proof.
  revert v cnt missing. induction ids as [|i ids IH]; intros v cnt missing Hr Hlow.
  { by injection Hr as <-. }
  cbn [missingLoop] in Hr.
  destruct (at_ VCount cnt i) as [c|]; [|done]. cbn [mbind res_bind] in Hr.
  destruct (replaceLoop v cnt _ 0) as [[v1 cnt1]|] eqn:Hv1; [|done].
  cbn [mbind res_bind] in Hr.
  apply replaceLoop_keeps2 in Hv1 as [Hle Hlow1]; [|done].
  apply IH in Hr; [|done]. lia.
Qed.

(** ** Decoder: routes and bins *)

Lemma emitted_cons g g' gs : emitted (g :: g' :: gs) = g :: emitted (g' :: gs).
Proof.
  unfold emitted. rewrite last_cons_cons.
  destruct (last (g' :: gs)) as [[|]|]; try done.
  simpl. by rewrite Nat.sub_0_r.
Qed.

Lemma interior_routeOf depot g : interior (routeOf depot g) = g.
Proof. apply interior_route. Qed.

Lemma decodeSeq_joinGroups_eq gs depot :
  Forall (Forall (λ x, x ≠ 0)) gs →
  decodeSeq (joinGroups gs) depot = routeOf depot <$> emitted gs.
Proof.
  induction gs as [|g [|g' gs] IH]; intros Hgs.
  - done.
  - apply Forall_cons in Hgs as [Hg _]. simpl.
    rewrite decodeSeq_customers by done. by destruct g.
  - apply Forall_cons in Hgs as [Hg Hgs].
    rewrite joinGroups_cons, decodeSeq_separator, emitted_cons, IH by done. done.
Qed.

Lemma concat_emitted gs : concat (emitted gs) = concat gs.
Proof.
  induction gs as [|g [|g' gs] IH]; [done| |].
  - unfold emitted. simpl. destruct g; [done|]. done.
  - rewrite emitted_cons. simpl in *. by rewrite IH.
Qed.

Lemma emitted_sub gs : emitted gs ⊆ gs.
Proof.
  unfold emitted. destruct (last gs) as [[|]|]; try done.
  apply subseteq_take.
Qed.

(** Every route of the decoder is a bin of customers between two depots,
    and the bins hold the tokens of the chromosome in their order. *)
Lemma decodeSeq_routes v depot :
  ∃ gs, decodeSeq v depot = routeOf depot <$> gs ∧
        Forall (Forall (λ x, x ≠ 0)) gs ∧ concat gs = tokens v.
Proof.
  enough (∀ g, Forall (λ x, x ≠ 0) g →
            ∃ gs, decodeSeq (g ++ v) depot = routeOf depot <$> gs ∧
                  Forall (Forall (λ x, x ≠ 0)) gs ∧ concat gs = tokens (g ++ v))
    as H by apply (H [] (Forall_nil_2 _)).
  induction v as [|x v IH]; intros g Hg.
  - rewrite app_nil_r, decodeSeq_customers, tokens_id by done.
    destruct g as [|y g].
    + by exists [].
    + exists [y :: g]. split_and!; [done|by constructor|]. simpl. by rewrite app_nil_r.
  - destruct (decide (x = 0)) as [->|Hx].
    + rewrite decodeSeq_separator by done.
      destruct (IH [] (Forall_nil_2 _)) as (gs & Hd & Hgs & Hc). simpl in Hc, Hd.
      rewrite Hd. exists (g :: gs). split_and!; [done|by constructor|].
      rewrite tokens_app, tokens_cons, decide_True, tokens_id by done. simpl. by rewrite Hc.
    + replace (g ++ x :: v) with ((g ++ [x]) ++ v) by (by rewrite <- app_assoc).
      apply IH. apply Forall_app. by repeat constructor.
Qed.

(** ** SequenceGenerator: the load of the bins *)

Lemma load_app demand a b : load demand (a ++ b) = load demand a + load demand b.
Proof. induction a as [|c a IH]; simpl; [done|]. rewrite IH. lia. Qed.

Lemma load_at demand c d : at_ VDemand demand c = Ok d → load demand [c] = d.
Proof. intros [_ H]%at_Ok. simpl. rewrite H. simpl. lia. Qed.

(** The packing loop looks at its load modulo [2^32] only. *)
Lemma pack_congr custs demand cap groups cur L L' :
  to_int L = to_int L' →
  pack custs demand cap groups cur L = pack custs demand cap groups cur L'.
Proof.
  intros HL. destruct custs as [|c custs]; [done|]. cbn [pack].
  destruct (at_ VDemand demand c) as [d|]; [|done]. cbn [mbind res_bind].
  by rewrite (to_int_congr L L' d HL).
Qed.

(** One iteration of the packing loop, on the demand of the current bin. *)
Lemma pack_cons c custs demand cap groups cur d :
  at_ VDemand demand c = Ok d →
  pack (c :: custs) demand cap groups cur (load demand cur) =
  if to_int (load demand (cur ++ [c])) <=? cap
  then pack custs demand cap groups (cur ++ [c]) (load demand (cur ++ [c]))
  else pack custs demand cap (groups ++ [cur]) [c] (load demand [c]).
Proof.
  intros Hd. cbn [pack]. rewrite Hd. cbn [mbind res_bind].
  apply load_at in Hd. rewrite load_app, Hd.
  destruct (_ <=? _); [|done]. apply pack_congr, to_int_idemp.
Qed.

Lemma pack_fault c custs demand cap groups cur L e :
  at_ VDemand demand c = Err e → pack (c :: custs) demand cap groups cur L = Err e.
Proof. intros Hd. cbn [pack]. by rewrite Hd. Qed.

Lemma load_nonneg demand l : Forall (λ c, 0 ≤ load demand [c]) l → 0 ≤ load demand l.
Proof.
  induction 1 as [|x t Hx _ IH]; [done|].
  change (x :: t) with ([x] ++ t). rewrite load_app. lia.
Qed.

Lemma pack_fits custs demand cap groups cur groups' cur' :
  pack custs demand cap groups cur (load demand cur) = Ok (groups', cur') →
  Forall (fits demand cap) groups → fits demand cap cur →
  Forall (fits demand cap) groups' ∧ fits demand cap cur'.
Proof.
  revert groups cur. induction custs as [|c custs IH]; intros groups cur.
  { by intros [= <- <-]. }
  destruct (at_ VDemand demand c) as [d|e] eqn:Hd; [|by rewrite (pack_fault _ _ _ _ _ _ _ _ Hd)].
  rewrite (pack_cons _ _ _ _ _ _ _ Hd).
  destruct (Z.leb_spec (to_int (load demand (cur ++ [c]))) cap) as [Hle|Hgt];
    intros Hp Hgs Hcur.
  - eapply IH; [done|done|]. by left.
  - eapply IH; [done| |].
    + apply Forall_app. split; [done|]. by apply Forall_singleton.
    + right. simpl. lia.
Qed.

Lemma pack_within custs demand cap groups cur groups' cur' :
  pack custs demand cap groups cur (load demand cur) = Ok (groups', cur') →
  Forall (λ c, to_int (load demand [c]) ≤ cap) custs →
  Forall (λ g, to_int (load demand g) ≤ cap) groups → to_int (load demand cur) ≤ cap →
  Forall (λ g, to_int (load demand g) ≤ cap) groups' ∧ to_int (load demand cur') ≤ cap.
Proof.
  revert groups cur. induction custs as [|c custs IH]; intros groups cur Hp Hcs Hgs Hcur.
  { by injection Hp as <- <-. }
  apply Forall_cons in Hcs as [Hc Hcs]. cbv beta in Hc.
  destruct (at_ VDemand demand c) as [d|e] eqn:Hd;
    [|by rewrite (pack_fault _ _ _ _ _ _ _ _ Hd) in Hp].
  rewrite (pack_cons _ _ _ _ _ _ _ Hd) in Hp.
  destruct (Z.leb_spec (to_int (load demand (cur ++ [c]))) cap) as [Hle|Hgt].
  - by eapply IH.
  - eapply IH; [done|done| |done].
    apply Forall_app. split; [done|]. by apply Forall_singleton.
Qed.

Lemma initGroups_fits shuffled V cap demand gs :
  initGroups shuffled V cap demand = Ok gs → Forall (fits demand cap) gs.
Proof.
  unfold initGroups.
  destruct (pack shuffled demand cap [] [] 0) as [[groups cur]|e] eqn:Hp; simpl; [|done].
  intros [= <-]. change 0 with (load demand []) in Hp.
  eapply pack_fits in Hp as [Hgs Hcur]; [|done|right; simpl; lia].
  unfold padGroups. apply Forall_app. split.
  - destruct cur; [done|]. apply Forall_app. split; [done|]. by apply Forall_singleton.
  - apply Forall_replicate. right. simpl. lia.
Qed.

Lemma initGroups_within shuffled V cap demand gs :
  initGroups shuffled V cap demand = Ok gs →
  0 ≤ cap → Forall (λ c, to_int (load demand [c]) ≤ cap) shuffled →
  Forall (λ g, to_int (load demand g) ≤ cap) gs.
Proof.
  unfold initGroups.
  destruct (pack shuffled demand cap [] [] 0) as [[groups cur]|e] eqn:Hp; simpl; [|done].
  intros [= <-] Hcap Hs. change 0 with (load demand []) in Hp.
  eapply pack_within in Hp as [Hgs Hcur]; [|done|done|done].
  unfold padGroups. apply Forall_app. split.
  - destruct cur; [done|]. apply Forall_app. split; [done|]. by apply Forall_singleton.
  - by apply Forall_replicate.
Qed.

(** Where no demand is negative and the demands of all customers together
    fit an [int], so does the demand of every bin of them: no sum wraps
    around. *)
Lemma load_concat_le demand gs g :
  Forall (λ c, 0 ≤ load demand [c]) (concat gs) → g ∈ gs →
  0 ≤ load demand g ≤ load demand (concat gs).
Proof.
  induction gs as [|g' gs IH]; intros Hnn Hg; [by apply elem_of_nil in Hg|].
  cbn [concat] in *. apply Forall_app in Hnn as [Hg' Hgs]. rewrite load_app.
  pose proof (load_nonneg _ _ Hg'). pose proof (load_nonneg _ _ Hgs).
  apply elem_of_cons in Hg as [->|Hg]; [lia|]. specialize (IH Hgs Hg). lia.
Qed.

(** ** Evaluator: [checkSolution] on routes through any nodes *)

Lemma routesLoop_inRange routes demand cap n visited :
  Forall (inRange n) routes → n < size demand → size visited = n + 1 →
  ∃ r, routesLoop routes demand cap visited = Ok r ∧
    match r with
    | Some visited' =>
        Forall (λ route, to_int (load demand (interior route)) ≤ cap) routes ∧
        fresh visited (concat (interior <$> routes)) ∧
        visited' = mark (concat (interior <$> routes)) visited
    | None =>
        ¬ (Forall (λ route, to_int (load demand (interior route)) ≤ cap) routes ∧
           fresh visited (concat (interior <$> routes)))
    end.
Proof.
  intros Hwf Hd. revert visited.
  induction Hwf as [|route routes [Hne Hids] Hwf IH]; intros visited Hv;
    cbn [routesLoop fmap list_fmap concat].
  { exists (Some visited). split; [done|]. split_and!; [done|apply fresh_nil|done]. }
  assert (Forall (λ x, 0 ≤ x) (interior route ++ concat (interior <$> routes))) as Hpos.
  { apply Forall_app. split; [eapply Forall_impl; [done|]; simpl; lia|].
    apply Forall_concat, Forall_fmap, Forall_forall. intros r Hr.
    eapply Forall_forall in Hwf as [_ Hr']; [|done].
    eapply Forall_impl; [done|]. simpl. lia. }
  rewrite routeDemand_ids, demandIds_load by
    (done || (eapply Forall_impl; [done|]; simpl; lia)).
  cbn [mbind res_bind].
  destruct (Z.ltb_spec cap (to_int (load demand (interior route)))) as [Hover|Hfit].
  { exists None. split; [done|]. intros [[Hl _]%Forall_cons _]. lia. }
  rewrite visitLoop_interior by done.
  destruct (visitIds_spec (interior route) visited) as (r & -> & Hr).
  { eapply Forall_impl; [done|]. simpl. lia. }
  simpl. destruct r as [visited'|].
  - destruct Hr as [Hf ->].
    destruct (IH (mark (interior route) visited)) as (r & -> & Hr).
    { by rewrite size_mark. }
    exists r. split; [done|]. destruct r as [visited'|].
    + destruct Hr as (Hl & Hf' & ->). split_and!.
      * by constructor.
      * by apply fresh_app.
      * by rewrite mark_app.
    + intros [[_ Hl]%Forall_cons Hf'%fresh_app]; [|done]. destruct Hf'. by destruct Hr.
  - exists None. split; [done|]. intros [_ Hf'%fresh_app]; [|done]. by destruct Hf'.
Qed.

Lemma checkSolution_inRange routes demand cap n :
  0 ≤ n + 1 → n < size demand → Forall (inRange n) routes →
  ∃ b, checkSolution routes demand cap n = Ok b ∧
    (b = true ↔
       Forall (λ route, to_int (load demand (interior route)) ≤ cap) routes ∧
       NoDup (concat (interior <$> routes)) ∧
       ∀ c, 2 ≤ c ≤ n → c ∈ concat (interior <$> routes)).
Proof.
  intros Hn Hd Hwf.
  set (ids := concat (interior <$> routes)).
  set (v0 := replicate (Z.to_nat (n + 1)) false).
  assert (size v0 = n + 1) as Hv0.
  { unfold size, v0. rewrite length_replicate. lia. }
  assert (Forall (λ c, 0 ≤ c ≤ n) ids) as Hids.
  { apply Forall_concat, Forall_fmap, Forall_forall. intros r Hr.
    by eapply Forall_forall in Hwf as [_ ?]. }
  assert (Forall (λ c, 0 ≤ c < size (mark ids v0)) ids) as Hids'.
  { rewrite size_mark, Hv0. eapply Forall_impl; [exact Hids|]. simpl. lia. }
  unfold checkSolution. destruct (Z.ltb_spec (n + 1) 0); [lia|]. fold v0.
  destruct (routesLoop_inRange routes demand cap n v0 Hwf Hd Hv0) as (r & -> & Hr).
  simpl. fold ids in Hr. destruct r as [visited|].
  - destruct Hr as (Hl & [Hnd Hf] & ->).
    destruct (allVisited_spec (seqZ 2 (n - 1)) (mark ids v0)) as (b & -> & Hb).
    { rewrite size_mark, Hv0. apply Forall_forall. intros i Hi%elem_of_seqZ. lia. }
    exists b. split; [done|]. rewrite Hb, Forall_forall. split.
    + intros Hall. split_and!; [done..|]. intros c Hc.
      specialize (Hall c). rewrite mark_lookup, elem_of_seqZ in Hall.
      * destruct Hall as [Hall|]; [lia| |done].
        unfold v0 in Hall. rewrite lookup_unvisited in Hall by lia. done.
      * lia.
      * rewrite size_mark in Hids'. done.
    + intros (_ & _ & Hin) i Hi%elem_of_seqZ. apply mark_lookup; [lia| |].
      * by rewrite size_mark in Hids'.
      * right. apply Hin. lia.
  - exists false. split; [done|]. split; [done|]. intros (Hl & Hnd & Hin).
    destruct Hr. split; [done|]. split; [done|].
    apply Forall_forall. intros x Hx. eapply Forall_forall in Hids; [|done].
    apply lookup_unvisited. lia.
Qed.

(** Where the demand of every route is an [int], the sums that
    [checkSolution] compares with the capacity are the demands. *)
Lemma Forall_load_exact (routes : list (list Z)) demand cap :
  Forall (λ route, INT_MIN ≤ load demand (interior route) ≤ INT_MAX) routes →
  Forall (λ route, to_int (load demand (interior route)) ≤ cap) routes ↔
  Forall (λ route, load demand (interior route) ≤ cap) routes.
Proof.
  intros Hint. rewrite !Forall_forall. split; intros H r Hr; specialize (H r Hr);
    eapply Forall_forall in Hint; [|exact Hr| |exact Hr];
    by rewrite to_int_id in *.
Qed.

(** ** SequenceGenerator: the fewest bins *)

Lemma pack_app a b demand cap groups cur :
  pack (a ++ b) demand cap groups cur (load demand cur) =
  '(groups1, cur1) ← pack a demand cap groups cur (load demand cur);
  pack b demand cap groups1 cur1 (load demand cur1).
Proof.
  revert groups cur. induction a as [|c a IH]; intros groups cur; [done|].
  change ((c :: a) ++ b) with (c :: (a ++ b)).
  destruct (at_ VDemand demand c) as [d|e] eqn:Hd.
  - rewrite !(pack_cons _ _ _ _ _ _ _ Hd). destruct (_ <=? _); apply IH.
  - by rewrite !(pack_fault _ _ _ _ _ _ _ _ Hd).
Qed.

(** Over a segment that the other division keeps within the capacity, the
    packing loop stays ahead: where it is level with the other division, the
    sum it compares with the capacity is one that does not wrap around, or
    one that wraps around to an [int] within the capacity. *)
Lemma pack_segment t demand cap groups cur groups1 cur1 b' L' :
  pack t demand cap groups cur (load demand cur) = Ok (groups1, cur1) →
  Forall (λ c, 0 ≤ load demand [c]) t →
  L' + load demand t ≤ cap → 0 ≤ L' → 0 ≤ load demand cur →
  ahead (length groups) (load demand cur) b' L' →
  0 ≤ load demand cur1 ∧
  ahead (length groups1) (load demand cur1) b' (L' + load demand t).
Proof.
  revert groups cur L'.
  induction t as [|c t IH]; intros groups cur L' Hp Hnn Hcap HL' Hcur Ha.
  { injection Hp as <- <-. simpl. by rewrite Z.add_0_r. }
  apply Forall_cons in Hnn as [Hc Hnn]. cbv beta in Hc.
  destruct (at_ VDemand demand c) as [d|e] eqn:Hd;
    [|by rewrite (pack_fault _ _ _ _ _ _ _ _ Hd) in Hp].
  rewrite (pack_cons _ _ _ _ _ _ _ Hd) in Hp.
  pose proof (load_nonneg _ _ Hnn) as Ht.
  change (c :: t) with ([c] ++ t) in *. rewrite (load_app _ [c] t) in *.
  rewrite Z.add_assoc.
  pose proof (load_app demand cur [c]) as Hcc.
  destruct (Z.leb_spec (to_int (load demand (cur ++ [c]))) cap) as [Hle|Hgt].
  - eapply IH; [done|done|lia|lia|lia|]. unfold ahead in *. lia.
  - eapply IH; [done|done|lia|lia|lia|].
    rewrite length_app. simpl length. unfold ahead in *.
    destruct Ha as [Ha|[Hb HL]]; [lia|]. exfalso.
    assert (to_int (load demand (cur ++ [c])) ≤ cap); [|lia].
    apply to_int_le; [unfold INT_MIN|]; lia.
Qed.

Lemma pack_segments segs demand cap groups cur groups' cur' b' L' :
  pack (concat segs) demand cap groups cur (load demand cur) = Ok (groups', cur') →
  Forall (Forall (λ c, 0 ≤ load demand [c])) segs →
  Forall (λ s, load demand s ≤ cap) segs → 0 ≤ L' → 0 ≤ load demand cur →
  ahead (length groups) (load demand cur) b' L' →
  (length groups' ≤ b' + length segs)%nat.
Proof.
  revert groups cur b' L'.
  induction segs as [|s segs IH]; intros groups cur b' L' Hp Hnn Hcap HL' Hcur Ha.
  { injection Hp as <- <-. unfold ahead in Ha. simpl. lia. }
  apply Forall_cons in Hnn as [Hs Hnn]. apply Forall_cons in Hcap as [Hsc Hcap].
  cbn [concat] in Hp. rewrite pack_app in Hp.
  destruct (pack s demand cap groups cur (load demand cur)) as [[g1 c1]|] eqn:Hp1; [|done].
  cbn [mbind res_bind] in Hp.
  assert (ahead (length groups) (load demand cur) (S b') 0) as Ha'.
  { unfold ahead in *. lia. }
  eapply pack_segment in Hp1 as [Hc1 Hp1]; [|done|by rewrite Z.add_0_l|done|done|exact Ha'].
  pose proof (load_nonneg _ _ Hs) as Hs0.
  eapply IH in Hp; [|done|done| |done|exact Hp1]; [|lia]. simpl. lia.
Qed.

(** The packing loop uses no more bins than any division of the customers,
    in their order, into segments within the capacity. *)
Lemma initGroups_fewest shuffled V cap demand gs segs :
  initGroups shuffled V cap demand = Ok gs →
  Forall (λ c, 0 ≤ load demand [c]) shuffled →
  concat segs = shuffled → Forall (λ s, load demand s ≤ cap) segs →
  size gs ≤ Z.max V (size segs).
Proof.
  unfold initGroups. intros Hg Hnn <- Hcap.
  destruct (pack (concat segs) demand cap [] [] 0) as [[groups cur]|e] eqn:Hp;
    simpl in Hg; [|done].
  injection Hg as <-. rewrite length_padGroups.
  enough (size (match cur with [] => groups | _ :: _ => groups ++ [cur] end) ≤ size segs)
    by lia.
  destruct segs as [|s segs].
  { injection Hp as <- <-. done. }
  apply Forall_cons in Hcap as [Hs Hcap].
  assert (Forall (Forall (λ c, 0 ≤ load demand [c])) (s :: segs)) as Hnn'
    by (by apply Forall_concat).
  apply Forall_cons in Hnn' as [Hnn1 Hnn2].
  cbn [concat] in Hp. change 0 with (load demand []) in Hp. rewrite pack_app in Hp.
  destruct (pack s demand cap [] [] (load demand [])) as [[g1 c1]|] eqn:Hp1; [|done].
  cbn [mbind res_bind] in Hp.
  eapply (pack_segment _ _ _ _ _ _ _ O 0) in Hp1 as [Hc1 Hp1];
    [|done|by rewrite Z.add_0_l|done|done|right; done].
  pose proof (load_nonneg _ _ Hnn1) as Hs0.
  eapply pack_segments in Hp; [|done|done| |done|exact Hp1]; [|lia].
  unfold size. destruct cur; [simpl in *; lia|]. rewrite length_app. simpl in *. lia.
Qed.

Lemma length_decodeSeq v depot : size (decodeSeq v depot) ≤ Z.of_nat (count 0 v) + 1.
Proof.
  destruct (decodeSeq_inverse depot v) as [Hlen _]. unfold size. rewrite Hlen.
  destruct (trailingEmpty v); lia.
Qed.

(** ** Evaluator: the distance matrix *)

Lemma binary_round_aux_opp prec emax s m e l :
  binary_round_aux prec emax (negb s) m e l = SFopp (binary_round_aux prec emax s m e l).
Proof.
  unfold binary_round_aux. destruct (shr_fexp _ _ _ _ _) as [mrs e'].
  destruct (shr_fexp _ _ _ _ _) as [mrs' e'']. destruct (shr_m mrs'); [done| |done].
  by destruct (e'' <=? emax - prec).
Qed.

Lemma binary_round_opp prec emax s m e :
  binary_round prec emax (negb s) m e = SFopp (binary_round prec emax s m e).
Proof.
  unfold binary_round. destruct (shl_align _ _ _) as [mz ez]. apply binary_round_aux_opp.
Qed.

Lemma binary_normalize_opp prec emax m e :
  sameMagnitude (binary_normalize prec emax (- m) e false)
                (binary_normalize prec emax m e false).
Proof.
  destruct m as [|p|p]; simpl.
  - by left.
  - right. apply (binary_round_opp prec emax false).
  - right. apply (binary_round_opp prec emax true).
Qed.

Lemma SFsub_swap prec emax a b :
  sameMagnitude (SFsub prec emax a b) (SFsub prec emax b a).
Proof.
  destruct a as [sa|sa| |sa ma ea], b as [sb|sb| |sb mb eb];
    try (repeat match goal with s : bool |- _ => destruct s end;
         simpl; ((by left) || (by right))).
  unfold SFsub. rewrite (Z.min_comm eb ea).
  set (x := cond_Zopp sa _). set (y := cond_Zopp sb _).
  replace (x - y) with (- (y - x)) by lia. apply binary_normalize_opp.
Qed.

Lemma SFmul_square prec emax a b :
  sameMagnitude a b → SFmul prec emax a a = SFmul prec emax b b.
Proof.
  intros [->| ->]; [done|]. destruct b as [s|s| |s m e]; simpl; try done;
    by destruct s.
Qed.

(** [(x - y) * (x - y)] and [(y - x) * (y - x)] are the same [double]. *)
Lemma square_sub_swap (x y : float) : ((x - y) * (x - y) = (y - x) * (y - x))%float.
Proof.
  apply Prim2SF_inj. rewrite !mul_spec, !sub_spec. apply SFmul_square, SFsub_swap.
Qed.

Lemma euclidDist_sym x1 y1 x2 y2 : euclidDist x1 y1 x2 y2 = euclidDist x2 y2 x1 y1.
Proof.
  unfold euclidDist. by rewrite (square_sub_swap x1 x2), (square_sub_swap y1 y2).
Qed.

Lemma size_buildDist coords : size (buildDist coords) = size coords.
Proof.
  unfold buildDist, distMatrix, size. rewrite length_fmap, length_seqZ. lia.
Qed.

Lemma buildDist_square coords :
  Forall (λ row, size row = size coords) (buildDist coords).
Proof.
  unfold buildDist, distMatrix. apply Forall_fmap, Forall_forall. intros i _. simpl.
  unfold size. rewrite length_fmap, length_seqZ. lia.
Qed.

Lemma entry_buildDist coords i j :
  0 ≤ i < size coords → 0 ≤ j < size coords →
  entry (buildDist coords) i j =
    Ok (if (1 <=? i) && (1 <=? j)
        then euclidDist (nth (Z.to_nat i) coords (0, 0)%float).1
                        (nth (Z.to_nat i) coords (0, 0)%float).2
                        (nth (Z.to_nat j) coords (0, 0)%float).1
                        (nth (Z.to_nat j) coords (0, 0)%float).2
        else 0%float).
Proof.
  intros Hi Hj. destruct (buildDist_lookup coords i j Hi Hj) as (row & Hrow & Hd).
  unfold entry. assert (at_ VDist (buildDist coords) i = Ok row) as ->.
  { apply at_Ok. split; [lia|done]. }
  simpl. apply at_Ok. split; [lia|done].
Qed.

Lemma entry_outside coords i j :
  ¬ (0 ≤ i < size coords ∧ 0 ≤ j < size coords) →
  entry (buildDist coords) i j = Err (OutOfRange VDist).
Proof.
  intros Hout. unfold entry.
  destruct (at_ VDist (buildDist coords) i) as [row|e] eqn:Hrow; simpl.
  - pose proof Hrow as [Hi Hl]%at_Ok.
    pose proof (lookup_lt_Some _ _ _ Hl) as Hlt.
    pose proof (size_buildDist coords) as Hs. unfold size in Hs.
    assert (size row = size coords) as Hr.
    { pose proof (buildDist_square coords) as Hsq.
      eapply Forall_forall in Hsq; [done|]. by eapply list_elem_of_lookup_2. }
    unfold at_. destruct (Z.ltb_spec j 0); [done|].
    destruct (row !! Z.to_nat j) eqn:Hj; [|done].
    apply lookup_lt_Some in Hj. unfold size in *. lia.
  - unfold at_ in Hrow. destruct (i <? 0); [by injection Hrow as <-|].
    destruct (buildDist coords !! Z.to_nat i); [done|by injection Hrow as <-].
Qed.

(** ** Evaluator: the order of [double] *)

Lemma SFcompare_lt_trans a b c :
  SFcompare a b = Some Lt → SFcompare b c = Some Lt → SFcompare a c = Some Lt.
Proof.
  destruct a as [sa|sa| |sa ma ea], b as [sb|sb| |sb mb eb], c as [sc|sc| |sc mc ec];
    repeat match goal with s : bool |- _ => destruct s end; simpl; try done.
  all: repeat match goal with
       | |- context [Z.compare ?x ?y] => destruct (Z.compare_spec x y); try subst
       end; try done; try lia.
  all: change (Pos.compare_cont Eq ?x ?y) with (Pos.compare x y).
  all: repeat match goal with
       | |- context [Pos.compare ?x ?y] => destruct (Pos.compare_spec x y); try subst
       end; simpl; try done; try lia.
Qed.

Lemma SFcompare_le_lt_trans a b c :
  SFcompare a b = Some Eq → SFcompare b c = Some Lt → SFcompare a c = Some Lt.
Proof.
  destruct a as [sa|sa| |sa ma ea], b as [sb|sb| |sb mb eb], c as [sc|sc| |sc mc ec];
    repeat match goal with s : bool |- _ => destruct s end; simpl; try done.
  all: repeat match goal with
       | |- context [Z.compare ?x ?y] => destruct (Z.compare_spec x y); try subst
       end; try done; try lia.
  all: change (Pos.compare_cont Eq ?x ?y) with (Pos.compare x y).
  all: repeat match goal with
       | |- context [Pos.compare ?x ?y] => destruct (Pos.compare_spec x y); try subst
       end; simpl; try done; try lia.
Qed.

Lemma SFcompare_irrefl a : SFcompare a a ≠ Some Lt.
Proof.
  destruct a as [s|s| |s m e]; simpl; try done; destruct s; try done;
    rewrite Z.compare_refl; change (Pos.compare_cont Eq m m) with (Pos.compare m m);
    by rewrite Pos.compare_refl.
Qed.

Lemma ltb_trans (a b c : float) :
  (a <? b)%float = true → (b <? c)%float = true → (a <? c)%float = true.
Proof.
  rewrite !ltb_spec. unfold SFltb.
  destruct (SFcompare (Prim2SF a) (Prim2SF b)) as [[]|] eqn:Hab; try done.
  destruct (SFcompare (Prim2SF b) (Prim2SF c)) as [[]|] eqn:Hbc; try done.
  by rewrite (SFcompare_lt_trans _ _ _ Hab Hbc).
Qed.

Lemma leb_ltb_trans (a b c : float) :
  (a <=? b)%float = true → (b <? c)%float = true → (a <? c)%float = true.
Proof.
  rewrite leb_spec, !ltb_spec. unfold SFleb, SFltb.
  destruct (SFcompare (Prim2SF a) (Prim2SF b)) as [[]|] eqn:Hab; try done;
  destruct (SFcompare (Prim2SF b) (Prim2SF c)) as [[]|] eqn:Hbc; try done; intros _ _.
  - by rewrite (SFcompare_le_lt_trans _ _ _ Hab Hbc).
  - by rewrite (SFcompare_lt_trans _ _ _ Hab Hbc).
Qed.

Lemma ltb_irrefl (a : float) : (a <? a)%float = false.
Proof.
  rewrite ltb_spec. unfold SFltb. pose proof (SFcompare_irrefl (Prim2SF a)).
  by destruct (SFcompare _ _) as [[]|].
Qed.

(** ** Evaluator: the individual that [findBestIndividual] selects *)

Lemma bestLoop_spec populationSeq depot dist i bestCost bestIdx bestCost' bestIdx' :
  bestLoop populationSeq depot dist i bestCost bestIdx = Ok (bestCost', bestIdx') →
  ∃ costs, costsOf populationSeq depot dist costs ∧
    ((bestIdx' = bestIdx ∧ bestCost' = bestCost ∧
      Forall (λ c, (c <? bestCost)%float = false) costs) ∨
     (∃ k, bestIdx' = i + Z.of_nat k ∧ firstLeast costs bestCost k bestCost')).
Proof.
  revert i bestCost bestIdx.
  induction populationSeq as [|v rest IH]; intros i bc bi Hr.
  { injection Hr as <- <-. exists []. split; [constructor|]. left. by split_and!. }
  cbn [bestLoop] in Hr.
  destruct (totalCost (decodeSeq v depot) dist) as [c|] eqn:Hc; [|done].
  cbn [mbind res_bind] in Hr.
  destruct (c <? bc)%float eqn:Hlt;
    apply IH in Hr as (costs & Hcosts & Hr); exists (c :: costs);
    (split; [by constructor|]).
  - right. destruct Hr as [(-> & -> & Hall)|(k & -> & Hk & Hlt' & Hall & Hearlier)].
    + exists O. split; [lia|]. split_and!; [done|done| |intros; lia].
      constructor; [apply ltb_irrefl|done].
    + exists (S k). split; [lia|]. split_and!; [done|by eapply ltb_trans| |].
      * constructor; [|done]. destruct (c <? bestCost')%float eqn:Hcb; [|done].
        pose proof (ltb_trans _ _ _ Hcb Hlt') as Hcc. by rewrite ltb_irrefl in Hcc.
      * intros [|j] c' Hj; simpl; [|apply Hearlier; lia].
        intros [= <-]. destruct (c <=? bestCost')%float eqn:Hcb; [|done].
        pose proof (leb_ltb_trans _ _ _ Hcb Hlt') as Hcc. by rewrite ltb_irrefl in Hcc.
  - destruct Hr as [(-> & -> & Hall)|(k & -> & Hk & Hlt' & Hall & Hearlier)].
    + left. split_and!; [done..|]. by constructor.
    + right. exists (S k). split; [lia|]. split_and!; [done|done| |].
      * constructor; [|done]. destruct (c <? bestCost')%float eqn:Hcb; [|done].
        by rewrite (ltb_trans _ _ _ Hcb Hlt') in Hlt.
      * intros [|j] c' Hj; simpl; [|apply Hearlier; lia].
        intros [= <-]. destruct (c <=? bestCost')%float eqn:Hcb; [|done].
        by rewrite (leb_ltb_trans _ _ _ Hcb Hlt') in Hlt.
Qed.

(** ** Evaluator: the cost of a route, leg by leg, and the nodes it reads *)

Lemma routeCostLoop_legs k route dist (i : nat) cost :
  route ≠ [] → (length route - 1 - i ≤ k)%nat →
  routeCostLoop k route dist (Z.of_nat i) cost = costLegs (drop i route) dist cost.
Proof.
  intros Hne. revert i cost. induction k as [|k IH]; intros i cost Hk;
    cbn [routeCostLoop].
  { destruct (drop i route) as [|a [|b rest]] eqn:Hd; [done..|].
    apply (f_equal length) in Hd. rewrite length_drop in Hd. simpl in Hd. lia. }
  rewrite sizeMinus1_nonempty by done. unfold size.
  destruct (Z.ltb_spec (Z.of_nat i) (Z.of_nat (length route) - 1)) as [Hlt|Hge].
  - destruct (lookup_lt_is_Some_2 route i) as [a Ha]; [lia|].
    destruct (lookup_lt_is_Some_2 route (S i)) as [b Hb]; [lia|].
    rewrite (drop_S _ _ _ Ha), (drop_S _ _ _ Hb).
    assert (at_ VRoute route (Z.of_nat i) = Ok a) as ->.
    { apply at_Ok. rewrite Nat2Z.id. split; [lia|done]. }
    assert (at_ VRoute route (Z.of_nat i + 1) = Ok b) as ->.
    { apply at_Ok. replace (Z.to_nat (Z.of_nat i + 1)) with (S i) by lia. split; [lia|done]. }
    cbn [mbind res_bind costLegs]. unfold entry.
    destruct (at_ VDist dist a) as [row|]; [|done]. cbn [mbind res_bind].
    destruct (at_ VDist row b) as [d|]; [|done]. cbn [mbind res_bind].
    replace (Z.of_nat i + 1) with (Z.of_nat (S i)) by lia. rewrite IH by lia.
    by rewrite (drop_S _ _ _ Hb).
  - destruct (drop i route) as [|a [|b rest]] eqn:Hd; [done..|].
    apply (f_equal length) in Hd. rewrite length_drop in Hd. simpl in Hd. lia.
Qed.

Lemma routeCost_legs route dist :
  route ≠ [] → routeCost route dist = round2 <$> costLegs route dist 0%float.
Proof.
  intros Hne. unfold routeCost. by rewrite (routeCostLoop_legs _ _ _ O) by (done || lia).
Qed.

Lemma entry_square s dist a b :
  square s dist →
  (∃ d, entry dist a b = Ok d) ↔ 0 ≤ a < s ∧ 0 ≤ b < s.
Proof.
  intros [Hs Hrows]. unfold entry. split.
  - intros [d Hd]. destruct (at_ VDist dist a) as [row|] eqn:Hrow; [|done].
    simpl in Hd. apply at_Ok in Hrow as [Ha Hrow]. apply at_Ok in Hd as [Hb Hd].
    assert (size row = s) as Hr.
    { eapply Forall_forall in Hrows; [done|]. by eapply list_elem_of_lookup_2. }
    apply lookup_lt_Some in Hrow, Hd. unfold size in *. lia.
  - intros [Ha Hb]. destruct (at_in_range VDist dist a) as [row Hrow]; [lia|].
    rewrite Hrow. simpl. apply at_Ok in Hrow as [_ Hrow].
    assert (size row = s) as Hr.
    { eapply Forall_forall in Hrows; [done|]. by eapply list_elem_of_lookup_2. }
    apply at_in_range. lia.
Qed.

Lemma entry_fault s dist a b :
  square s dist → ¬ (0 ≤ a < s ∧ 0 ≤ b < s) → entry dist a b = Err (OutOfRange VDist).
Proof.
  intros Hsq Hout. destruct (entry dist a b) as [d|e] eqn:He.
  - destruct Hout. eapply entry_square; [done|by eexists].
  - unfold entry, at_ in He. f_equal.
    destruct (a <? 0); [by injection He as <-|].
    destruct (dist !! Z.to_nat a) as [row|]; [|by injection He as <-]. simpl in He.
    destruct (b <? 0); [by injection He as <-|].
    destruct (row !! Z.to_nat b); [done|by injection He as <-].
Qed.

Lemma costLegs_in_range s dist a rest cost :
  square s dist →
  (∃ c, costLegs (a :: rest) dist cost = Ok c) ↔
  rest = [] ∨ Forall (λ x, 0 ≤ x < s) (a :: rest).
Proof.
  intros Hsq. revert a cost. induction rest as [|b rest IH]; intros a cost.
  { simpl. split; [by left|by eexists]. }
  cbn [costLegs]. split.
  - intros [c Hc]. right. destruct (entry dist a b) as [d|] eqn:Hd; [|done].
    cbn [mbind res_bind] in Hc.
    assert (0 ≤ a < s ∧ 0 ≤ b < s) as [Ha Hb] by (eapply entry_square; [done|by eexists]).
    constructor; [done|].
    destruct (proj1 (IH b _) (ex_intro _ c Hc)) as [->|H]; [|done].
    by constructor.
  - intros [?|[Ha [Hb Hrest]%Forall_cons]%Forall_cons]; [done|].
    destruct (proj2 (entry_square s dist a b Hsq)) as [d ->]; [done|].
    cbn [mbind res_bind]. apply IH. right. by constructor.
Qed.

Lemma costLegs_fault s dist route cost e :
  square s dist → costLegs route dist cost = Err e → e = OutOfRange VDist.
Proof.
  intros Hsq. revert cost. induction route as [|a [|b rest] IH]; intros cost; [done..|].
  cbn [costLegs]. destruct (entry dist a b) as [d|e'] eqn:Hd; cbn [mbind res_bind].
  - apply IH.
  - intros [= <-]. destruct (decide (0 ≤ a < s ∧ 0 ≤ b < s)) as [Hin|Hout].
    + destruct (proj2 (entry_square s dist a b Hsq) Hin). congruence.
    + rewrite (entry_fault s) in Hd by done. congruence.
Qed.

Lemma routeCost_routeOf s dist depot g :
  square s dist →
  (∃ c, routeCost (routeOf depot g) dist = Ok c) ↔
  0 ≤ depot < s ∧ Forall (λ x, 0 ≤ x < s) g.
Proof.
  intros Hsq. rewrite routeCost_legs by done. unfold routeOf.
  transitivity (∃ c, costLegs (depot :: g ++ [depot]) dist 0%float = Ok c).
  { split; intros [c Hc].
    - destruct (costLegs _ _ _); [by eexists|done].
    - rewrite Hc. by eexists. }
  rewrite (costLegs_in_range s) by done. rewrite Forall_cons, Forall_app. split.
  - intros [Hnil|(? & ? & ?)]; [by destruct g|done].
  - intros [? ?]. right. split; [done|]. split; [done|]. by constructor.
Qed.

Lemma totalCostLoop_in_range s dist depot gs sum :
  square s dist →
  (∃ c, totalCostLoop (routeOf depot <$> gs) dist sum = Ok c) ↔
  Forall (λ g, 0 ≤ depot < s ∧ Forall (λ x, 0 ≤ x < s) g) gs.
Proof.
  intros Hsq. revert sum. induction gs as [|g gs IH]; intros sum.
  { simpl. split; [by constructor|by eexists]. }
  cbn [fmap list_fmap totalCostLoop]. rewrite Forall_cons, <- routeCost_routeOf by done.
  split.
  - intros [c Hc]. destruct (routeCost (routeOf depot g) dist) as [c1|] eqn:Hc1; [|done].
    cbn [mbind res_bind] in Hc. split; [by eexists|]. apply (IH (sum + c1)%float). by eexists.
  - intros [[c1 ->] Hgs]. cbn [mbind res_bind]. by apply IH.
Qed.

(** The cost of a chromosome is computed without a read outside the
    distance matrix exactly when the matrix has a row for every customer of
    the chromosome and for the depot. *)
Lemma totalCost_in_range v depot coords :
  (∃ c, totalCost (decodeSeq v depot) (buildDist coords) = Ok c) ↔
  v = [] ∨ (0 ≤ depot < size coords ∧ Forall (λ x, 0 ≤ x < size coords) (tokens v)).
Proof.
  assert (square (size coords) (buildDist coords)) as Hsq.
  { split; [apply size_buildDist|apply buildDist_square]. }
  destruct (decodeSeq_routes v depot) as (gs & Hdec & Hgs & Hc).
  unfold totalCost. rewrite Hdec.
  transitivity (∃ c, totalCostLoop (routeOf depot <$> gs) (buildDist coords) 0%float = Ok c).
  { split; intros [c Hc'].
    - destruct (totalCostLoop _ _ _); [by eexists|done].
    - rewrite Hc'. by eexists. }
  rewrite (totalCostLoop_in_range (size coords)) by done.
  rewrite <- Hc, Forall_concat. split.
  - intros Hall. destruct gs as [|g gs].
    + left. destruct v as [|x v]; [done|]. exfalso.
      pose proof (decodeSeq_inverse depot (x :: v)) as [_ Hj]. rewrite Hdec in Hj.
      simpl in Hj. by destruct (trailingEmpty (x :: v)).
    + right. pose proof Hall as [[Hd _] _]%Forall_cons. split; [done|].
      eapply Forall_impl; [done|]. by intros ? [_ ?].
  - intros [->|[Hd Hall]].
    + simpl in Hdec. destruct gs; [constructor|done].
    + eapply Forall_impl; [done|]. by intros ? ?.
Qed.

Lemma routeCost_fault s dist route e :
  square s dist → route ≠ [] → routeCost route dist = Err e → e = OutOfRange VDist.
Proof.
  intros Hsq Hne. rewrite routeCost_legs by done.
  destruct (costLegs route dist 0%float) as [c|e'] eqn:Hc; simpl; [done|].
  intros [= <-]. exact (costLegs_fault _ _ _ _ _ Hsq Hc).
Qed.

Lemma totalCostLoop_fault s dist depot gs sum e :
  square s dist →
  totalCostLoop (routeOf depot <$> gs) dist sum = Err e → e = OutOfRange VDist.
Proof.
  intros Hsq. revert sum. induction gs as [|g gs IH]; intros sum; [done|].
  cbn [fmap list_fmap totalCostLoop].
  destruct (routeCost (routeOf depot g) dist) as [c|e'] eqn:Hc; cbn [mbind res_bind].
  - apply IH.
  - intros [= <-]. eapply routeCost_fault; [done| |done]. by unfold routeOf.
Qed.

(** ** The population, repaired *)

Lemma repairSeq_mono fuel fuel' v V n x :
  repairSeq fuel v V n = Some x → (fuel ≤ fuel')%nat → repairSeq fuel' v V n = Some x.
Proof.
  unfold repairSeq, repairZero. intros H Hle.
  destruct (whileLoop fuel _ _) as [r|] eqn:Hw; [|done].
  by rewrite (whileLoop_mono _ _ _ _ _ Hw Hle).
Qed.

Lemma repairAll_mono fuel fuel' pop V n x :
  repairAll fuel pop V n = Some x → (fuel ≤ fuel')%nat → repairAll fuel' pop V n = Some x.
Proof.
  revert x. induction pop as [|v pop IH]; intros x H Hle; [done|]. cbn [repairAll] in *.
  destruct (repairSeq fuel v V n) as [r|] eqn:Hr; [|done].
  rewrite (repairSeq_mono _ _ _ _ _ _ Hr Hle). destruct r as [r|e]; [|done].
  destruct (repairAll fuel pop V n) as [rs|] eqn:Hrs; [|done].
  by rewrite (IH _ eq_refl Hle).
Qed.

Lemma repairAll_Ok fuel pop V n rs :
  repairAll fuel pop V n = Some (Ok rs) ↔
  Forall2 (λ v r, repairSeq fuel v V n = Some (Ok r)) pop rs.
Proof.
  revert rs. induction pop as [|v pop IH]; intros rs; cbn [repairAll].
  { split; [intros [= <-]; constructor|by intros ->%Forall2_nil_inv_l]. }
  split.
  - destruct (repairSeq fuel v V n) as [[r|]|] eqn:Hr; [|done..].
    destruct (repairAll fuel pop V n) as [[rs'|]|] eqn:Hrs; [|done..].
    intros [= <-]. constructor; [done|]. by apply IH.
  - intros (r & rs' & Hr & Hrs & ->)%Forall2_cons_inv_l. rewrite Hr.
    apply IH in Hrs. by rewrite Hrs.
Qed.

Lemma repairAll_returns pop V n :
  Forall (λ v, ∃ fuel r, repairSeq fuel v V n = Some (Ok r)) pop →
  ∃ fuel rs, repairAll fuel pop V n = Some (Ok rs).
Proof.
  induction 1 as [|v pop (f1 & r & Hr) _ (f2 & rs & Hrs)].
  { by exists O, []. }
  exists (f1 `max` f2)%nat, (r :: rs). cbn [repairAll].
  rewrite (repairSeq_mono _ _ _ _ _ _ Hr (Nat.le_max_l _ _)).
  by rewrite (repairAll_mono _ _ _ _ _ _ Hrs (Nat.le_max_r _ _)).
Qed.

Lemma initPopulationSeq_Ok shuffle V n cap demand :
  shuffles n shuffle → covers demand n →
  ∃ pop, initPopulationSeq shuffle V n cap demand = Ok pop.
Proof.
  intros Hs Hd. unfold initPopulationSeq.
  induction (seq 0 population) as [|p ps [pop IH]]; [by eexists|]. simpl.
  destruct (initSeq_Ok _ V cap demand n (Hs p) Hd) as [v ->]. simpl.
  rewrite IH. by eexists.
Qed.

(** The repaired population: fifty chromosomes, each with every customer
    once and [vehicle - 1] separators. *)
Lemma generatePopulation_sound fuel shuffle V n cap demand pop :
  shuffles n shuffle →
  generatePopulation fuel shuffle V n cap demand = Some (Ok pop) →
  length pop = population ∧ Forall (valid n V) pop.
Proof.
  intros Hs. unfold generatePopulation.
  destruct (initPopulationSeq shuffle V n cap demand) as [pop0|] eqn:Hp; [|done].
  destruct (initPopulationSeq_individuals _ _ _ _ _ _ Hp) as [Hlen Hin].
  intros Hr%repairAll_Ok. split.
  { by rewrite <- (Forall2_length _ _ _ Hr). }
  apply Forall_forall. intros r Hr'.
  apply list_elem_of_lookup in Hr' as [i Hi].
  destruct (Forall2_lookup_r _ _ _ _ _ Hr Hi) as (v & Hv & Hvr).
  destruct (Hin v) as (p & _ & Hpv); [by eapply list_elem_of_lookup_2|].
  assert (generateSeq fuel (shuffle p (customers n)) V n cap demand = Some (Ok r)) as Hg.
  { unfold generateSeq. by rewrite Hpv. }
  destruct (generateSeq_sound _ _ _ _ _ _ _ (Hs p) Hg) as (_ & _ & _ & _ & Ht & Hc).
  split; [|done]. rewrite Ht. apply Hs.
Qed.

Lemma generatePopulation_returns_iff shuffle V n cap demand :
  shuffles n shuffle →
  (∃ fuel pop, generatePopulation fuel shuffle V n cap demand = Some (Ok pop)) ↔
  covers demand n ∧ 0 ≤ n + 1 ∧ 1 ≤ V ∧ ¬ stuck n V cap demand.
Proof.
  intros Hs. split.
  - intros (fuel & pop & Hg). unfold generatePopulation in Hg.
    destruct (initPopulationSeq shuffle V n cap demand) as [pop0|] eqn:Hp; [|done].
    destruct (initPopulationSeq_individuals _ _ _ _ _ _ Hp) as [Hlen Hin].
    apply repairAll_Ok in Hg.
    destruct pop0 as [|v pop0]; [done|].
    apply Forall2_cons_inv_l in Hg as (r & rs & Hr & _ & _).
    destruct (Hin v) as (p & _ & Hpv); [by left|].
    apply (generateSeq_returns_iff _ _ _ _ _ (Hs p)).
    exists fuel, r. unfold generateSeq. by rewrite Hpv.
  - intros Hcond. pose proof Hcond as (Hd & _).
    destruct (initPopulationSeq_Ok shuffle V n cap demand Hs Hd) as [pop0 Hp].
    destruct (initPopulationSeq_individuals _ _ _ _ _ _ Hp) as [Hlen Hin].
    destruct (repairAll_returns pop0 V n) as (fuel & rs & Hrs).
    { apply Forall_forall. intros v Hv. destruct (Hin v Hv) as (p & _ & Hpv).
      destruct (proj2 (generateSeq_returns_iff _ V n cap demand (Hs p)) Hcond)
        as (fuel & r & Hg).
      exists fuel, r. unfold generateSeq in Hg. by rewrite Hpv in Hg. }
    exists fuel, rs. unfold generatePopulation. by rewrite Hp.
Qed.

(** ** Evaluator: when [findBestIndividual] returns *)

Lemma bestLoop_returns pop depot dist i bestCost bestIdx :
  (∃ r, bestLoop pop depot dist i bestCost bestIdx = Ok r) ↔
  Forall (λ v, ∃ c, totalCost (decodeSeq v depot) dist = Ok c) pop.
Proof.
  revert i bestCost bestIdx. induction pop as [|v pop IH]; intros i bc bi; cbn [bestLoop].
  { split; [by constructor|by eexists]. }
  rewrite Forall_cons. split.
  - intros [r Hr]. destruct (totalCost (decodeSeq v depot) dist) as [c|]; [|done].
    cbn [mbind res_bind] in Hr. split; [by eexists|].
    destruct (c <? bc)%float; eapply IH; by eexists.
  - intros [[c ->] Hall]. cbn [mbind res_bind]. destruct (c <? bc)%float; by apply IH.
Qed.

Lemma findBestIndividual_returns_iff pop depot coords :
  (∃ r, findBestIndividual pop depot coords = Ok r) ↔
  Forall (λ v, v = [] ∨
               (0 ≤ depot < size coords ∧ Forall (λ x, 0 ≤ x < size coords) (tokens v)))
         pop.
Proof.
  unfold findBestIndividual. rewrite bestLoop_returns.
  apply Forall_iff. intros v. apply totalCost_in_range.
Qed.

(** ** [initsolution]: the padding loop *)

Lemma padLoop_spec fuel nhom vehicle gs :
  padLoop fuel nhom vehicle = Some gs →
  ∃ k : nat, gs = nhom ++ replicate k [] ∧ to_size vehicle ≤ size gs ∧
             (k = O ∨ size gs = to_size vehicle).
Proof.
  revert nhom. induction fuel as [|fuel IH]; intros nhom; [done|]. cbn [padLoop].
  destruct (Z.ltb_spec (size nhom) (to_size vehicle)) as [Hlt|Hge].
  - intros (k & -> & Hle & Hk)%IH. exists (S k). split; [by rewrite <- app_assoc|].
    split; [done|]. right. destruct Hk as [->|Hk]; [|done].
    rewrite app_nil_r in *. unfold size in *. rewrite length_app in *. simpl in *. lia.
  - intros [= <-]. exists O. rewrite app_nil_r. split_and!; [done|lia|by left].
Qed.

Lemma padLoop_S fuel nhom vehicle :
  padLoop (S fuel) nhom vehicle =
  if size nhom <? to_size vehicle then padLoop fuel (nhom ++ [[]]) vehicle else Some nhom.
Proof. done. Qed.

Lemma padLoop_returns nhom vehicle :
  0 ≤ vehicle →
  padLoop (S (Z.to_nat (vehicle - size nhom))) nhom vehicle = Some (padGroups nhom vehicle).
Proof.
  intros HV. unfold padGroups.
  remember (Z.to_nat (vehicle - size nhom)) as k eqn:Hk.
  revert nhom Hk. induction k as [|k IH]; intros nhom Hk;
    rewrite padLoop_S, to_size_nonneg by done.
  - destruct (Z.ltb_spec (size nhom) vehicle); [lia|]. simpl. by rewrite app_nil_r.
  - destruct (Z.ltb_spec (size nhom) vehicle); [|lia].
    rewrite IH.
    + simpl. by rewrite <- app_assoc.
    + unfold size in *. rewrite length_app. simpl. lia.
Qed.

(** ** [checkSolution]: what it reads of a route *)

(** [checkSolution] reads a route between its ends only. *)
Lemma routesLoop_interior routes routes' demand cap visited :
  Forall2 (λ r r', r ≠ [] ∧ r' ≠ [] ∧ interior r = interior r') routes routes' →
  routesLoop routes demand cap visited = routesLoop routes' demand cap visited.
Proof.
  intros H. revert visited. induction H as [|r r' routes routes' (Hr & Hr' & Hi) _ IH];
    intros visited; [done|].
  cbn [routesLoop]. rewrite !routeDemand_ids, !visitLoop_interior, Hi by done.
  destruct (demandIds _ _ _) as [d|]; [|done]. cbn [mbind res_bind].
  destruct (cap <? d); [done|].
  destruct (visitIds _ _) as [[visited'|]|]; cbn [mbind res_bind]; [|done..].
  apply IH.
Qed.

(** ** [routeDemand]: the entries it reads *)

Lemma demandIds_in_range ids demand sum :
  (∃ d, demandIds ids demand sum = Ok d) ↔ Forall (λ c, 0 ≤ c < size demand) ids.
Proof.
  revert sum. induction ids as [|c ids IH]; intros sum; simpl.
  { split; [by constructor|by eexists]. }
  rewrite Forall_cons. split.
  - intros [d Hd]. destruct (at_ VDemand demand c) as [dc|] eqn:Hc; [|done].
    simpl in Hd. apply at_Ok in Hc as [Hc0 Hc%lookup_lt_Some]. split.
    + unfold size. lia.
    + apply (IH (to_int (sum + dc))). by eexists.
  - intros [Hc Hids]. destruct (at_in_range VDemand demand c Hc) as [dc ->]. simpl.
    by apply IH.
Qed.

(** * The claims of the specification *)

(** C1. Every chromosome that the generator produces and that is then passed
    through [repairZero] and [repairCustomer] holds every customer id of
    [2..n] exactly once among its tokens: its tokens are a permutation of
    the ids, so none is duplicated and none is omitted. The pipeline returns
    such a chromosome exactly on the instances whose demand vector covers
    the customers, with [0 <= n + 1] and at least one vehicle, the [stuck]
    instance apart. *)
Theorem generated_repaired_each_customer_once shuffled V n cap demand :
  shuffleOf n shuffled →
  (∀ fuel r, generateSeq fuel shuffled V n cap demand = Some (Ok r) →
     tokens r ≡ₚ customers n ∧ NoDup (tokens r) ∧
     ∀ c, 2 ≤ c ≤ n → count c (tokens r) = 1%nat)
  ∧ ((∃ fuel r, generateSeq fuel shuffled V n cap demand = Some (Ok r)) ↔
     covers demand n ∧ 0 ≤ n + 1 ∧ 1 ≤ V ∧ ¬ stuck n V cap demand).
Proof.
  intros Hs. split.
  - intros fuel r Hr.
    destruct (generateSeq_sound _ _ _ _ _ _ _ Hs Hr) as (v & _ & _ & _ & Ht & _).
    rewrite Ht. split_and!; [done | by eapply shuffleOf_NoDup |].
    intros c Hc. apply count_NoDup; [by eapply shuffleOf_NoDup|].
    by eapply shuffleOf_elem.
  - by apply generateSeq_returns_iff.
Qed.

Lemma generated_repaired_each_customer_once_witness :
  shuffleOf 4 [3; 2; 4] ∧
  generateSeq 5 [3; 2; 4] 2 4 4 [0; 0; 4; 5; 3] = Some (Ok [3; 2; 0; 4]) ∧
  (tokens [3; 2; 0; 4] ≡ₚ customers 4 ∧ NoDup (tokens [3; 2; 0; 4]) ∧
   ∀ c, 2 ≤ c ≤ 4 → count c (tokens [3; 2; 0; 4]) = 1%nat).
Proof.
  assert (shuffleOf 4 [3; 2; 4]) as Hs by apply perm_swap.
  split; [exact Hs|]. split; [reflexivity|].
  exact (proj1 (generated_repaired_each_customer_once [3; 2; 4] 2 4 4 [0; 0; 4; 5; 3] Hs)
               5%nat [3; 2; 0; 4] eq_refl).
Defined.

(** C2. Every chromosome that the generator produces and that is then passed
    through [repairZero] and [repairCustomer] has exactly [vehicle - 1]
    separators: [repairZero] brings the count down to the target, and
    [repairCustomer] leaves every separator where it is and makes no new
    one. The pipeline returns on the instances named in C1. *)
Theorem generated_repaired_separator_count shuffled V n cap demand :
  shuffleOf n shuffled →
  (∀ fuel r, generateSeq fuel shuffled V n cap demand = Some (Ok r) →
     Z.of_nat (count 0 r) = V - 1)
  ∧ (∀ fuel v r, V - 1 ≤ Z.of_nat (count 0 v) → repairZero fuel v V = Some (Ok r) →
     Z.of_nat (count 0 r) = V - 1)
  ∧ (∀ v r, repairCustomer v n = Ok r →
     separators r = separators v ∧ count 0 r = count 0 v)
  ∧ ((∃ fuel r, generateSeq fuel shuffled V n cap demand = Some (Ok r)) ↔
     covers demand n ∧ 0 ≤ n + 1 ∧ 1 ≤ V ∧ ¬ stuck n V cap demand).
Proof.
  intros Hs. split_and!.
  - intros fuel r Hr.
    by destruct (generateSeq_sound _ _ _ _ _ _ _ Hs Hr) as (v & _ & _ & _ & _ & Hc).
  - intros fuel v r Hle Hr. by apply repairZero_sound in Hr as (_ & _ & Hc).
  - intros v r Hr. apply repairCustomer_separators in Hr.
    split; [done|by apply separators_count].
  - by apply generateSeq_returns_iff.
Qed.

Lemma generated_repaired_separator_count_witness :
  shuffleOf 4 [4; 3; 2] ∧
  generateSeq 5 [4; 3; 2] 2 4 4 [0; 0; 4; 5; 3] = Some (Ok [4; 3; 0; 2]) ∧
  Z.of_nat (count 0 [4; 3; 0; 2]) = 2 - 1.
Proof.
  assert (shuffleOf 4 [4; 3; 2]) as Hs.
  { unfold shuffleOf. change (customers 4) with [2; 3; 4].
    symmetry. apply (Permutation_rev [2; 3; 4]). }
  split; [exact Hs|]. split; [reflexivity|].
  exact (proj1 (generated_repaired_separator_count [4; 3; 2] 2 4 4 [0; 0; 4; 5; 3] Hs)
               5%nat [4; 3; 0; 2] eq_refl).
Defined.

(** C3. [repairZero] does not return on every chromosome with at least
    [vehicle - 1] separators: on the chromosome [[0; 2]], which the generator
    produces for one customer whose demand exceeds the capacity, and one
    vehicle, the [for] loop has no index to visit and the [while] loop around
    it runs for ever; so does the pipeline on that instance. *)
Theorem repairZero_loops_forever :
  shuffleOf 2 [2] ∧
  initSeq [2] 1 3 [0; 0; 5] = Ok [0; 2] ∧
  1 - 1 ≤ Z.of_nat (count 0 [0; 2]) ∧
  (∀ fuel, repairZero fuel [0; 2] 1 = None) ∧
  (∀ fuel, generateSeq fuel [2] 1 2 3 [0; 0; 5] = None).
Proof.
  split_and!.
  - unfold shuffleOf. reflexivity.
  - reflexivity.
  - vm_compute. discriminate.
  - intros fuel. unfold repairZero. by apply whileLoop_short.
  - intros fuel. apply generateSeq_stuck. split_and!; [done..|]. by exists 5.
Qed.

(** C4. On every chromosome that reaches [repairCustomer] from the generator
    and [repairZero], the number of slots holding a duplicate equals the
    number of missing ids (both are zero), and [repairCustomer] reads
    [missing] at no index outside it: it reads no vector out of range at
    all and returns the chromosome. *)
Theorem pipeline_missing_reads_in_range shuffled V n cap demand fuel v s :
  shuffleOf n shuffled →
  initSeq shuffled V cap demand = Ok v →
  repairZero fuel v V = Some (Ok s) →
  duplicateSlots s = length (missingIds s n) ∧ missingIds s n = [] ∧
  repairCustomer s n ≠ Err (OutOfRange VMissing) ∧
  (0 ≤ n + 1 → repairCustomer s n = Ok s).
Proof.
  intros Hs Hv Hz.
  destruct (initSeq_spec _ _ _ _ _ _ Hs Hv) as [Ht Hc].
  apply repairZero_sound in Hz as (Ht1 & _ & _); [|lia].
  assert (NoDup (tokens s)) as Hnd by (rewrite Ht1, Ht; by eapply shuffleOf_NoDup).
  assert (0 ≤ n + 1 → repairCustomer s n = Ok s) as Hid.
  { intros Hn. apply repairCustomer_id; [lia| |done]. rewrite Ht1, Ht.
    apply Forall_forall. intros x Hx. eapply shuffleOf_elem in Hx; [|done]. lia. }
  assert (missingIds s n = []) as Hmiss.
  { apply missingIds_nil. intros c Hc'. eapply shuffleOf_elem in Hc'; [|done].
    rewrite <- Ht, <- Ht1 in Hc'. by apply list_elem_of_filter in Hc' as [_ ?]. }
  split_and!; [ |done| |done].
  - by rewrite duplicateSlots_NoDup, Hmiss.
  - destruct (decide (0 ≤ n + 1)) as [Hn|Hn]; [by rewrite Hid|].
    unfold repairCustomer. by destruct (Z.ltb_spec (n + 1) 0); [|lia].
Qed.

Lemma pipeline_missing_reads_in_range_witness :
  shuffleOf 4 [2; 4; 3] ∧
  initSeq [2; 4; 3] 2 4 [0; 0; 4; 5; 3] = Ok [2; 0; 4; 0; 3] ∧
  repairZero 5 [2; 0; 4; 0; 3] 2 = Some (Ok [2; 4; 0; 3]) ∧
  duplicateSlots [2; 4; 0; 3] = length (missingIds [2; 4; 0; 3] 4) ∧
  missingIds [2; 4; 0; 3] 4 = [] ∧
  repairCustomer [2; 4; 0; 3] 4 ≠ Err (OutOfRange VMissing) ∧
  (0 ≤ 4 + 1 → repairCustomer [2; 4; 0; 3] 4 = Ok [2; 4; 0; 3]).
Proof.
  assert (shuffleOf 4 [2; 4; 3]) as Hs.
  { unfold shuffleOf. change (customers 4) with [2; 3; 4].
    apply perm_skip, perm_swap. }
  split; [exact Hs|]. split; [reflexivity|]. split; [reflexivity|].
  exact (pipeline_missing_reads_in_range [2; 4; 3] 2 4 4 [0; 0; 4; 5; 3] 5%nat
           [2; 0; 4; 0; 3] [2; 4; 0; 3] Hs eq_refl eq_refl).
Defined.

(** C5. The code breaks the stated order. The test for a separator next to
    another one and the erasure of the leftmost separator sit in the same
    iteration of the [for] loop, so a surplus separator goes from the left
    whether it has a separator next to it or not. On [[2; 3; 0; 4; 0; 0; 5]]
    with three vehicles the lone separator is erased and the adjacent pair
    is kept, where the stated order breaks up the pair; on
    [[2; 0; 0; 3; 0; 0]] the first pair loses both its separators and the
    second pair is kept, where the stated order takes one of each. With one
    separator too many and a customer at index 1, what goes is the leftmost
    separator, always. *)
Theorem repairZero_breaks_order :
  (3 - 1 ≤ Z.of_nat (count 0 [2; 3; 0; 4; 0; 0; 5]) ∧
   repairZero 5 [2; 3; 0; 4; 0; 0; 5] 3 = Some (Ok [2; 3; 4; 0; 0; 5]) ∧
   zeroRepairSpec [2; 3; 0; 4; 0; 0; 5] 3 = [2; 3; 0; 4; 0; 5] ∧
   repairZero 5 [2; 3; 0; 4; 0; 0; 5] 3
     ≠ Some (Ok (zeroRepairSpec [2; 3; 0; 4; 0; 0; 5] 3))) ∧
  (3 - 1 ≤ Z.of_nat (count 0 [2; 0; 0; 3; 0; 0]) ∧
   repairZero 5 [2; 0; 0; 3; 0; 0] 3 = Some (Ok [2; 3; 0; 0]) ∧
   zeroRepairSpec [2; 0; 0; 3; 0; 0] 3 = [2; 0; 3; 0] ∧
   repairZero 5 [2; 0; 0; 3; 0; 0] 3
     ≠ Some (Ok (zeroRepairSpec [2; 0; 0; 3; 0; 0] 3))) ∧
  (∀ fuel x y v V,
     y ≠ 0 → v ≠ [] → 1 ≤ V → Z.of_nat (count 0 (x :: y :: v)) = V →
     repairZero (S (S fuel)) (x :: y :: v) V
     = Some (Ok (removeLeftmost (x :: y :: v)))).
Proof.
  split_and!; [by vm_compute | reflexivity | reflexivity | by vm_compute
              | by vm_compute | reflexivity | reflexivity | by vm_compute |].
  intros fuel x y v V. apply repairZero_one_surplus.
Qed.

(** C6. On routes as the decoder builds them (not empty, with customer ids
    of [2..n] in the interior) and with the demand of every route an [int],
    [checkSolution] returns, and it returns [true] exactly when the demand
    of the interior of every route is at most the capacity and every id of
    [2..n] occurs exactly once in the interiors of all routes together; so
    it returns [false] whenever an id occurs there more than once.
    [routeDemand] is the demand of the interior. *)
Theorem checkSolution_iff routes demand cap n :
  0 ≤ n + 1 → n < size demand → Forall (wellFormed n) routes →
  Forall (λ route, INT_MIN ≤ load demand (interior route) ≤ INT_MAX) routes →
  ∃ b, checkSolution routes demand cap n = Ok b ∧
    (b = true ↔
       Forall (λ route, load demand (interior route) ≤ cap) routes ∧
       ∀ c, 2 ≤ c ≤ n → count c (concat (interior <$> routes)) = 1%nat) ∧
    (∀ c, (2 ≤ count c (concat (interior <$> routes)))%nat → b = false) ∧
    Forall (λ route, routeDemand route demand = Ok (load demand (interior route)))
           routes.
Proof.
  intros Hn Hd Hwf Hint.
  set (ids := concat (interior <$> routes)).
  set (v0 := replicate (Z.to_nat (n + 1)) false).
  assert (size v0 = n + 1) as Hv0.
  { unfold size, v0. rewrite length_replicate. lia. }
  assert (Forall (λ c, 2 ≤ c ≤ n) ids) as Hids.
  { apply Forall_concat, Forall_fmap, Forall_forall. intros r Hr.
    by eapply Forall_forall in Hwf as [_ ?]. }
  assert (∀ c, c ∈ ids → 2 ≤ c ≤ n) as Hin.
  { intros c Hc. by eapply Forall_forall in Hids. }
  pose proof (Forall_load_exact routes demand cap Hint) as Hexact.
  assert (∃ b, checkSolution routes demand cap n = Ok b ∧
    (b = true ↔
       Forall (λ route, to_int (load demand (interior route)) ≤ cap) routes ∧
       ∀ c, 2 ≤ c ≤ n → count c ids = 1%nat)) as (b & Hb & Hiff).
  { unfold checkSolution. destruct (Z.ltb_spec (n + 1) 0); [lia|]. fold v0.
    destruct (routesLoop_spec routes demand cap n v0 Hwf Hd Hv0) as (r & -> & Hr).
    simpl. fold ids in Hr. destruct r as [visited|].
    - destruct Hr as (Hl & [Hnd Hf] & ->).
      destruct (allVisited_spec (seqZ 2 (n - 1)) (mark ids v0)) as (b & -> & Hb).
      { rewrite size_mark, Hv0. apply Forall_forall. intros i Hi%elem_of_seqZ. lia. }
      exists b. split; [done|]. rewrite Hb, Forall_forall. split.
      + intros Hall. split; [done|]. intros c Hc. apply count_NoDup; [done|].
        specialize (Hall c). rewrite mark_lookup, elem_of_seqZ in Hall.
        * destruct Hall as [Hall|]; [lia| |done].
          unfold v0 in Hall. rewrite lookup_unvisited in Hall by lia. done.
        * lia.
        * rewrite Hv0. eapply Forall_impl; [exact Hids|]. simpl. lia.
      + intros [_ Hcount] i Hi%elem_of_seqZ. apply mark_lookup; [lia| |].
        * rewrite Hv0. eapply Forall_impl; [exact Hids|]. simpl. lia.
        * right. apply dec_stable. intros Hni%count_zero_iff.
          rewrite Hcount in Hni by lia. done.
    - exists false. split; [done|]. split; [done|]. intros [Hl Hcount].
      destruct Hr. split; [done|]. split.
      + apply NoDup_count. intros x Hx. apply Hcount. by apply Hin.
      + apply Forall_forall. intros x Hx%Hin. apply lookup_unvisited. lia. }
  rewrite Hexact in Hiff.
  exists b. split_and!; [done|done| |].
  - intros c Hc. destruct b; [|done]. destruct (proj1 Hiff eq_refl) as [_ Hcount].
    assert (c ∈ ids) as Hc'%Hin.
    { apply dec_stable. intros Hni%count_zero_iff. lia. }
    rewrite Hcount in Hc by done. lia.
  - apply Forall_forall. intros route Hr.
    eapply Forall_forall in Hwf as [Hne Hids']; [|done].
    eapply Forall_forall in Hint; [|done].
    rewrite routeDemand_ids, demandIds_load, to_int_id; [done|done| |done].
    eapply Forall_impl; [done|]. simpl. lia.
Qed.

Lemma checkSolution_iff_witness :
  0 ≤ 4 + 1 ∧ 4 < size [0; 0; 4; 5; 3] ∧
  Forall (wellFormed 4) [[1; 2; 3; 1]; [1; 4; 1]] ∧
  Forall (λ route, INT_MIN ≤ load [0; 0; 4; 5; 3] (interior route) ≤ INT_MAX)
         [[1; 2; 3; 1]; [1; 4; 1]] ∧
  ∃ b, checkSolution [[1; 2; 3; 1]; [1; 4; 1]] [0; 0; 4; 5; 3] 10 4 = Ok b ∧
    (b = true ↔
       Forall (λ route, load [0; 0; 4; 5; 3] (interior route) ≤ 10)
              [[1; 2; 3; 1]; [1; 4; 1]] ∧
       ∀ c, 2 ≤ c ≤ 4 →
            count c (concat (interior <$> [[1; 2; 3; 1]; [1; 4; 1]])) = 1%nat) ∧
    (∀ c, (2 ≤ count c (concat (interior <$> [[1; 2; 3; 1]; [1; 4; 1]]%Z)))%nat →
          b = false) ∧
    Forall (λ route, routeDemand route [0; 0; 4; 5; 3]
                     = Ok (load [0; 0; 4; 5; 3] (interior route)))
           [[1; 2; 3; 1]; [1; 4; 1]].
Proof.
  assert (0 ≤ 4 + 1) as H1 by lia.
  assert (4 < size [0; 0; 4; 5; 3]) as H2 by (by vm_compute).
  assert (Forall (wellFormed 4) [[1; 2; 3; 1]; [1; 4; 1]]) as H3.
  { repeat constructor; try done; vm_compute; intros ?; discriminate. }
  assert (Forall (λ route, INT_MIN ≤ load [0; 0; 4; 5; 3] (interior route) ≤ INT_MAX)
                 [[1; 2; 3; 1]; [1; 4; 1]]) as H4.
  { repeat constructor; by vm_compute. }
  split_and!; [exact H1 | exact H2 | exact H3 | exact H4 |].
  exact (checkSolution_iff [[1; 2; 3; 1]; [1; 4; 1]] [0; 0; 4; 5; 3] 10 4 H1 H2 H3 H4).
Defined.

(** C7. Two adjacent separators decode to a degenerate route
    [[depot; depot]], of demand zero and of cost zero (the distance of a
    node with finite coordinates to itself is zero), and so does a separator
    at the very start; a part closed by the last separator is emitted, but
    nothing is emitted for the empty part after it. So [[0; 0]] with depot 1
    decodes to exactly two routes [[1; 1]]. *)
Theorem decodeSeq_degenerate_routes depot :
  decodeSeq [0; 0] 1 = [[1; 1]; [1; 1]] ∧
  (∀ g rest, Forall (λ x, x ≠ 0) g →
     decodeSeq (g ++ 0 :: 0 :: rest) depot =
     (depot :: g ++ [depot]) :: [depot; depot] :: decodeSeq rest depot) ∧
  (∀ rest, decodeSeq (0 :: rest) depot = [depot; depot] :: decodeSeq rest depot) ∧
  (∀ g, Forall (λ x, x ≠ 0) g →
     decodeSeq (g ++ [0]) depot = [depot :: g ++ [depot]]) ∧
  decodeSeq [] depot = [] ∧
  (∀ demand, routeDemand [depot; depot] demand = Ok 0) ∧
  (∀ coords x y, 1 ≤ depot → coords !! Z.to_nat depot = Some (x, y) →
     finite x = true → finite y = true →
     routeCost [depot; depot] (buildDist coords) = Ok 0%float) ∧
  routeCost [1; 1] (buildDist [(0, 0); (35, 35); (41, 49)]%float) = Ok 0%float.
Proof.
  split_and!; [reflexivity | | | | reflexivity | reflexivity | | reflexivity].
  - intros g rest Hg. rewrite decodeSeq_separator by done.
    by rewrite (decodeSeq_separator [] rest).
  - intros rest. by rewrite (decodeSeq_separator [] rest).
  - intros g Hg. by rewrite decodeSeq_separator.
  - intros coords x y Hd Hc Hx Hy.
    assert (0 ≤ depot < size coords) as Hr.
    { apply lookup_lt_Some in Hc. unfold size. lia. }
    destruct (buildDist_lookup coords depot depot Hr Hr) as (row & Hrow & Hz).
    eapply routeCost_degenerate; [lia|done|]. rewrite Hz.
    destruct (Z.leb_spec 1 depot); [|lia]. simpl.
    rewrite (nth_lookup_Some _ _ _ _ Hc). simpl. by rewrite euclidDist_diag.
Qed.

(** C8, as stated, fails: when the trailing empty route is suppressed, the
    interiors of the emitted routes with one separator between consecutive
    routes lack the last separator of the chromosome; and with one separator
    after every route there is one too many when nothing is suppressed. *)
Lemma decodeSeq_round_trip_counterexample :
  Z.of_nat (count 0 [2; 0]) = 2 - 1 ∧
  decodeSeq [2; 0] 1 = [[1; 2; 1]] ∧
  joinGroups (interior <$> decodeSeq [2; 0] 1) = [2] ∧
  Z.of_nat (count 0 [2; 0; 3]) = 2 - 1 ∧
  decodeSeq [2; 0; 3] 1 = [[1; 2; 1]; [1; 3; 1]] ∧
  concat ((λ g, g ++ [0]) <$> (interior <$> decodeSeq [2; 0; 3] 1)) = [2; 0; 3; 0].
Proof. split_and!; reflexivity. Qed.

(** C8, amended. A chromosome with [vehicle - 1] separators decodes to
    [vehicle] routes, less one when the trailing empty route is suppressed;
    and the interiors of the routes, in order, with the suppressed empty
    route put back and one separator between consecutive routes, are the
    chromosome. *)
Theorem decodeSeq_round_trip v V depot :
  Z.of_nat (count 0 v) = V - 1 →
  size (decodeSeq v depot) = V - (if trailingEmpty v then 1 else 0) ∧
  joinGroups ((interior <$> decodeSeq v depot)
              ++ (if trailingEmpty v then [[]] else [])) = v.
Proof.
  intros Hc. destruct (decodeSeq_inverse depot v) as [Hlen Hjoin].
  split; [|done]. unfold size. rewrite Hlen. destruct (trailingEmpty v); lia.
Qed.

Lemma decodeSeq_round_trip_witness :
  Z.of_nat (count 0 [2; 3; 0; 0; 4; 0]) = 4 - 1 ∧
  size (decodeSeq [2; 3; 0; 0; 4; 0] 1)
    = 4 - (if trailingEmpty [2; 3; 0; 0; 4; 0] then 1 else 0) ∧
  joinGroups ((interior <$> decodeSeq [2; 3; 0; 0; 4; 0] 1)
              ++ (if trailingEmpty [2; 3; 0; 0; 4; 0] then [[]] else []))
    = [2; 3; 0; 0; 4; 0].
Proof.
  assert (Z.of_nat (count 0 [2; 3; 0; 0; 4; 0]) = 4 - 1) as H by reflexivity.
  split; [exact H|]. exact (decodeSeq_round_trip [2; 3; 0; 0; 4; 0] 4 1 H).
Defined.

(** C9. The cost is rounded to two decimals at three levels: every distance
    when it is computed, the sum of the distances of a route in
    [routeCost], and the sum of the route costs in [totalCost]. The three
    roundings are not one rounding at the end: on a route to a customer at
    distance 1/256 and back the cost is 0, and 0.01 with one rounding at the
    end. The second and the third rounding are not idle either: they change
    a sum of distances that are rounded already, and a sum of route costs. *)
Theorem cost_rounded_at_three_levels :
  (∀ x1 y1 x2 y2, euclidDist x1 y1 x2 y2 = round2 (rawDist x1 y1 x2 y2)) ∧
  (∀ route dist, routeCost route dist = round2 <$> rawRouteCost route dist) ∧
  (∀ routes dist, totalCost routes dist = round2 <$> totalCostLoop routes dist 0%float) ∧
  (let coords := [(0, 0); (0, 0); (1 / 256, 0)]%float in
   totalCost [[1; 2; 1]] (buildDist coords) = Ok 0%float ∧
   totalCostOnce [[1; 2; 1]] coords = Ok (1 / 100)%float ∧
   totalCost [[1; 2; 1]] (buildDist coords) ≠ totalCostOnce [[1; 2; 1]] coords) ∧
  (let dist := buildDist [(0, 0); (0, 0); (1 / 10, 0); (3 / 10, 0); (1 / 20, 0)]%float in
   routeCost [1; 2; 3; 1] dist = Ok (6 / 10)%float ∧
   rawRouteCost [1; 2; 3; 1] dist ≠ routeCost [1; 2; 3; 1] dist ∧
   totalCost [[1; 4; 1]; [1; 2; 1]] dist = Ok (3 / 10)%float ∧
   totalCostLoop [[1; 4; 1]; [1; 2; 1]] dist 0%float
     ≠ totalCost [[1; 4; 1]; [1; 2; 1]] dist).
Proof.
  split_and!; try reflexivity; cbv zeta; split_and!; try reflexivity; bits_differ.
Qed.

(** C10, as stated, fails: a chromosome ends with a separator when the last
    bin is an empty one padded up to the vehicle count, and begins with one
    when the first customer's demand exceeds the capacity. *)
Lemma initSeq_separator_at_an_end :
  shuffleOf 2 [2] ∧
  initSeq [2] 2 10 [0; 0; 1] = Ok [2; 0] ∧ last [2; 0] = Some 0 ∧
  initSeq [2] 1 0 [0; 0; 1] = Ok [0; 2] ∧ head [0; 2] = Some 0.
Proof. split_and!; [unfold shuffleOf; reflexivity | reflexivity..]. Qed.

(** C10, amended. A generated chromosome is its bins, in order, with exactly
    one separator between consecutive bins and none inside a bin, before the
    first or after the last; so it begins with a separator exactly when the
    first of at least two bins is empty, and ends with one exactly when the
    last of at least two bins is empty. *)
Theorem initSeq_separators shuffled V n cap demand v :
  shuffleOf n shuffled →
  initSeq shuffled V cap demand = Ok v →
  ∃ gs, initGroups shuffled V cap demand = Ok gs ∧
    v = joinGroups gs ∧ concat gs = shuffled ∧ V ≤ size gs ∧
    count 0 v = pred (length gs) ∧
    (head v = Some 0 ↔ (2 ≤ length gs)%nat ∧ head gs = Some []) ∧
    (last v = Some 0 ↔ (2 ≤ length gs)%nat ∧ last gs = Some []).
Proof.
  intros Hs. unfold initSeq.
  destruct (initGroups shuffled V cap demand) as [gs|] eqn:Hg; simpl; [|done].
  intros [= <-]. exists gs.
  destruct (initGroups_spec _ _ _ _ _ Hg) as [Hc HV].
  pose proof (shuffleOf_nonzero _ _ Hs) as Hnz.
  assert (Forall (Forall (λ x, x ≠ 0)) gs) as Hgs.
  { apply Forall_concat. by rewrite Hc. }
  split_and!; [done..| |by apply head_joinGroups|by apply last_joinGroups].
  rewrite count_joinGroups, decide_True, Hc by done.
  assert (count 0 shuffled = O) as ->; [|lia].
  apply count_zero_iff. intros H0. by eapply Forall_forall in Hnz.
Qed.

Lemma initSeq_separators_witness :
  shuffleOf 4 [2; 3; 4] ∧
  initSeq [2; 3; 4] 3 10 [0; 0; 4; 5; 3] = Ok [2; 3; 0; 4; 0] ∧
  ∃ gs, initGroups [2; 3; 4] 3 10 [0; 0; 4; 5; 3] = Ok gs ∧
    [2; 3; 0; 4; 0] = joinGroups gs ∧ concat gs = [2; 3; 4] ∧ 3 ≤ size gs ∧
    count 0 [2; 3; 0; 4; 0] = pred (length gs) ∧
    (head [2; 3; 0; 4; 0] = Some 0 ↔ (2 ≤ length gs)%nat ∧ head gs = Some []) ∧
    (last [2; 3; 0; 4; 0] = Some 0 ↔ (2 ≤ length gs)%nat ∧ last gs = Some []).
Proof.
  assert (shuffleOf 4 [2; 3; 4]) as Hs by (unfold shuffleOf; reflexivity).
  split; [exact Hs|]. split; [reflexivity|].
  exact (initSeq_separators [2; 3; 4] 3 4 10 [0; 0; 4; 5; 3] [2; 3; 0; 4; 0] Hs eq_refl).
Defined.

(** * Further properties of the code *)

(** X1. [repairCustomer] repairs no chromosome of customers in which one is
    repeated. The scan for duplicates runs inside the loop that collects the
    missing ids and starts at [missing[0]] every time: with customer 2 in
    the chromosome, [missing] is still empty at the first scan and
    [missing[0]] is read out of range; without, customer 2 is written into
    one slot at the first scan and into another one at the second, so what
    is returned holds customer 2 twice. *)
Theorem repairCustomer_repeated v n :
  Forall (λ x, 2 ≤ x ≤ n) (tokens v) → ¬ NoDup (tokens v) →
  (2 ∈ v → repairCustomer v n = Err (OutOfRange VMissing)) ∧
  (∀ r, repairCustomer v n = Ok r → (2 ≤ count 2 r)%nat).
Proof.
  intros Hv Hnd.
  destruct (repeated_token _ Hnd) as (x & Hx & Hx2).
  assert (∀ y, y ∈ v → y ≠ 0 → 2 ≤ y ≤ n) as Hv'.
  { intros y Hy Hy0. eapply Forall_forall in Hv; [done|]. by apply list_elem_of_filter. }
  apply list_elem_of_filter in Hx as [Hx0 Hx].
  pose proof (Hv' x Hx Hx0) as Hxn. rewrite count_tokens in Hx2 by done.
  unfold repairCustomer. destruct (Z.ltb_spec (n + 1) 0); [lia|].
  set (cnt0 := replicate (Z.to_nat (n + 1)) 0).
  assert (size cnt0 = n + 1) as Hs0.
  { unfold size, cnt0. rewrite length_replicate. lia. }
  destruct (countLoop_spec v cnt0) as (cnt & -> & Hs & Hc).
  { apply Forall_forall. intros y Hy Hy0. specialize (Hv' y Hy Hy0). lia. }
  assert (∀ y, 0 < y ≤ n → cnt !! Z.to_nat y = Some (Z.of_nat (count y v))) as Hcnt.
  { intros y Hy. rewrite Hc by lia. unfold cnt0. rewrite lookup_replicate_2 by lia.
    simpl. by rewrite Z.add_0_l. }
  assert (hasDup v cnt) as Hdup.
  { exists x, (Z.of_nat (count x v)). split_and!; [done|done| |lia]. apply Hcnt. lia. }
  assert (Forall (λ y, y ≠ 0 → 0 ≤ y < size cnt) v) as Hrange.
  { apply Forall_forall. intros y Hy Hy0. specialize (Hv' y Hy Hy0). lia. }
  cbn [mbind res_bind]. rewrite seqZ_cons by lia. cbn [missingLoop].
  assert (at_ VCount cnt 2 = Ok (Z.of_nat (count 2 v))) as ->.
  { apply at_Ok. split; [lia|]. apply Hcnt. lia. }
  cbn [mbind res_bind]. split.
  - intros H2. assert (count 2 v ≠ O) as Hc2 by (by intros ?%count_zero_iff).
    destruct (Z.eqb_spec (Z.of_nat (count 2 v)) 0); [lia|].
    by rewrite replaceLoop_empty.
  - intros r Hr. destruct (Z.eqb_spec (Z.of_nat (count 2 v)) 0) as [Hc2|Hc2].
    2:{ rewrite replaceLoop_empty in Hr; done. }
    assert (x ≠ 2) as Hx2' by (intros ->; lia).
    assert (low2 cnt) as Hlow.
    { intros c. change 2%nat with (Z.to_nat 2). rewrite Hcnt by lia. intros [= <-]. lia. }
    simpl app in Hr.
    destruct (replaceLoop v cnt [2] 0) as [[v1 cnt1]|] eqn:Hv1; [|done].
    cbn [mbind res_bind] in Hr.
    pose proof (replaceLoop_writes2 _ _ _ _ _ Hv1 Hlow Hdup) as Hw1.
    pose proof (replaceLoop_keeps2 _ _ _ _ _ _ Hv1 Hlow) as [_ Hlow1].
    destruct (replaceLoop_once _ _ _ _ _ Hv1) as [Hcount Hsame].
    assert (hasDup v1 cnt1) as Hdup1.
    { exists x, (Z.of_nat (count x v)). split_and!; [|done| |lia].
      - apply dec_stable. intros Hni%count_zero_iff. specialize (Hcount x). lia.
      - rewrite Hsame by lia. apply Hcnt. lia. }
    rewrite seqZ_cons in Hr by lia. cbn [missingLoop] in Hr.
    destruct (at_ VCount cnt1 (Z.succ 2)) as [c3|]; [|done]. cbn [mbind res_bind] in Hr.
    destruct (replaceLoop v1 cnt1 _ 0) as [[v2 cnt2]|] eqn:Hv2; [|done].
    cbn [mbind res_bind] in Hr.
    assert ((count 2 v1 < count 2 v2)%nat ∧ low2 cnt2) as [Hw2 Hlow2].
    { destruct (c3 =? 0); simpl in Hv2;
        (split; [by eapply replaceLoop_writes2 | by eapply replaceLoop_keeps2]). }
    apply missingLoop_keeps2 in Hr; [|done]. lia.
Qed.

Lemma repairCustomer_repeated_witness :
  Forall (λ x, 2 ≤ x ≤ 4) (tokens [4; 4; 0; 3]) ∧ ¬ NoDup (tokens [4; 4; 0; 3]) ∧
  repairCustomer [4; 4; 0; 3] 4 = Ok [2; 2; 0; 3] ∧ (2 ≤ count 2 [2; 2; 0; 3]%Z)%nat.
Proof.
  assert (Forall (λ x, 2 ≤ x ≤ 4) (tokens [4; 4; 0; 3])) as H1.
  { change (tokens [4; 4; 0; 3]) with [4; 4; 3]. repeat constructor; lia. }
  assert (¬ NoDup (tokens [4; 4; 0; 3])) as H2.
  { change (tokens [4; 4; 0; 3]) with [4; 4; 3]. intros [Hn _]%NoDup_cons.
    apply Hn. by left. }
  split_and!; [exact H1 | exact H2 | reflexivity |].
  exact (proj2 (repairCustomer_repeated [4; 4; 0; 3] 4 H1 H2) [2; 2; 0; 3] eq_refl).
Defined.

(** X2. [repairZero] returns on no chromosome of one or two tokens that has
    more separators than the target. *)
Theorem repairZero_short_loops v V fuel :
  v ≠ [] → (length v ≤ 2)%nat → V - 1 < Z.of_nat (count 0 v) →
  repairZero fuel v V = None.
Proof. intros Hne Hlen Hlt. unfold repairZero. by apply whileLoop_short. Qed.

Lemma repairZero_short_loops_witness :
  [0; 0] ≠ @nil Z ∧ (length [0; 0]%Z ≤ 2)%nat ∧ 2 - 1 < Z.of_nat (count 0 [0; 0]) ∧
  repairZero 1000 [0; 0] 2 = None.
Proof.
  assert ([0; 0] ≠ @nil Z) as H1 by discriminate.
  assert (length [0; 0]%Z ≤ 2)%nat as H2 by (simpl; lia).
  assert (2 - 1 < Z.of_nat (count 0 [0; 0])) as H3 by (by vm_compute).
  split_and!; [exact H1 | exact H2 | exact H3 |].
  exact (repairZero_short_loops [0; 0] 2 1000 H1 H2 H3).
Defined.

(** X3. A chromosome as the generator builds it is a solution: when no
    customer demands more than the capacity (the demand is the [int] of the
    vector), the capacity is not negative and the demand vector has an entry
    for every node, its routes pass [checkSolution], whatever the vehicle
    count and the depot are, also where the sums of the demands wrap
    around: the generator and [checkSolution] add alike. *)
Theorem generated_chromosome_feasible shuffled V n cap demand depot :
  shuffleOf n shuffled → 0 ≤ n + 1 → n < size demand → 0 ≤ cap →
  (∀ c d, 2 ≤ c ≤ n → demand !! Z.to_nat c = Some d → to_int d ≤ cap) →
  ∃ v, initSeq shuffled V cap demand = Ok v ∧
       checkSolution (decodeSeq v depot) demand cap n = Ok true.
Proof.
  intros Hs Hn Hd Hcap Hdem.
  destruct (initGroups_Ok shuffled V cap demand n Hs) as [gs Hg].
  { intros _. done. }
  exists (joinGroups gs). unfold initSeq. rewrite Hg. split; [done|].
  destruct (initGroups_spec _ _ _ _ _ Hg) as [Hc HV].
  pose proof (shuffleOf_nonzero _ _ Hs) as Hnz.
  assert (Forall (Forall (λ x, x ≠ 0)) gs) as Hgs.
  { apply Forall_concat. by rewrite Hc. }
  rewrite decodeSeq_joinGroups_eq by done.
  assert (interior <$> (routeOf depot <$> emitted gs) = emitted gs) as Hint.
  { rewrite <- list_fmap_compose. rewrite <- (list_fmap_id (emitted gs)) at 2.
    apply list_fmap_ext. intros _ g _. apply interior_routeOf. }
  assert (Forall (Forall (λ c, 2 ≤ c ≤ n)) gs) as Hcust.
  { apply Forall_concat. rewrite Hc. apply Forall_forall.
    intros c Hc'. by eapply shuffleOf_elem in Hc'. }
  destruct (checkSolution_inRange (routeOf depot <$> emitted gs) demand cap n Hn Hd)
    as (b & -> & Hb).
  { apply Forall_fmap, Forall_forall. intros g Hg'%emitted_sub. split; [done|].
    simpl. rewrite interior_routeOf. eapply Forall_forall in Hcust; [|done].
    eapply Forall_impl; [done|]. simpl. lia. }
  f_equal. apply Hb. rewrite Hint, concat_emitted, Hc. split_and!.
  - apply Forall_fmap. apply Forall_forall. intros g Hg'%emitted_sub. simpl.
    rewrite interior_routeOf.
    eapply initGroups_within in Hg; [|done|].
    + by eapply Forall_forall in Hg.
    + apply Forall_forall. intros c Hc'%(shuffleOf_elem n); [|done].
      simpl. destruct (demand !! Z.to_nat c) as [d|] eqn:Hd'; simpl; [|done].
      rewrite Z.add_0_r. by apply (Hdem c d).
  - by eapply shuffleOf_NoDup.
  - intros c Hc'. by eapply shuffleOf_elem.
Qed.

Lemma generated_chromosome_feasible_witness :
  shuffleOf 4 [2; 3; 4] ∧
  ∃ v, initSeq [2; 3; 4] 2 10 [0; 0; 4; 5; 3] = Ok v ∧
       checkSolution (decodeSeq v 1) [0; 0; 4; 5; 3] 10 4 = Ok true.
Proof.
  assert (shuffleOf 4 [2; 3; 4]) as Hs by (unfold shuffleOf; reflexivity).
  split; [exact Hs|].
  apply (generated_chromosome_feasible [2; 3; 4] 2 4 10 [0; 0; 4; 5; 3] 1 Hs);
    [lia | by vm_compute | lia |].
  intros c d Hc. assert (c = 2 ∨ c = 3 ∨ c = 4) as [-> | [-> | ->]] by lia;
    simpl; intros [= <-]; by vm_compute.
Defined.

(** X4. [repairCustomer] returns a chromosome without duplicates as it is:
    when the tokens are ids of [1..n], none of them twice, nothing is
    replaced and no vector is read out of range. *)
Theorem repairCustomer_keeps_valid v n :
  0 ≤ n + 1 → Forall (λ x, 0 < x ≤ n) (tokens v) → NoDup (tokens v) →
  repairCustomer v n = Ok v.
Proof. intros Hn Hv Hnd. apply repairCustomer_id; [lia|done..]. Qed.

Lemma repairCustomer_keeps_valid_witness :
  0 ≤ 4 + 1 ∧ Forall (λ x, 0 < x ≤ 4) (tokens [3; 0; 2]) ∧ NoDup (tokens [3; 0; 2]) ∧
  repairCustomer [3; 0; 2] 4 = Ok [3; 0; 2].
Proof.
  assert (0 ≤ 4 + 1) as H1 by lia.
  assert (Forall (λ x, 0 < x ≤ 4) (tokens [3; 0; 2])) as H2.
  { change (tokens [3; 0; 2]) with [3; 2]. repeat constructor; lia. }
  assert (NoDup (tokens [3; 0; 2])) as H3.
  { change (tokens [3; 0; 2]) with [3; 2]. apply NoDup_cons. split.
    - intros [=]%list_elem_of_singleton.
    - apply NoDup_singleton. }
  split_and!; [exact H1 | exact H2 | exact H3 |].
  exact (repairCustomer_keeps_valid [3; 0; 2] 4 H1 H2 H3).
Defined.

(** X5. [checkSolution] on routes through any nodes of [0..n], the depot
    too: it marks every id it finds between the ends of a route, so it
    returns [true] exactly when the demand of every route, summed as an
    [int], is within the capacity, no id occurs twice between the ends of
    the routes, and every customer of [2..n] occurs there. Where the demand
    of every route is an [int], the sum is the demand. A route that passes
    through the depot twice is refused; a route whose sum wraps around
    passes although it demands more than the capacity. *)
Theorem checkSolution_any_nodes routes demand cap n :
  0 ≤ n + 1 → n < size demand → Forall (inRange n) routes →
  ∃ b, checkSolution routes demand cap n = Ok b ∧
    (b = true ↔
       Forall (λ route, to_int (load demand (interior route)) ≤ cap) routes ∧
       NoDup (concat (interior <$> routes)) ∧
       ∀ c, 2 ≤ c ≤ n → c ∈ concat (interior <$> routes)) ∧
    (Forall (λ route, INT_MIN ≤ load demand (interior route) ≤ INT_MAX) routes →
     (b = true ↔
        Forall (λ route, load demand (interior route) ≤ cap) routes ∧
        NoDup (concat (interior <$> routes)) ∧
        ∀ c, 2 ≤ c ≤ n → c ∈ concat (interior <$> routes))).
Proof.
  intros Hn Hd Hr.
  destruct (checkSolution_inRange routes demand cap n Hn Hd Hr) as (b & Hb & Hiff).
  exists b. split_and!; [done|done|].
  intros Hint. by rewrite <- (Forall_load_exact routes demand cap Hint).
Qed.

Lemma checkSolution_any_nodes_witness :
  0 ≤ 3 + 1 ∧ 3 < size [0; 0; 2147483647; 1] ∧ Forall (inRange 3) [[1; 2; 3; 1]] ∧
  checkSolution [[1; 2; 3; 1]] [0; 0; 2147483647; 1] 10 3 = Ok true ∧
  load [0; 0; 2147483647; 1] (interior [1; 2; 3; 1]) = 2147483648 ∧
  checkSolution [[1; 2; 1; 1; 1]] [0; 0; 4] 10 2 = Ok false ∧
  ∃ b, checkSolution [[1; 2; 3; 1]] [0; 0; 2147483647; 1] 10 3 = Ok b ∧
    (b = true ↔
       Forall (λ route, to_int (load [0; 0; 2147483647; 1] (interior route)) ≤ 10)
              [[1; 2; 3; 1]] ∧
       NoDup (concat (interior <$> [[1; 2; 3; 1]])) ∧
       ∀ c, 2 ≤ c ≤ 3 → c ∈ concat (interior <$> [[1; 2; 3; 1]])) ∧
    (Forall (λ route, INT_MIN ≤ load [0; 0; 2147483647; 1] (interior route) ≤ INT_MAX)
            [[1; 2; 3; 1]] →
     (b = true ↔
        Forall (λ route, load [0; 0; 2147483647; 1] (interior route) ≤ 10)
               [[1; 2; 3; 1]] ∧
        NoDup (concat (interior <$> [[1; 2; 3; 1]])) ∧
        ∀ c, 2 ≤ c ≤ 3 → c ∈ concat (interior <$> [[1; 2; 3; 1]]))).
Proof.
  assert (0 ≤ 3 + 1) as H1 by lia.
  assert (3 < size [0; 0; 2147483647; 1]) as H2 by (by vm_compute).
  assert (Forall (inRange 3) [[1; 2; 3; 1]]) as H3.
  { repeat constructor; try done; vm_compute; intros ?; discriminate. }
  split_and!; [exact H1 | exact H2 | exact H3 | reflexivity | reflexivity | reflexivity |].
  exact (checkSolution_any_nodes [[1; 2; 3; 1]] [0; 0; 2147483647; 1] 10 3 H1 H2 H3).
Defined.

(** X6. [initPopulationSeq] returns [population] chromosomes, each of them
    the chromosome of [initSeq] for one of the shuffles. *)
Theorem initPopulationSeq_population shuffle V n cap demand pop :
  initPopulationSeq shuffle V n cap demand = Ok pop →
  length pop = population ∧
  ∀ v, v ∈ pop →
    ∃ p, (p < population)%nat ∧ initSeq (shuffle p (customers n)) V cap demand = Ok v.
Proof. apply initPopulationSeq_individuals. Qed.

Lemma initPopulationSeq_population_witness :
  initPopulationSeq (λ _ l, l) 2 4 4 [0; 0; 4; 5; 3]
    = Ok (replicate population [2; 0; 3; 0; 4]) ∧
  length (replicate population [2; 0; 3; 0; 4]%Z) = population ∧
  ∀ v, v ∈ replicate population [2; 0; 3; 0; 4] →
    ∃ p, (p < population)%nat ∧
         initSeq ((λ _ l, l) p (customers 4)) 2 4 [0; 0; 4; 5; 3] = Ok v.
Proof.
  assert (initPopulationSeq (λ _ l, l) 2 4 4 [0; 0; 4; 5; 3]
            = Ok (replicate population [2; 0; 3; 0; 4])) as H by reflexivity.
  split; [exact H|].
  exact (initPopulationSeq_population (λ _ l, l) 2 4 4 [0; 0; 4; 5; 3] _ H).
Defined.

(** X7. [repairZero] reads no token outside the chromosome, provided the
    chromosome is not empty or there is a vehicle: its [for] loop then never
    empties the chromosome, so [seq.size() - 1] does not wrap around. *)
Theorem repairZero_never_faults fuel v V e :
  v ≠ [] ∨ 1 ≤ V → repairZero fuel v V ≠ Some (Err e).
Proof.
  intros [Hne|HV]; [by apply whileLoop_safe|].
  destruct v as [|x v]; [|by apply whileLoop_safe].
  destruct fuel as [|fuel]; [done|]. unfold repairZero. simpl.
  destruct (Z.ltb_spec (V - 1) (Z.of_nat (count 0 []))); [|done].
  rewrite count_nil in *. lia.
Qed.

Lemma repairZero_never_faults_witness :
  ([0; 0; 2; 3] ≠ [] ∨ 1 ≤ 1) ∧
  repairZero 5 [0; 0; 2; 3] 1 = Some (Ok [2; 3]) ∧
  repairZero 5 [0; 0; 2; 3] 1 ≠ Some (Err (OutOfRange VSeq)).
Proof.
  assert ([0; 0; 2; 3] ≠ [] ∨ 1 ≤ 1) as H by (right; lia).
  split_and!; [exact H | reflexivity |].
  exact (repairZero_never_faults 5 [0; 0; 2; 3] 1 (OutOfRange VSeq) H).
Defined.

(** X8. Without a vehicle ([vehicle <= 0]) [repairZero] never returns: the
    target count is negative, so the [while] loop runs for ever on every
    chromosome that is not empty; on the empty chromosome
    [seq.size() - 1] wraps around and [seq[1]] is read out of range. *)
Theorem repairZero_without_vehicle fuel v V :
  V ≤ 0 →
  repairZero (S fuel) v V
  = if decide (v = []) then Some (Err (OutOfRange VSeq)) else None.
Proof.
  intros HV. case_decide as Hv.
  - subst v. unfold repairZero. simpl. rewrite count_nil.
    destruct (Z.ltb_spec (V - 1) (Z.of_nat 0)); [|lia]. reflexivity.
  - apply whileLoop_negative; [done|done|lia].
Qed.

Lemma repairZero_without_vehicle_witness :
  0 ≤ 0 ∧ repairZero 9 [2; 0; 3] 0 = None.
Proof.
  assert (0 ≤ 0) as H by lia. split; [exact H|].
  exact (repairZero_without_vehicle 8 [2; 0; 3] 0 H).
Defined.

(** X9. Every route of the decoder is a bin of customers between two
    depots, so it has two nodes at least, and the bins, in their order, hold
    the tokens of the chromosome: the decoder drops no customer and makes
    none up. *)
Theorem decodeSeq_structure v depot :
  ∃ gs, decodeSeq v depot = routeOf depot <$> gs ∧
        Forall (Forall (λ x, x ≠ 0)) gs ∧ concat gs = tokens v ∧
        concat (interior <$> decodeSeq v depot) = tokens v ∧
        Forall (λ route, (2 ≤ length route)%nat ∧
                         head route = Some depot ∧ last route = Some depot)
               (decodeSeq v depot).
Proof.
  destruct (decodeSeq_routes v depot) as (gs & Hdec & Hgs & Hc).
  exists gs. rewrite Hdec. split_and!; [done..| |].
  - rewrite <- list_fmap_compose, <- Hc. f_equal.
    rewrite <- (list_fmap_id gs) at 2.
    apply list_fmap_ext. intros _ g _. apply interior_routeOf.
  - apply Forall_fmap, Forall_forall. intros g _. unfold routeOf. simpl.
    rewrite length_app, last_cons, last_snoc. simpl. split_and!; [lia|done..].
Qed.

(** X10. Decoding the chromosome of a list of bins gives the bins back,
    each between two depots, without the last bin when it is empty. *)
Theorem decodeSeq_joinGroups gs depot :
  Forall (Forall (λ x, x ≠ 0)) gs →
  decodeSeq (joinGroups gs) depot = routeOf depot <$> emitted gs ∧
  interior <$> decodeSeq (joinGroups gs) depot = emitted gs.
Proof.
  intros Hgs. rewrite decodeSeq_joinGroups_eq by done. split; [done|].
  rewrite <- list_fmap_compose. rewrite <- (list_fmap_id (emitted gs)) at 2.
  apply list_fmap_ext. intros _ g _. apply interior_routeOf.
Qed.

Lemma decodeSeq_joinGroups_witness :
  Forall (Forall (λ x, x ≠ 0)) [[2; 3]; []; [4]; []] ∧
  joinGroups [[2; 3]; []; [4]; []] = [2; 3; 0; 0; 4; 0] ∧
  decodeSeq (joinGroups [[2; 3]; []; [4]; []]) 1
    = routeOf 1 <$> emitted [[2; 3]; []; [4]; []] ∧
  interior <$> decodeSeq (joinGroups [[2; 3]; []; [4]; []]) 1
    = emitted [[2; 3]; []; [4]; []].
Proof.
  assert (Forall (Forall (λ x, x ≠ 0)) [[2; 3]; []; [4]; []]) as H.
  { repeat constructor; lia. }
  split; [exact H|]. split; [reflexivity|].
  exact (decodeSeq_joinGroups [[2; 3]; []; [4]; []] 1 H).
Defined.

(** X11. Every bin of the generator is within the capacity, its demand
    summed as an [int], or it holds one customer at most (a customer whose
    demand exceeds the capacity is alone in its bin); when no customer
    demands more than the capacity and the capacity is not negative, every
    bin is within the capacity. Where no demand is negative and the demands
    of all customers together are an [int], no sum wraps around: the sum of
    a bin is its demand. *)
Theorem generated_bins_fit shuffled V cap demand gs :
  initGroups shuffled V cap demand = Ok gs →
  Forall (fits demand cap) gs ∧
  (0 ≤ cap → Forall (λ c, to_int (load demand [c]) ≤ cap) shuffled →
   Forall (λ g, to_int (load demand g) ≤ cap) gs) ∧
  (Forall (λ c, 0 ≤ load demand [c]) shuffled → load demand shuffled ≤ INT_MAX →
   Forall (λ g, to_int (load demand g) = load demand g) gs).
Proof.
  intros Hg. split_and!; [by eapply initGroups_fits | by eapply initGroups_within |].
  intros Hnn Hmax. apply initGroups_spec in Hg as [<- _].
  apply Forall_forall. intros g Hin.
  pose proof (load_concat_le demand gs g Hnn Hin). apply to_int_id.
  unfold INT_MIN. lia.
Qed.

Lemma generated_bins_fit_witness :
  initGroups [3; 2; 4] 2 4 [0; 0; 4; 5; 3] = Ok [[]; [3]; [2]; [4]] ∧
  Forall (fits [0; 0; 4; 5; 3] 4) [[]; [3]; [2]; [4]] ∧
  (0 ≤ 4 → Forall (λ c, to_int (load [0; 0; 4; 5; 3] [c]) ≤ 4) [3; 2; 4] →
   Forall (λ g, to_int (load [0; 0; 4; 5; 3] g) ≤ 4) [[]; [3]; [2]; [4]]) ∧
  (Forall (λ c, 0 ≤ load [0; 0; 4; 5; 3] [c]) [3; 2; 4] →
   load [0; 0; 4; 5; 3] [3; 2; 4] ≤ INT_MAX →
   Forall (λ g, to_int (load [0; 0; 4; 5; 3] g) = load [0; 0; 4; 5; 3] g)
          [[]; [3]; [2]; [4]]).
Proof.
  assert (initGroups [3; 2; 4] 2 4 [0; 0; 4; 5; 3] = Ok [[]; [3]; [2]; [4]]) as H
    by reflexivity.
  split; [exact H|]. exact (generated_bins_fit [3; 2; 4] 2 4 [0; 0; 4; 5; 3] _ H).
Defined.

(** X12. The generator uses the fewest bins: with no negative demand, any
    division of the shuffled customers, in their order, into segments within
    the capacity has at least as many segments as the packing loop has bins
    (the bins are more only when they are padded to the vehicle count). *)
Theorem generated_bins_fewest shuffled V cap demand gs segs :
  initGroups shuffled V cap demand = Ok gs →
  Forall (λ c, 0 ≤ load demand [c]) shuffled →
  concat segs = shuffled → Forall (λ s, load demand s ≤ cap) segs →
  size gs ≤ Z.max V (size segs).
Proof. apply initGroups_fewest. Qed.

Lemma generated_bins_fewest_witness :
  initGroups [2; 3; 4] 1 10 [0; 0; 4; 5; 3] = Ok [[2; 3]; [4]] ∧
  Forall (λ c, 0 ≤ load [0; 0; 4; 5; 3] [c]) [2; 3; 4] ∧
  concat [[2]; [3]; [4]] = [2; 3; 4] ∧
  Forall (λ s, load [0; 0; 4; 5; 3] s ≤ 10) [[2]; [3]; [4]] ∧
  size [[2; 3]; [4]] ≤ Z.max 1 (size [[2]; [3]; [4]]).
Proof.
  assert (initGroups [2; 3; 4] 1 10 [0; 0; 4; 5; 3] = Ok [[2; 3]; [4]]) as H1
    by reflexivity.
  assert (Forall (λ c, 0 ≤ load [0; 0; 4; 5; 3] [c]) [2; 3; 4]) as H2.
  { repeat constructor; by vm_compute. }
  assert (concat [[2]; [3]; [4]] = [2; 3; 4]) as H3 by reflexivity.
  assert (Forall (λ s, load [0; 0; 4; 5; 3] s ≤ 10) [[2]; [3]; [4]]) as H4.
  { repeat constructor; by vm_compute. }
  split_and!; [exact H1 | exact H2 | exact H3 | exact H4 |].
  exact (generated_bins_fewest [2; 3; 4] 1 10 [0; 0; 4; 5; 3] _ _ H1 H2 H3 H4).
Defined.

(** X13. Where [repairZero] has a separator to remove from a generated
    chromosome, what it returns is no solution: with no negative demand and
    the demands of all customers together an [int] (so that no sum wraps
    around), the generator had used the fewest bins within the capacity, so
    the routes left after the removal cannot all be within the capacity,
    and [checkSolution] returns [false] on them. *)
Theorem repaired_infeasible shuffled V n cap demand depot fuel v r :
  shuffleOf n shuffled → 0 ≤ n + 1 → n < size demand →
  (∀ c d, 2 ≤ c ≤ n → demand !! Z.to_nat c = Some d → 0 ≤ d) →
  load demand shuffled ≤ INT_MAX →
  initSeq shuffled V cap demand = Ok v →
  V - 1 < Z.of_nat (count 0 v) →
  repairZero fuel v V = Some (Ok r) →
  checkSolution (decodeSeq r depot) demand cap n = Ok false.
Proof.
  intros Hs Hn Hd Hnn Hmax Hv Hmore Hr.
  destruct (initSeq_spec _ _ _ _ _ _ Hs Hv) as [Ht _].
  apply repairZero_sound in Hr as (Htr & _ & Hcr); [|lia].
  destruct (decodeSeq_routes r depot) as (segs & Hdec & Hsegs & Hc).
  rewrite Htr, Ht in Hc.
  pose proof (length_decodeSeq r depot) as Hlen.
  rewrite Hdec in Hlen. unfold size in Hlen. rewrite length_fmap in Hlen.
  assert (Forall (Forall (λ c, 2 ≤ c ≤ n)) segs) as Hcust.
  { apply Forall_concat. rewrite Hc. apply Forall_forall.
    intros c Hc'. by eapply shuffleOf_elem in Hc'. }
  assert (Forall (λ c, 0 ≤ load demand [c]) shuffled) as Hnn'.
  { apply Forall_forall. intros c Hc'%(shuffleOf_elem n); [|done].
    simpl. destruct (demand !! Z.to_nat c) as [d|] eqn:Hd'; simpl; [|lia].
    specialize (Hnn c d Hc' Hd'). lia. }
  rewrite Hdec.
  destruct (checkSolution_inRange (routeOf depot <$> segs) demand cap n Hn Hd)
    as (b & -> & Hb).
  { apply Forall_fmap, Forall_forall. intros g Hg. split; [done|].
    simpl. rewrite interior_routeOf. eapply Forall_forall in Hcust; [|done].
    eapply Forall_impl; [done|]. simpl. lia. }
  f_equal. destruct b; [|done]. exfalso.
  destruct (proj1 Hb eq_refl) as (Hload & _).
  unfold initSeq in Hv.
  destruct (initGroups shuffled V cap demand) as [gs|] eqn:Hg; [|done].
  injection Hv as <-.
  eapply initGroups_fewest in Hg as Hfew; [|done|exact Hc|].
  - rewrite count_joinGroups, decide_True in Hmore by done.
    apply initGroups_spec in Hg as [Hcg _]. rewrite Hcg in Hmore.
    assert (count 0 shuffled = O) as Hz.
    { apply count_zero_iff. intros H0. eapply shuffleOf_elem in H0; [|done]. lia. }
    unfold size in *. lia.
  - rewrite Forall_fmap in Hload. apply Forall_forall. intros g Hin.
    eapply Forall_forall in Hload; [|done]. simpl in Hload.
    rewrite interior_routeOf in Hload. rewrite <- Hc in Hnn', Hmax.
    pose proof (load_concat_le demand segs g Hnn' Hin).
    rewrite to_int_id in Hload; [done|]. unfold INT_MIN. lia.
Qed.

Lemma repaired_infeasible_witness :
  shuffleOf 4 [3; 2; 4] ∧
  load [0; 0; 4; 5; 3] [3; 2; 4] ≤ INT_MAX ∧
  initSeq [3; 2; 4] 2 4 [0; 0; 4; 5; 3] = Ok [0; 3; 0; 2; 0; 4] ∧
  2 - 1 < Z.of_nat (count 0 [0; 3; 0; 2; 0; 4]) ∧
  repairZero 9 [0; 3; 0; 2; 0; 4] 2 = Some (Ok [3; 2; 0; 4]) ∧
  checkSolution (decodeSeq [3; 2; 0; 4] 1) [0; 0; 4; 5; 3] 4 4 = Ok false.
Proof.
  assert (shuffleOf 4 [3; 2; 4]) as Hs by apply perm_swap.
  assert (load [0; 0; 4; 5; 3] [3; 2; 4] ≤ INT_MAX) as Hmax by (by vm_compute).
  assert (2 - 1 < Z.of_nat (count 0 [0; 3; 0; 2; 0; 4])) as Hm by (by vm_compute).
  split_and!; [exact Hs | exact Hmax | reflexivity | exact Hm | reflexivity |].
  apply (repaired_infeasible [3; 2; 4] 2 4 4 [0; 0; 4; 5; 3] 1 9%nat
           [0; 3; 0; 2; 0; 4] [3; 2; 0; 4] Hs);
    [lia | by vm_compute | | exact Hmax | reflexivity | exact Hm | reflexivity].
  intros c d Hc. assert (c = 2 ∨ c = 3 ∨ c = 4) as [-> | [-> | ->]] by lia;
    simpl; intros [= <-]; lia.
Defined.

(** X14. The matrix of [buildDist] is square, with a row and a column for
    every entry of [coords], and symmetric: [dist[i][j]] and [dist[j][i]]
    are the same [double] (or both outside the matrix), since
    [(a - b) * (a - b)] and [(b - a) * (b - a)] are. *)
Theorem buildDist_symmetric coords i j :
  square (size coords) (buildDist coords) ∧
  entry (buildDist coords) i j = entry (buildDist coords) j i.
Proof.
  split; [split; [apply size_buildDist|apply buildDist_square]|].
  destruct (decide (0 ≤ i < size coords ∧ 0 ≤ j < size coords)) as [[Hi Hj]|Hout].
  - rewrite !entry_buildDist by done. f_equal. rewrite andb_comm.
    destruct (_ && _); [apply euclidDist_sym|done].
  - rewrite !entry_outside; [done|tauto|done].
Qed.

(** X15. Inside the matrix of [buildDist] every entry is defined; row 0
    and column 0 hold zeros, and so does the diagonal where the coordinates
    are finite. *)
Theorem buildDist_entries coords i j :
  0 ≤ i < size coords → 0 ≤ j < size coords →
  ∃ d, entry (buildDist coords) i j = Ok d ∧
       (i = 0 ∨ j = 0 → d = 0%float) ∧
       (∀ x y, i = j → coords !! Z.to_nat i = Some (x, y) →
               finite x = true → finite y = true → d = 0%float).
Proof.
  intros Hi Hj. rewrite entry_buildDist by done. eexists. split; [done|]. split.
  - intros [-> | ->]; [done|]. by rewrite andb_false_r.
  - intros x y <- Hc Hx Hy. rewrite (nth_lookup_Some _ _ _ _ Hc). simpl.
    rewrite euclidDist_diag by done. by destruct (_ && _).
Qed.

Lemma buildDist_entries_witness :
  0 ≤ 2 < size [(0, 0); (0, 0); (3, 4); (6, 8)]%float ∧
  entry (buildDist [(0, 0); (0, 0); (3, 4); (6, 8)]%float) 2 3 = Ok 5%float ∧
  ∃ d, entry (buildDist [(0, 0); (0, 0); (3, 4); (6, 8)]%float) 2 2 = Ok d ∧
       (2 = 0 ∨ 2 = 0 → d = 0%float) ∧
       (∀ x y, 2 = 2 → [(0, 0); (0, 0); (3, 4); (6, 8)]%float !! Z.to_nat 2 = Some (x, y) →
               finite x = true → finite y = true → d = 0%float).
Proof.
  assert (0 ≤ 2 < size [(0, 0); (0, 0); (3, 4); (6, 8)]%float) as H by (by vm_compute).
  split; [exact H|]. split; [reflexivity|].
  exact (buildDist_entries [(0, 0); (0, 0); (3, 4); (6, 8)]%float 2 2 H H).
Defined.

(** X16. The cost of a chromosome is computed without a read outside the
    distance matrix exactly when the matrix has a row for the depot and for
    every customer of the chromosome (the empty chromosome has no route and
    reads nothing); a read outside is one of the matrix, not of a route. *)
Theorem chromosome_cost_in_range v depot coords :
  ((∃ c, totalCost (decodeSeq v depot) (buildDist coords) = Ok c) ↔
   v = [] ∨ (0 ≤ depot < size coords ∧ Forall (λ x, 0 ≤ x < size coords) (tokens v))) ∧
  (∀ e, totalCost (decodeSeq v depot) (buildDist coords) = Err e → e = OutOfRange VDist).
Proof.
  split; [apply totalCost_in_range|]. intros e.
  destruct (decodeSeq_routes v depot) as (gs & -> & _).
  unfold totalCost.
  destruct (totalCostLoop _ _ _) as [c|e'] eqn:Hc; [done|]. intros [= <-].
  eapply totalCostLoop_fault; [|done].
  split; [apply size_buildDist|apply buildDist_square].
Qed.

(** X17. What [findBestIndividual] selects is the first individual of
    least cost: no individual costs less, and every individual before it
    costs more (or its cost is no number). When no individual costs less
    than [DBL_MAX], none is selected: the index stays -1 and the cost
    [DBL_MAX]. *)
Theorem findBestIndividual_first_least populationSeq depot coords bestCost bestIdx :
  findBestIndividual populationSeq depot coords = Ok (bestCost, bestIdx) →
  ∃ costs, costsOf populationSeq depot (buildDist coords) costs ∧
    ((bestIdx = -1 ∧ bestCost = DBL_MAX ∧
      Forall (λ c, (c <? DBL_MAX)%float = false) costs) ∨
     (0 ≤ bestIdx ∧ firstLeast costs DBL_MAX (Z.to_nat bestIdx) bestCost)).
Proof.
  intros (costs & Hcosts & Hr)%bestLoop_spec. exists costs. split; [done|].
  destruct Hr as [?|(k & -> & Hk)]; [by left|]. right. split; [lia|].
  by replace (Z.to_nat (0 + Z.of_nat k)) with k by lia.
Qed.

Lemma findBestIndividual_first_least_witness :
  findBestIndividual [[2; 0; 3]; [3; 2; 0]; [2; 3]] 1
                     [(0, 0); (0, 0); (3, 4); (6, 8)]%float = Ok (20%float, 1) ∧
  ∃ costs,
    costsOf [[2; 0; 3]; [3; 2; 0]; [2; 3]] 1
            (buildDist [(0, 0); (0, 0); (3, 4); (6, 8)]%float) costs ∧
    ((1 = -1 ∧ 20%float = DBL_MAX ∧
      Forall (λ c, (c <? DBL_MAX)%float = false) costs) ∨
     (0 ≤ 1 ∧ firstLeast costs DBL_MAX (Z.to_nat 1) 20%float)).
Proof.
  assert (findBestIndividual [[2; 0; 3]; [3; 2; 0]; [2; 3]] 1
            [(0, 0); (0, 0); (3, 4); (6, 8)]%float = Ok (20%float, 1)) as H
    by reflexivity.
  split; [exact H|].
  exact (findBestIndividual_first_least _ _ _ _ _ H).
Defined.

(** X18. [findBestIndividual] returns exactly when the distance matrix has
    a row for the depot and for every customer of every chromosome that is
    not empty. *)
Theorem findBestIndividual_returns populationSeq depot coords :
  (∃ r, findBestIndividual populationSeq depot coords = Ok r) ↔
  Forall (λ v, v = [] ∨
               (0 ≤ depot < size coords ∧ Forall (λ x, 0 ≤ x < size coords) (tokens v)))
         populationSeq.
Proof. apply findBestIndividual_returns_iff. Qed.

(** X19. The population that [generatePopulation] prints: fifty
    chromosomes, each with every customer of [2..n] once and [vehicle - 1]
    separators. It is reached exactly on the instances whose demand vector
    has an entry for every customer, with [0 <= n + 1] and a vehicle, the
    instance on which [repairZero] does not return apart. *)
Theorem generatePopulation_valid shuffle V n cap demand :
  shuffles n shuffle →
  (∀ fuel pop, generatePopulation fuel shuffle V n cap demand = Some (Ok pop) →
     length pop = population ∧ Forall (valid n V) pop) ∧
  ((∃ fuel pop, generatePopulation fuel shuffle V n cap demand = Some (Ok pop)) ↔
   covers demand n ∧ 0 ≤ n + 1 ∧ 1 ≤ V ∧ ¬ stuck n V cap demand).
Proof.
  intros Hs. split.
  - intros fuel pop. by apply generatePopulation_sound.
  - by apply generatePopulation_returns_iff.
Qed.

Lemma generatePopulation_valid_witness :
  shuffles 4 (λ _ l, l) ∧
  generatePopulation 5 (λ _ l, l) 2 4 4 [0; 0; 4; 5; 3]
    = Some (Ok (replicate population [2; 3; 0; 4])) ∧
  length (replicate population [2; 3; 0; 4]%Z) = population ∧
  Forall (valid 4 2) (replicate population [2; 3; 0; 4]).
Proof.
  assert (shuffles 4 (λ _ l, l)) as Hs by (intros p; unfold shuffleOf; reflexivity).
  split; [exact Hs|]. split; [reflexivity|].
  exact (proj1 (generatePopulation_valid (λ _ l, l) 2 4 4 [0; 0; 4; 5; 3] Hs)
               5%nat _ eq_refl).
Defined.

(** X20. [runCMT1], five vehicles, returns exactly when the demand vector
    has an entry for every customer, [0 <= n + 1], and [coords] has an
    entry for the depot and for every customer: then no vector is read out
    of range anywhere from the generator to the selection, and no loop runs
    for ever. What it returns is taken from the fifty repaired chromosomes:
    the first of those of least cost, or no individual at all, with index
    -1 and cost [DBL_MAX], when no cost is below [DBL_MAX] (the costs are
    infinite or no numbers, as with coordinates [2^700] apart). *)
Theorem runCMT1_returns shuffle n cap coords demand depot :
  shuffles n shuffle →
  ((∃ fuel r, runCMT1 fuel shuffle n cap coords demand depot = Some (Ok r)) ↔
   covers demand n ∧ 0 ≤ n + 1 ∧ (2 ≤ n → n < size coords) ∧ 0 ≤ depot < size coords) ∧
  (∀ fuel bestCost bestIdx,
     runCMT1 fuel shuffle n cap coords demand depot = Some (Ok (bestCost, bestIdx)) →
     ∃ pop costs,
       generatePopulation fuel shuffle 5 n cap demand = Some (Ok pop) ∧
       length pop = population ∧ Forall (valid n 5) pop ∧
       costsOf pop depot (buildDist coords) costs ∧
       ((bestIdx = -1 ∧ bestCost = DBL_MAX ∧
         Forall (λ c, (c <? DBL_MAX)%float = false) costs) ∨
        (0 ≤ bestIdx < Z.of_nat population ∧
         firstLeast costs DBL_MAX (Z.to_nat bestIdx) bestCost))).
Proof.
  intros Hs. unfold runCMT1. split; [split|].
  - intros (fuel & r & Hr).
    destruct (generatePopulation fuel shuffle 5 n cap demand) as [[pop|]|] eqn:Hg; [|done..].
    injection Hr as Hr.
    assert (∃ fuel pop, generatePopulation fuel shuffle 5 n cap demand = Some (Ok pop))
      as (Hd & Hn & _)%generatePopulation_returns_iff by eauto; [|done].
    destruct (generatePopulation_sound _ _ _ _ _ _ _ Hs Hg) as [Hlen Hvalid].
    assert (∃ r, findBestIndividual pop depot coords = Ok r) as Hin by eauto.
    apply findBestIndividual_returns_iff in Hin.
    destruct pop as [|v pop]; [done|].
    apply Forall_cons in Hin as [Hv _]. apply Forall_cons in Hvalid as [[Ht Hc] _].
    destruct Hv as [->|[Hdepot Hv]]; [by rewrite count_nil in Hc|].
    split_and!; [done..| |lia|lia]. intros Hn2.
    assert (n ∈ tokens v) as Hin.
    { rewrite Ht. apply elem_of_customers. lia. }
    eapply Forall_forall in Hv; [|done]. lia.
  - intros (Hd & Hn & Hc & Hdepot).
    destruct (proj2 (generatePopulation_returns_iff shuffle 5 n cap demand Hs))
      as (fuel & pop & Hg).
    { split_and!; [done|done|lia|]. intros (_ & ? & _). lia. }
    destruct (generatePopulation_sound _ _ _ _ _ _ _ Hs Hg) as [_ Hvalid].
    destruct (proj2 (findBestIndividual_returns_iff pop depot coords)) as [r Hr].
    { eapply Forall_impl; [done|]. intros v [Ht _]. right. split; [done|].
      rewrite Ht. apply Forall_forall. intros c Hc'%elem_of_customers. lia. }
    exists fuel, r. by rewrite Hg, Hr.
  - intros fuel bestCost bestIdx Hr.
    destruct (generatePopulation fuel shuffle 5 n cap demand) as [[pop|]|] eqn:Hg; [|done..].
    injection Hr as Hr.
    destruct (generatePopulation_sound _ _ _ _ _ _ _ Hs Hg) as [Hlen Hvalid].
    apply bestLoop_spec in Hr as (costs & Hcosts & Hbest).
    exists pop, costs. split_and!; [done..|].
    destruct Hbest as [?|(k & -> & Hk)]; [by left|]. right.
    replace (Z.to_nat (0 + Z.of_nat k)) with k by lia. split; [|done].
    destruct Hk as (Hk%lookup_lt_Some & _).
    apply Forall2_length in Hcosts. lia.
Qed.

Lemma runCMT1_returns_witness :
  shuffles 3 (λ _ l, l) ∧
  runCMT1 5 (λ _ l, l) 3 4 [(0, 0); (0, 0); (3, 4); (6, 8)]%float [0; 0; 4; 5] 1
    = Some (Ok (30%float, 0)) ∧
  runCMT1 5 (λ _ l, l) 3 4 [(0, 0); (0x1p700, 0); (-0x1p700, 0); (0, 0)]%float
          [0; 0; 4; 5] 1
    = Some (Ok (DBL_MAX, -1)) ∧
  ∃ pop costs,
    generatePopulation 5 (λ _ l, l) 5 3 4 [0; 0; 4; 5] = Some (Ok pop) ∧
    length pop = population ∧ Forall (valid 3 5) pop ∧
    costsOf pop 1 (buildDist [(0, 0); (0, 0); (3, 4); (6, 8)]%float) costs ∧
    ((0 = -1 ∧ 30%float = DBL_MAX ∧
      Forall (λ c, (c <? DBL_MAX)%float = false) costs) ∨
     (0 ≤ 0 < Z.of_nat population ∧ firstLeast costs DBL_MAX (Z.to_nat 0) 30%float)).
Proof.
  assert (shuffles 3 (λ _ l, l)) as Hs by (intros p; unfold shuffleOf; reflexivity).
  split; [exact Hs|]. split; [reflexivity|]. split; [reflexivity|].
  exact (proj2 (runCMT1_returns (λ _ l, l) 3 4 [(0, 0); (0, 0); (3, 4); (6, 8)]%float
                                [0; 0; 4; 5] 1 Hs) 5%nat 30%float 0 eq_refl).
Defined.

(** X21. With a vehicle count that is not negative, [initsolution] returns
    the bins of which [initPopulationSeq] builds a chromosome. *)
Theorem initsolution_bins shuffled vehicle cap demand :
  0 ≤ vehicle →
  ∃ fuel, initsolution fuel shuffled vehicle cap demand
          = Some (initGroups shuffled vehicle cap demand).
Proof.
  intros HV. unfold initsolution, initGroups.
  destruct (pack shuffled demand cap [] [] 0) as [[nhom xe]|e]; [|by exists O].
  eexists. rewrite padLoop_returns by done. done.
Qed.

Lemma initsolution_bins_witness :
  0 ≤ 3 ∧
  initsolution 5 [2; 3; 4] 3 10 [0; 0; 4; 5; 3] = Some (Ok [[2; 3]; [4]; []]) ∧
  initSeq [2; 3; 4] 3 10 [0; 0; 4; 5; 3] = Ok (joinGroups [[2; 3]; [4]; []]) ∧
  ∃ fuel, initsolution fuel [2; 3; 4] 3 10 [0; 0; 4; 5; 3]
          = Some (initGroups [2; 3; 4] 3 10 [0; 0; 4; 5; 3]).
Proof.
  assert (0 ≤ 3) as H by lia.
  split_and!; [exact H | reflexivity | reflexivity |].
  exact (initsolution_bins [2; 3; 4] 3 10 [0; 0; 4; 5; 3] H).
Defined.

(** X22. The bins that [initsolution] returns hold the shuffled customers
    in their order, each bin within the capacity (its demand summed as an
    [int]) or of one customer at most,
    and there are at least [vehicle] of them, [vehicle] read as a [size_t]:
    for a negative [vehicle] that is more than [2^63] bins, which no vector
    holds, where [initPopulationSeq] adds no bin at all. *)
Theorem initsolution_sound fuel shuffled vehicle cap demand gs :
  initsolution fuel shuffled vehicle cap demand = Some (Ok gs) →
  concat gs = shuffled ∧ Forall (fits demand cap) gs ∧ to_size vehicle ≤ size gs.
Proof.
  unfold initsolution.
  destruct (pack shuffled demand cap [] [] 0) as [[nhom xe]|e] eqn:Hp; [|done].
  destruct (padLoop fuel _ vehicle) as [gs'|] eqn:Hpad; [|done]. intros [= <-].
  apply padLoop_spec in Hpad as (k & -> & Hle & _).
  pose proof (pack_concat _ _ _ _ _ _ _ _ Hp) as Hc. simpl in Hc.
  change 0 with (load demand []) in Hp.
  eapply pack_fits in Hp as [Hgs Hcur]; [|done|right; simpl; lia].
  split_and!; [| |done].
  - rewrite concat_app.
    assert (concat (replicate k (@nil Z)) = []) as ->.
    { clear. induction k as [|k IH]; [done|]. simpl. apply IH. }
    rewrite app_nil_r. destruct xe; [by rewrite app_nil_r in Hc|].
    rewrite concat_app. simpl. by rewrite app_nil_r.
  - apply Forall_app. split.
    + destruct xe; [done|]. apply Forall_app. split; [done|]. by apply Forall_singleton.
    + apply Forall_replicate. right. simpl. lia.
Qed.

Lemma initsolution_sound_witness :
  initsolution 5 [2; 3; 4] 3 10 [0; 0; 4; 5; 3] = Some (Ok [[2; 3]; [4]; []]) ∧
  concat [[2; 3]; [4]; []] = [2; 3; 4] ∧
  Forall (fits [0; 0; 4; 5; 3] 10) [[2; 3]; [4]; []] ∧
  to_size 3 ≤ size [[2; 3]; [4]; @nil Z].
Proof.
  assert (initsolution 5 [2; 3; 4] 3 10 [0; 0; 4; 5; 3]
            = Some (Ok [[2; 3]; [4]; []])) as H by reflexivity.
  split; [exact H|].
  exact (initsolution_sound 5 [2; 3; 4] 3 10 [0; 0; 4; 5; 3] _ H).
Defined.

(** X23. Routes of no node and of one node. On an empty route
    [route.size() - 1] wraps around: [routeDemand] reads [route[1]] and
    [routeCost] reads [route[0]] out of range, and so do [checkSolution] and
    [totalCost] on a list that begins with an empty route. A route of one
    node has demand 0 and cost 0. *)
Theorem short_routes x :
  (∀ demand, routeDemand [] demand = Err (OutOfRange VRoute)) ∧
  (∀ dist, routeCost [] dist = Err (OutOfRange VRoute)) ∧
  (∀ demand, routeDemand [x] demand = Ok 0) ∧
  (∀ dist, routeCost [x] dist = Ok 0%float) ∧
  (∀ routes demand cap n, 0 ≤ n + 1 →
     checkSolution ([] :: routes) demand cap n = Err (OutOfRange VRoute)) ∧
  (∀ routes dist, totalCost ([] :: routes) dist = Err (OutOfRange VRoute)).
Proof.
  split_and!; try reflexivity.
  intros routes demand cap n Hn. unfold checkSolution.
  destruct (Z.ltb_spec (n + 1) 0); [lia|]. reflexivity.
Qed.

(** X24. Repairing a repaired chromosome changes nothing: on what the
    pipeline returns, [repairZero] followed by [repairCustomer] returns the
    same chromosome. *)
Theorem repaired_is_fixed shuffled V n cap demand fuel fuel' r :
  shuffleOf n shuffled →
  generateSeq fuel shuffled V n cap demand = Some (Ok r) →
  repairSeq (S fuel') r V n = Some (Ok r).
Proof.
  intros Hs Hr.
  destruct (generateSeq_sound _ _ _ _ _ _ _ Hs Hr) as (v & _ & _ & Hc & _ & Hz).
  unfold repairSeq. by rewrite repairZero_done, Hc.
Qed.

Lemma repaired_is_fixed_witness :
  shuffleOf 4 [3; 2; 4] ∧
  generateSeq 5 [3; 2; 4] 2 4 4 [0; 0; 4; 5; 3] = Some (Ok [3; 2; 0; 4]) ∧
  repairSeq 1 [3; 2; 0; 4] 2 4 = Some (Ok [3; 2; 0; 4]).
Proof.
  assert (shuffleOf 4 [3; 2; 4]) as Hs by apply perm_swap.
  split; [exact Hs|]. split; [reflexivity|].
  exact (repaired_is_fixed [3; 2; 4] 2 4 4 [0; 0; 4; 5; 3] 5%nat O [3; 2; 0; 4] Hs eq_refl).
Defined.

(** X25. [checkSolution] reads a route between its two ends only: two lists
    of routes that agree between the ends get the same answer, so nothing
    checks that a route begins or ends at the depot. *)
Theorem checkSolution_ignores_ends routes routes' demand cap n :
  Forall2 (λ r r', r ≠ [] ∧ r' ≠ [] ∧ interior r = interior r') routes routes' →
  checkSolution routes demand cap n = checkSolution routes' demand cap n.
Proof.
  intros H. unfold checkSolution. by rewrite (routesLoop_interior _ _ _ _ _ H).
Qed.

Lemma checkSolution_ignores_ends_witness :
  Forall2 (λ r r', r ≠ [] ∧ r' ≠ [] ∧ interior r = interior r')
          [[1; 2; 3; 1]; [1; 4; 1]] [[7; 2; 3; 9]; [0; 4; 8]] ∧
  checkSolution [[7; 2; 3; 9]; [0; 4; 8]] [0; 0; 4; 5; 3] 10 4 = Ok true ∧
  checkSolution [[1; 2; 3; 1]; [1; 4; 1]] [0; 0; 4; 5; 3] 10 4
  = checkSolution [[7; 2; 3; 9]; [0; 4; 8]] [0; 0; 4; 5; 3] 10 4.
Proof.
  assert (Forall2 (λ r r', r ≠ [] ∧ r' ≠ [] ∧ interior r = interior r')
                  [[1; 2; 3; 1]; [1; 4; 1]] [[7; 2; 3; 9]; [0; 4; 8]]) as H.
  { repeat constructor; done. }
  split; [exact H|]. split; [reflexivity|].
  exact (checkSolution_ignores_ends _ _ [0; 0; 4; 5; 3] 10 4 H).
Defined.

(** X26. What the pipeline returns decodes to [vehicle] routes at most, which
    hold the shuffled customers in their order, every customer once; so the
    only thing [checkSolution] can refuse on them is the capacity: it
    returns [true] exactly when the demand of every route, summed as an
    [int], is within the capacity. Where no demand is negative and the
    demands of all customers together are an [int], the sum of a route is
    its demand. *)
Theorem repaired_check shuffled V n cap demand depot fuel r :
  shuffleOf n shuffled → n < size demand →
  generateSeq fuel shuffled V n cap demand = Some (Ok r) →
  size (decodeSeq r depot) ≤ V ∧
  concat (interior <$> decodeSeq r depot) = shuffled ∧
  ∃ b, checkSolution (decodeSeq r depot) demand cap n = Ok b ∧
    (b = true ↔
     Forall (λ route, to_int (load demand (interior route)) ≤ cap)
            (decodeSeq r depot)) ∧
    (Forall (λ c, 0 ≤ load demand [c]) shuffled → load demand shuffled ≤ INT_MAX →
     (b = true ↔
      Forall (λ route, load demand (interior route) ≤ cap) (decodeSeq r depot))).
Proof.
  intros Hs Hd Hr.
  destruct (generateSeq_sound _ _ _ _ _ _ _ Hs Hr) as (v & _ & _ & Hc & Ht & Hz).
  assert (0 ≤ n + 1) as Hn.
  { unfold repairCustomer in Hc. destruct (Z.ltb_spec (n + 1) 0); [done|lia]. }
  pose proof (length_decodeSeq r depot) as Hlen.
  destruct (decodeSeq_routes r depot) as (gs & Hdec & Hgs & Hcg).
  assert (concat (interior <$> decodeSeq r depot) = shuffled) as Hint.
  { rewrite Hdec, <- list_fmap_compose, <- Ht, <- Hcg. f_equal.
    rewrite <- (list_fmap_id gs) at 2.
    apply list_fmap_ext. intros _ g _. apply interior_routeOf. }
  split_and!; [lia|done|].
  destruct (checkSolution_inRange (decodeSeq r depot) demand cap n Hn Hd)
    as (b & Hb & Hiff).
  { rewrite Hdec. apply Forall_fmap, Forall_forall. intros g Hg. split; [done|].
    simpl. rewrite interior_routeOf. apply Forall_forall. intros c Hc'.
    assert (c ∈ shuffled) as Hin.
    { rewrite <- Ht, <- Hcg. apply list_elem_of_In, in_concat.
      exists g. split; by apply list_elem_of_In. }
    eapply shuffleOf_elem in Hin; [|done]. lia. }
  assert (b = true ↔
          Forall (λ route, to_int (load demand (interior route)) ≤ cap)
                 (decodeSeq r depot)) as Hcap.
  { rewrite Hiff, Hint. split; [by intros (? & _)|].
    intros Hl. split_and!; [done|by eapply shuffleOf_NoDup|].
    intros c Hc'. by eapply shuffleOf_elem. }
  exists b. split_and!; [done|done|]. intros Hnn Hmax. rewrite Hcap.
  apply Forall_load_exact, Forall_forall. intros route Hin.
  rewrite <- Hint in Hnn, Hmax.
  pose proof (load_concat_le demand (interior <$> decodeSeq r depot) (interior route) Hnn)
    as Hle.
  unfold INT_MIN. split; [|etrans; [apply Hle|done]]; [|by apply list_elem_of_fmap_2].
  transitivity 0; [lia|]. apply Hle. by apply list_elem_of_fmap_2.
Qed.

Lemma repaired_check_witness :
  shuffleOf 4 [2; 4; 3] ∧ 4 < size [0; 0; 4; 5; 3] ∧
  generateSeq 5 [2; 4; 3] 2 4 9 [0; 0; 4; 5; 3] = Some (Ok [2; 4; 0; 3]) ∧
  size (decodeSeq [2; 4; 0; 3] 1) ≤ 2 ∧
  concat (interior <$> decodeSeq [2; 4; 0; 3] 1) = [2; 4; 3] ∧
  ∃ b, checkSolution (decodeSeq [2; 4; 0; 3] 1) [0; 0; 4; 5; 3] 9 4 = Ok b ∧
    (b = true ↔
     Forall (λ route, to_int (load [0; 0; 4; 5; 3] (interior route)) ≤ 9)
            (decodeSeq [2; 4; 0; 3] 1)) ∧
    (Forall (λ c, 0 ≤ load [0; 0; 4; 5; 3] [c]) [2; 4; 3] →
     load [0; 0; 4; 5; 3] [2; 4; 3] ≤ INT_MAX →
     (b = true ↔
      Forall (λ route, load [0; 0; 4; 5; 3] (interior route) ≤ 9)
             (decodeSeq [2; 4; 0; 3] 1))).
Proof.
  assert (shuffleOf 4 [2; 4; 3]) as Hs.
  { unfold shuffleOf. change (customers 4) with [2; 3; 4]. apply perm_skip, perm_swap. }
  assert (4 < size [0; 0; 4; 5; 3]) as Hd by (by vm_compute).
  split; [exact Hs|]. split; [exact Hd|]. split; [reflexivity|].
  exact (repaired_check [2; 4; 3] 2 4 9 [0; 0; 4; 5; 3] 1 5%nat [2; 4; 0; 3] Hs Hd eq_refl).
Defined.

(** X27. The cost of a route depends on its direction, although the matrix
    is symmetric: the sum over the legs is a sum of [double], and its
    roundings depend on the order of the legs. *)
Theorem routeCost_reverse :
  ∃ coords route,
    Forall (λ xy, finite xy.1 = true ∧ finite xy.2 = true) coords ∧
    routeCost route (buildDist coords) = Ok 18014398509481988%float ∧
    routeCost (reverse route) (buildDist coords) = Ok 18014398509481984%float ∧
    routeCost (reverse route) (buildDist coords) ≠ routeCost route (buildDist coords).
Proof.
  exists [(0, 0); (0, 0); (0, 1); (0, 2); (0, 3); (0x1p53, 3)]%float, [1; 2; 3; 4; 5; 1].
  split_and!; [by repeat constructor | reflexivity | reflexivity | bits_differ].
Qed.

(** X28. [routeDemand] on a route that is not empty returns exactly when the
    demand vector has an entry for every node between the ends of the
    route; what it returns is the sum of their demands as an [int], that is
    modulo [2^32], and the sum itself where that is an [int]; what it reads
    out of range is the demand vector. The demands 2147483647 and 1 sum to
    -2147483648. *)
Theorem routeDemand_in_range route demand :
  route ≠ [] →
  ((∃ d, routeDemand route demand = Ok d) ↔
   Forall (λ c, 0 ≤ c < size demand) (interior route)) ∧
  (∀ d, routeDemand route demand = Ok d →
     d = to_int (load demand (interior route)) ∧
     (INT_MIN ≤ load demand (interior route) ≤ INT_MAX →
      d = load demand (interior route))) ∧
  (∀ e, routeDemand route demand = Err e → e = OutOfRange VDemand).
Proof.
  intros Hne. rewrite routeDemand_ids by done. split_and!.
  - apply demandIds_in_range.
  - intros d Hd. assert (Forall (λ c, 0 ≤ c < size demand) (interior route)) as Hin.
    { apply (demandIds_in_range _ _ 0). by eexists. }
    rewrite demandIds_load in Hd by done. injection Hd as <-.
    split; [done|]. apply to_int_id.
  - generalize 0 at 1. induction (interior route) as [|c ids IH]; intros sum e; [done|].
    simpl. destruct (at_ VDemand demand c) as [dc|e'] eqn:Hc; simpl; [apply IH|].
    intros [= <-]. unfold at_ in Hc. destruct (c <? 0); [by injection Hc as <-|].
    destruct (demand !! Z.to_nat c); [done|by injection Hc as <-].
Qed.

Lemma routeDemand_in_range_witness :
  [1; 2; 3; 1] ≠ @nil Z ∧
  routeDemand [1; 2; 3; 1] [0; 0; 2147483647; 1] = Ok (-2147483648) ∧
  routeDemand [1; 2; 7; 1] [0; 0; 4] = Err (OutOfRange VDemand) ∧
  ((∃ d, routeDemand [1; 2; 3; 1] [0; 0; 2147483647; 1] = Ok d) ↔
   Forall (λ c, 0 ≤ c < size [0; 0; 2147483647; 1]) (interior [1; 2; 3; 1])) ∧
  (∀ d, routeDemand [1; 2; 3; 1] [0; 0; 2147483647; 1] = Ok d →
     d = to_int (load [0; 0; 2147483647; 1] (interior [1; 2; 3; 1])) ∧
     (INT_MIN ≤ load [0; 0; 2147483647; 1] (interior [1; 2; 3; 1]) ≤ INT_MAX →
      d = load [0; 0; 2147483647; 1] (interior [1; 2; 3; 1]))) ∧
  (∀ e, routeDemand [1; 2; 3; 1] [0; 0; 2147483647; 1] = Err e → e = OutOfRange VDemand).
Proof.
  assert ([1; 2; 3; 1] ≠ @nil Z) as H by discriminate.
  split; [exact H|]. split; [reflexivity|]. split; [reflexivity|].
  exact (routeDemand_in_range [1; 2; 3; 1] [0; 0; 2147483647; 1] H).
Defined.

(** X29. With a vehicle, at least [vehicle - 1] separators and a repaired
    length of at least two, [repairZero] returns: the chromosome with
    separators erased only (the customers keep their order) and exactly
    [vehicle - 1] separators left; where no two separators are adjacent,
    the separators erased are the leftmost ones. *)
Theorem repairZero_removal_order v V :
  1 ≤ V → V - 1 ≤ Z.of_nat (count 0 v) → 2 ≤ size (tokens v) + (V - 1) →
  ∃ fuel r, repairZero fuel v V = Some (Ok r) ∧
    tokens r = tokens v ∧ r `sublist_of` v ∧ Z.of_nat (count 0 r) = V - 1 ∧
    (adjacentZeros v = false → r = zeroRepairSpec v V).
Proof.
  intros HV Hle Hlen.
  destruct (repairZero_terminates v V HV Hle Hlen) as (fuel & r & Hr).
  exists fuel, r. pose proof (repairZero_sound _ _ _ _ Hle Hr) as (? & ? & ?).
  split_and!; [done..|]. intros Hv. by eapply repairZero_noadj.
Qed.

Lemma repairZero_removal_order_witness :
  1 ≤ 2 ∧ 2 - 1 ≤ Z.of_nat (count 0 [2; 0; 3; 0; 4]) ∧
  2 ≤ size (tokens [2; 0; 3; 0; 4]) + (2 - 1) ∧
  ∃ fuel r, repairZero fuel [2; 0; 3; 0; 4] 2 = Some (Ok r) ∧
    tokens r = tokens [2; 0; 3; 0; 4] ∧ r `sublist_of` [2; 0; 3; 0; 4] ∧
    Z.of_nat (count 0 r) = 2 - 1 ∧
    (adjacentZeros [2; 0; 3; 0; 4] = false → r = zeroRepairSpec [2; 0; 3; 0; 4] 2).
Proof.
  assert (1 ≤ 2) as H1 by lia.
  assert (2 - 1 ≤ Z.of_nat (count 0 [2; 0; 3; 0; 4])) as H2 by (by vm_compute).
  assert (2 ≤ size (tokens [2; 0; 3; 0; 4]) + (2 - 1)) as H3 by (by vm_compute).
  split_and!; [exact H1 | exact H2 | exact H3 |].
  exact (repairZero_removal_order [2; 0; 3; 0; 4] 2 H1 H2 H3).
Defined.
